(** * Address groups of NeoMutt (group.c)

    A shallow embedding of [group.c]: the process-wide registry [Groups]
    (a hash table from group names to [struct Group *]), the groups
    themselves, and the [struct GroupContext] linked lists that fan one
    configuration statement out to several groups.

    Memory is explicit.  Groups and context nodes live in two finite maps
    from locations to records; a pointer is an [option loc], [None] being
    [NULL].  Every function of [group.c] is a computation in a small
    state-and-fault monad: reading or freeing a location that is not
    allocated, or naming a member of a null pointer, is undefined
    behaviour in C and gives [Fault] here. *)

From Stdlib Require Import ZArith Ascii String.
From stdpp Require Import gmap strings list fin_maps.

Open Scope Z_scope.

(** ** Data *)

Definition loc := positive.

(** A C pointer: [None] is [NULL]. *)
Abbreviation ptr := (option loc).

(** [struct Address]: [group.c] reads the [mailbox] member (which may be
    null) and follows [next]; an address list is a Rocq list, the null
    list being [[]]. *)
Module Address.
Record t := mk { mailbox : option string }.
End Address.

(** One entry of a [struct RegexList]: the pattern source and the flags it
    was compiled with. *)
Module Regex.
Record t := mk { pattern : string; flags : Z }.
End Regex.

(** [struct Group]: the member [as] is spelled [as_] here. *)
Module Group.
Record t := mk { name : string; as_ : list Address.t; rs : list Regex.t }.
End Group.

(** [struct GroupContext]: one node of a context list. *)
Module GroupContext.
Record t := mk { g : ptr; next : ptr }.
End GroupContext.

#[global] Instance Address_eq_dec : EqDecision Address.t.
Proof. solve_decision. Defined.
#[global] Instance Regex_eq_dec : EqDecision Regex.t.
Proof. solve_decision. Defined.
#[global] Instance Group_eq_dec : EqDecision Group.t.
Proof. solve_decision. Defined.
#[global] Instance GroupContext_eq_dec : EqDecision GroupContext.t.
Proof. solve_decision. Defined.

(** The program state: the global hash table [Groups], the allocated
    groups and the allocated context nodes. *)
Record state := mkState {
  Groups : gmap string loc;
  group_heap : gmap loc Group.t;
  ctx_heap : gmap loc GroupContext.t
}.

(** ** The monad of C computations *)

Inductive outcome (A : Type) : Type :=
| Ok (a : A) (σ : state)
| Fault
| Timeout.
Arguments Ok {A} a σ.
Arguments Fault {A}.
Arguments Timeout {A}.

Definition M (A : Type) : Type := state → outcome A.

Definition ret {A} (a : A) : M A := λ σ, Ok a σ.

Definition bind {A B} (m : M A) (k : A → M B) : M B :=
  λ σ, match m σ with
       | Ok a σ' => k a σ'
       | Fault => Fault
       | Timeout => Timeout
       end.

Definition fault {A} : M A := λ _, Fault.
Definition timeout {A} : M A := λ _, Timeout.

#[global] Instance M_ret : MRet M := @ret.
#[global] Instance M_bind : MBind M := λ A B k m, bind m k.

(** ** Memory primitives *)

(** [g->member] for a [struct Group *g]. *)
Definition load_group (p : ptr) : M Group.t :=
  λ σ, match p with
       | None => Fault
       | Some l => match group_heap σ !! l with
                   | Some G => Ok G σ
                   | None => Fault
                   end
       end.

Definition store_group (l : loc) (G : Group.t) : M unit :=
  λ σ, match group_heap σ !! l with
       | Some _ => Ok tt (mkState (Groups σ) (<[l:=G]> (group_heap σ)) (ctx_heap σ))
       | None => Fault
       end.

(** [mutt_mem_calloc(1, sizeof(struct Group))]: a location that is not
    allocated. *)
Definition calloc_group (G : Group.t) : M loc :=
  λ σ, let l := fresh (dom (group_heap σ)) in
       Ok l (mkState (Groups σ) (<[l:=G]> (group_heap σ)) (ctx_heap σ)).

(** [FREE(&g)]. *)
Definition free_group (l : loc) : M unit :=
  λ σ, match group_heap σ !! l with
       | Some _ => Ok tt (mkState (Groups σ) (delete l (group_heap σ)) (ctx_heap σ))
       | None => Fault
       end.

Definition load_ctx (l : loc) : M GroupContext.t :=
  λ σ, match ctx_heap σ !! l with
       | Some n => Ok n σ
       | None => Fault
       end.

Definition store_ctx (l : loc) (n : GroupContext.t) : M unit :=
  λ σ, match ctx_heap σ !! l with
       | Some _ => Ok tt (mkState (Groups σ) (group_heap σ) (<[l:=n]> (ctx_heap σ)))
       | None => Fault
       end.

(** [mutt_mem_calloc(1, sizeof(struct GroupContext))]: both members null. *)
Definition calloc_ctx : M loc :=
  λ σ, let l := fresh (dom (ctx_heap σ)) in
       Ok l (mkState (Groups σ) (group_heap σ)
                     (<[l:=GroupContext.mk None None]> (ctx_heap σ))).

Definition free_ctx (l : loc) : M unit :=
  λ σ, match ctx_heap σ !! l with
       | Some _ => Ok tt (mkState (Groups σ) (group_heap σ) (delete l (ctx_heap σ)))
       | None => Fault
       end.

(** ** Collaborators that are not part of [group.c] *)

(** Modelled from the spec: the hash table behind [Groups], which is
    declared in the headers only.  Section 6 gives its interface as
    [find(key) -> value|absent], [insert(key, value)] and
    [delete(key, value)], keyed by group name. *)
Definition mutt_hash_find (k : string) : M ptr :=
  λ σ, Ok (Groups σ !! k) σ.

(** Modelled from the spec: [insert(key, value)] of the same table. *)
Definition mutt_hash_insert (k : string) (p : loc) : M unit :=
  λ σ, Ok tt (mkState (<[k:=p]> (Groups σ)) (group_heap σ) (ctx_heap σ)).

(** Modelled from the spec: [delete(key, value)] of the same table; the
    entry goes when the key holds that value. *)
Definition mutt_hash_delete (k : string) (p : loc) : M unit :=
  λ σ, if decide (Groups σ !! k = Some p)
       then Ok tt (mkState (delete k (Groups σ)) (group_heap σ) (ctx_heap σ))
       else Ok tt σ.

(** Modelled from the spec: the case folding behind "case-insensitively
    equal", on character codes: ASCII upper case goes to lower case. *)
Definition tolower (c : ascii) : N :=
  let n := N_of_ascii c in
  if ((65 <=? n) && (n <=? 90))%N then (n + 32)%N else n.

(** Modelled from the spec: [mutt_str_strcasecmp], a string utility outside
    [group.c].  Matching compares "case-insensitively"; as for POSIX
    [strcasecmp] only the sign of the result is specified, so the model
    returns -1, 0 or 1 after folding case. *)
Fixpoint mutt_str_strcasecmp (a b : string) : Z :=
  match a, b with
  | EmptyString, EmptyString => 0
  | EmptyString, String _ _ => -1
  | String _ _, EmptyString => 1
  | String c a', String d b' =>
      match (tolower c ?= tolower d)%N with
      | Eq => mutt_str_strcasecmp a' b'
      | Lt => -1
      | Gt => 1
      end
  end.

(** Modelled from the spec: [mutt_addr_copy_list] ([deep_copy(list) -> list]
    in section 6).  Lists are values here, so the copy is an equal list
    that shares nothing with its argument; [group.c] passes [false] for the
    second argument, which the spec does not describe. *)
Definition mutt_addr_copy_list (a : list Address.t) : list Address.t := a.

(** Modelled from the spec: [mutt_addr_remove_from_list]
    ([remove_by_value(list, mailbox_string)]): "removes all occurrences of
    that mailbox string (case-sensitive exact match on the mailbox
    portion)". *)
Definition mutt_addr_remove_from_list
    (l : list Address.t) (mbox : option string) : list Address.t :=
  filter (λ x, Address.mailbox x ≠ mbox) l.

(** Modelled from the spec: [mutt_remove_xrefs]
    ([remove_cross_referenced(existing, incoming) -> filtered_incoming]).
    The spec fixes only that the result is what is left of [incoming]
    after some entries are stripped, so the function is a parameter that
    returns a sublist of its second argument. *)
Class AddressLib := {
  mutt_remove_xrefs : list Address.t → list Address.t → list Address.t;
  mutt_remove_xrefs_sublist :
    ∀ a b, mutt_remove_xrefs a b `sublist_of` b
}.

(** The regular-expression engine behind the Regex List: whether a pattern
    compiles under given flags (with the diagnostic when it does not), and
    whether a compiled entry matches a string. *)
Inductive compiled := Compiled | Invalid (diagnostic : string).

Class RegexEngine := {
  regcomp : string → Z → compiled;
  regexec : Regex.t → string → bool
}.

(** [struct Buffer]: the text it holds. *)
Definition Buffer := string.

(** What [mutt_group_match] evaluates, in order: a pattern run against the
    candidate, or a mailbox compared with it. *)
Inductive probe :=
| ProbeRegex (r : Regex.t)
| ProbeAddress (m : string).

Section RegexList.
Context `{RegexEngine}.

(** Modelled from the spec: [mutt_regexlist_add]
    ([add(list, pattern, flags) -> status, diagnostic]): "fails if the
    pattern fails to compile, in which case a human-readable diagnostic
    is written to [err] and the group's pattern set is left unchanged";
    a new entry goes to the end of the "ordered sequence".  An absent
    pattern is a no-op with the neutral status. *)
Definition mutt_regexlist_add (rl : list Regex.t) (s : option string)
    (flags : Z) (err : Buffer) : Z * list Regex.t * Buffer :=
  match s with
  | None => (0, rl, err)
  | Some s =>
      match regcomp s flags with
      | Invalid d => (-1, rl, d)
      | Compiled => (0, rl ++ [Regex.mk s flags], err)
      end
  end.

(** Modelled from the spec: [mutt_regexlist_match]
    ([match_any(list, candidate) -> bool]): "pattern evaluation order is
    the Regex List's insertion order; first match short-circuits".  The
    second component lists the patterns that were run. *)
Fixpoint mutt_regexlist_match (rl : list Regex.t) (s : string)
    : bool * list probe :=
  match rl with
  | [] => (false, [])
  | r :: rl' =>
      if regexec r s then (true, [ProbeRegex r])
      else let '(m, t) := mutt_regexlist_match rl' s in (m, ProbeRegex r :: t)
  end.
End RegexList.

(** Modelled from the spec: [mutt_regexlist_remove]
    ([remove(list, pattern_source) -> status]): removal "by source
    string", which "fails (non-fatally) if the pattern is not present". *)
Definition mutt_regexlist_remove (rl : list Regex.t) (s : option string)
    : Z * list Regex.t :=
  match s with
  | None => (-1, rl)
  | Some s =>
      if bool_decide (Exists (λ r, Regex.pattern r = s) rl)
      then (0, filter (λ r, Regex.pattern r ≠ s) rl)
      else (-1, rl)
  end.

(** ** group.c *)

(** [mutt_pattern_group] (lines 39-56).  [calloc] and the assignment of
    [p->name] are one allocation of a group with that name and no
    addresses or patterns. *)
Definition mutt_pattern_group (k : option string) : M ptr :=
  match k with
  | None => mret None
  | Some k =>
      p ← mutt_hash_find k;
      match p with
      | Some l => mret (Some l)
      | None =>
          l ← calloc_group (Group.mk k [] []);
          mutt_hash_insert k l;;
          mret (Some l)
      end
  end.

(** [group_remove] (lines 62-71).  The address list, the regex list and the
    name are owned by the record and go with it. *)
Definition group_remove (g : ptr) : M unit :=
  match g with
  | None => mret tt
  | Some l =>
      G ← load_group g;
      mutt_hash_delete (Group.name G) l;;
      free_group l
  end.

(** [ctx->g] and [ctx->next] for a [struct GroupContext *ctx]. *)
Definition ctx_g (l : loc) : M ptr :=
  n ← load_ctx l; mret (GroupContext.g n).

Definition ctx_next (l : loc) : M ptr :=
  n ← load_ctx l; mret (GroupContext.next n).

(** [mutt_group_context_clear] (lines 78-88).  The argument is a
    [struct GroupContext **]: [None] when it is null, else the content of
    the variable it points to; the final content is returned next to the
    status. *)
Fixpoint mutt_group_context_clear_loop (fuel : nat) (p : ptr) : M ptr :=
  match p with
  | None => mret None
  | Some l =>
      match fuel with
      | O => timeout
      | S fuel =>
          g ← ctx_g l;
          group_remove g;;
          t ← ctx_next l;
          free_ctx l;;
          mutt_group_context_clear_loop fuel t
      end
  end.

Definition mutt_group_context_clear (fuel : nat) (ctx : option ptr)
    : M (Z * option ptr) :=
  match ctx with
  | None => mret (0, None)
  | Some p => p' ← mutt_group_context_clear_loop fuel p; mret (0, Some p')
  end.

(** [empty_group] (lines 95-100). *)
Definition is_null {A} (l : list A) : bool :=
  match l with [] => true | _ => false end.

Definition empty_group (g : ptr) : M Z :=
  match g with
  | None => mret (-1)
  | Some _ =>
      G ← load_group g;
      mret (Z.b2z (is_null (Group.as_ G) && is_null (Group.rs G)))
  end.

(** The place a [struct GroupContext **] points to while a list is
    walked: the caller's variable, or the [next] member of a node. *)
Inductive cell :=
| Var
| NextOf (l : loc).

(** [*ctx], given the content [root] of the caller's variable. *)
Definition read_cell (root : ptr) (ctx : cell) : M ptr :=
  match ctx with
  | Var => mret root
  | NextOf l => ctx_next l
  end.

(** [*ctx = v]; the result is the content of the caller's variable. *)
Definition write_cell (root : ptr) (ctx : cell) (v : ptr) : M ptr :=
  match ctx with
  | Var => mret v
  | NextOf l =>
      n ← load_ctx l;
      store_ctx l (GroupContext.mk (GroupContext.g n) v);;
      mret root
  end.

(** [mutt_group_context_add] (lines 107-117). *)
Fixpoint mutt_group_context_add_loop (fuel : nat) (root : ptr) (ctx : cell)
    (group : ptr) : M ptr :=
  p ← read_cell root ctx;
  match p with
  | Some l =>
      match fuel with
      | O => timeout
      | S fuel =>
          g ← ctx_g l;
          if decide (g = group) then mret root
          else mutt_group_context_add_loop fuel root (NextOf l) group
      end
  | None =>
      l ← calloc_ctx;
      root ← write_cell root ctx (Some l);
      p ← read_cell root ctx;
      match p with
      | None => fault
      | Some l' =>
          n ← load_ctx l';
          store_ctx l' (GroupContext.mk group (GroupContext.next n));;
          mret root
      end
  end.

Definition mutt_group_context_add (fuel : nat) (ctx : option ptr)
    (group : ptr) : M ptr :=
  match ctx with
  | None => fault
  | Some root => mutt_group_context_add_loop fuel root Var group
  end.

(** [mutt_group_context_destroy] (lines 123-131); the result is the final
    content of [*ctx]. *)
Fixpoint mutt_group_context_destroy_loop (fuel : nat) (root : ptr) : M ptr :=
  match root with
  | None => mret None
  | Some l =>
      match fuel with
      | O => timeout
      | S fuel =>
          p ← ctx_next l;
          free_ctx l;;
          mutt_group_context_destroy_loop fuel p
      end
  end.

Definition mutt_group_context_destroy (fuel : nat) (ctx : option ptr) : M ptr :=
  match ctx with
  | None => fault
  | Some root => mutt_group_context_destroy_loop fuel root
  end.

(** [g->as = v] and [g->rs = v]. *)
Definition set_as (g : ptr) (v : list Address.t) : M unit :=
  match g with
  | None => fault
  | Some l =>
      G ← load_group g;
      store_group l (Group.mk (Group.name G) v (Group.rs G))
  end.

Definition set_rs (g : ptr) (v : list Regex.t) : M unit :=
  match g with
  | None => fault
  | Some l =>
      G ← load_group g;
      store_group l (Group.mk (Group.name G) (Group.as_ G) v)
  end.

Section AddressList.
Context `{AddressLib}.

(** [group_add_addrlist] (lines 138-153).  The first loop finds the
    null [next] at the end of [g->as]; storing [q] there appends it. *)
Definition group_add_addrlist (g : ptr) (a : list Address.t) : M unit :=
  match g with
  | None => mret tt
  | Some _ =>
      match a with
      | [] => mret tt
      | _ =>
          G ← load_group g;
          let q := mutt_addr_copy_list a in
          let q := mutt_remove_xrefs (Group.as_ G) q in
          set_as g (Group.as_ G ++ q)
      end
  end.

(** [mutt_group_context_add_addrlist] (lines 208-212). *)
Fixpoint mutt_group_context_add_addrlist (fuel : nat) (ctx : ptr)
    (a : list Address.t) : M unit :=
  match ctx with
  | None => mret tt
  | Some l =>
      match fuel with
      | O => timeout
      | S fuel =>
          g ← ctx_g l;
          group_add_addrlist g a;;
          nx ← ctx_next l;
          mutt_group_context_add_addrlist fuel nx a
      end
  end.
End AddressList.

(** [group_remove_addrlist] (lines 162-175): first the loop over [a]. *)
Fixpoint group_remove_addrlist_loop (g : ptr) (p : list Address.t) : M unit :=
  match p with
  | [] => mret tt
  | x :: p' =>
      G ← load_group g;
      set_as g (mutt_addr_remove_from_list (Group.as_ G) (Address.mailbox x));;
      group_remove_addrlist_loop g p'
  end.

Definition group_remove_addrlist (g : ptr) (a : list Address.t) : M Z :=
  match g with
  | None => mret (-1)
  | Some _ =>
      match a with
      | [] => mret (-1)
      | _ => group_remove_addrlist_loop g a;; mret 0
      end
  end.

(** [group_remove_regex] (lines 198-201). *)
Definition group_remove_regex (g : ptr) (s : option string) : M Z :=
  G ← load_group g;
  let '(rc, rl) := mutt_regexlist_remove (Group.rs G) s in
  set_rs g rl;;
  mret rc.

(** [mutt_group_context_remove_addrlist] (lines 221-233). *)
Fixpoint mutt_group_context_remove_addrlist_loop (fuel : nat) (rc : Z)
    (ctx : ptr) (a : list Address.t) : M Z :=
  if decide (rc = 0) then
    match ctx with
    | Some l =>
        match fuel with
        | O => timeout
        | S fuel =>
            g ← ctx_g l;
            rc ← group_remove_addrlist g a;
            g ← ctx_g l;
            e ← empty_group g;
            (if decide (e ≠ 0) then g ← ctx_g l; group_remove g else mret tt);;
            nx ← ctx_next l;
            mutt_group_context_remove_addrlist_loop fuel rc nx a
        end
    | None => mret rc
    end
  else mret rc.

Definition mutt_group_context_remove_addrlist (fuel : nat) (ctx : ptr)
    (a : list Address.t) : M Z :=
  mutt_group_context_remove_addrlist_loop fuel 0 ctx a.

(** [mutt_group_context_remove_regex] (lines 262-274). *)
Fixpoint mutt_group_context_remove_regex_loop (fuel : nat) (rc : Z)
    (ctx : ptr) (s : option string) : M Z :=
  if decide (rc = 0) then
    match ctx with
    | Some l =>
        match fuel with
        | O => timeout
        | S fuel =>
            g ← ctx_g l;
            rc ← group_remove_regex g s;
            g ← ctx_g l;
            e ← empty_group g;
            (if decide (e ≠ 0) then g ← ctx_g l; group_remove g else mret tt);;
            nx ← ctx_next l;
            mutt_group_context_remove_regex_loop fuel rc nx s
        end
    | None => mret rc
    end
  else mret rc.

Definition mutt_group_context_remove_regex (fuel : nat) (ctx : ptr)
    (s : option string) : M Z :=
  mutt_group_context_remove_regex_loop fuel 0 ctx s.

Section Regex.
Context `{RegexEngine}.

(** [group_add_regex] (lines 186-189).  [&g->rs] names a member of [*g]
    with no test of [g]. *)
Definition group_add_regex (g : ptr) (s : option string) (flags : Z)
    (err : Buffer) : M (Z * Buffer) :=
  G ← load_group g;
  let '(rc, rl, err) := mutt_regexlist_add (Group.rs G) s flags err in
  set_rs g rl;;
  mret (rc, err).

(** [mutt_group_context_add_regex] (lines 244-253); the content of [err]
    after the call is returned next to the status. *)
Fixpoint mutt_group_context_add_regex_loop (fuel : nat) (rc : Z)
    (ctx : ptr) (s : option string) (flags : Z) (err : Buffer)
    : M (Z * Buffer) :=
  if decide (rc = 0) then
    match ctx with
    | Some l =>
        match fuel with
        | O => timeout
        | S fuel =>
            g ← ctx_g l;
            '(rc, err) ← group_add_regex g s flags err;
            nx ← ctx_next l;
            mutt_group_context_add_regex_loop fuel rc nx s flags err
        end
    | None => mret (rc, err)
    end
  else mret (rc, err).

Definition mutt_group_context_add_regex (fuel : nat) (ctx : ptr)
    (s : option string) (flags : Z) (err : Buffer) : M (Z * Buffer) :=
  mutt_group_context_add_regex_loop fuel 0 ctx s flags err.

(** The loop of [mutt_group_match] over [g->as] (lines 289-291), with
    the mailboxes that were compared. *)
Fixpoint match_addresses (ap : list Address.t) (s : string)
    : bool * list probe :=
  match ap with
  | [] => (false, [])
  | a :: ap' =>
      match Address.mailbox a with
      | Some m =>
          if decide (mutt_str_strcasecmp s m = 0)
          then (true, [ProbeAddress m])
          else let '(b, t) := match_addresses ap' s in (b, ProbeAddress m :: t)
      | None => match_addresses ap' s
      end
  end.

(** [mutt_group_match] (lines 282-294): the C result, and what was
    evaluated on the way to it. *)
Definition mutt_group_match (g : ptr) (s : option string)
    : M (bool * list probe) :=
  match g, s with
  | Some _, Some s =>
      G ← load_group g;
      let '(m, t) := mutt_regexlist_match (Group.rs G) s in
      if m then mret (true, t)
      else let '(m', t') := match_addresses (Group.as_ G) s in
           mret (m', t ++ t')
  | _, _ => mret (false, [])
  end.
End Regex.

(** ** Invariants and representation *)

(** Every entry of [Groups] points to an allocated group that carries the
    entry's key as its name. *)
Definition registry_wf (σ : state) : Prop :=
  ∀ n l, Groups σ !! n = Some l →
    ∃ G, group_heap σ !! l = Some G ∧ Group.name G = n.

(** [is_ctx h p ns]: in the node heap [h], [p] heads a null-terminated
    list whose nodes sit at the locations [ns.*1] and carry the group
    pointers [ns.*2], in this order.  Each node is taken out of the heap
    before the rest is described, so no node occurs twice. *)
Fixpoint is_ctx (h : gmap loc GroupContext.t) (p : ptr)
    (ns : list (loc * ptr)) : Prop :=
  match ns with
  | [] => p = None
  | (l, g) :: ns' =>
      p = Some l ∧
      ∃ nx, h !! l = Some (GroupContext.mk g nx) ∧ is_ctx (delete l h) nx ns'
  end.

(** The locations of the groups a context refers to. *)
Definition group_locs (ns : list (loc * ptr)) : list loc :=
  omap snd ns.

(** Removing a list of locations from a heap, first to last. *)
Definition delete_all {A} (ls : list loc) (h : gmap loc A) : gmap loc A :=
  foldl (λ h l, delete l h) h ls.

(** The state after [group_remove] of the allocated group [G] at [l]. *)
Definition group_remove_state (l : loc) (G : Group.t) (σ : state) : state :=
  mkState (if decide (Groups σ !! Group.name G = Some l)
           then delete (Group.name G) (Groups σ) else Groups σ)
          (delete l (group_heap σ)) (ctx_heap σ).

(** What a cell holds: the caller's variable holds [root]; the [next]
    member of the node at [l0], whose group pointer is [g0], is read from
    the heap. *)
Definition cell_holds (h : gmap loc GroupContext.t) (root : ptr) (c : cell)
    (g0 : ptr) (p : ptr) : Prop :=
  match c with
  | Var => root = p
  | NextOf l0 => h !! l0 = Some (GroupContext.mk g0 p)
  end.

(** The heap without the node a cell belongs to. *)
Definition cell_rest (h : gmap loc GroupContext.t) (c : cell)
    : gmap loc GroupContext.t :=
  match c with
  | Var => h
  | NextOf l0 => delete l0 h
  end.

(** ** Matching *)

(** Case-insensitive equality of strings: equal after folding case. *)
Definition fold_case (s : string) : list N :=
  map tolower (list_ascii_of_string s).

Definition ci_equal (a b : string) : Prop := fold_case a = fold_case b.

#[global] Instance ci_equal_dec (a b : string) : Decision (ci_equal a b).
Proof. unfold ci_equal. apply _. Defined.

(** Everything [mutt_group_match] may evaluate for a group, in the order
    of the code: the patterns, then the mailboxes that are not null. *)
Definition all_probes (G : Group.t) : list probe :=
  (ProbeRegex <$> Group.rs G) ++
  (ProbeAddress <$> omap Address.mailbox (Group.as_ G)).

(** Whether a probe succeeds on the candidate [s]. *)
Definition probe_hits `{RegexEngine} (s : string) (x : probe) : bool :=
  match x with
  | ProbeRegex r => regexec r s
  | ProbeAddress m => bool_decide (ci_equal s m)
  end.

(** A list up to and including its first element that satisfies [f]. *)
Fixpoint upto_first {A} (f : A → bool) (l : list A) : list A :=
  match l with
  | [] => []
  | x :: l' => if f x then [x] else x :: upto_first f l'
  end.

(** ** The effect of the remove operations on one group *)

(** [G] after the loop of [group_remove_addrlist] over [a]. *)
Definition remove_addresses (a : list Address.t) (G : Group.t) : Group.t :=
  Group.mk (Group.name G)
           (foldl (λ acc x, mutt_addr_remove_from_list acc (Address.mailbox x))
                  (Group.as_ G) a)
           (Group.rs G).

(** [G] after [group_remove_regex] with [s]. *)
Definition remove_regex (s : option string) (G : Group.t) : Group.t :=
  Group.mk (Group.name G) (Group.as_ G)
           (mutt_regexlist_remove (Group.rs G) s).2.

(** A group with no addresses and no patterns. *)
Definition is_empty_group (G : Group.t) : bool :=
  is_null (Group.as_ G) && is_null (Group.rs G).

Definition set_group (l : loc) (G : Group.t) (σ : state) : state :=
  mkState (Groups σ) (<[l:=G]> (group_heap σ)) (ctx_heap σ).

(** One round of a remove loop on the allocated group at [l]: the group
    becomes [upd G], and is destroyed if that is empty. *)
Definition visit (upd : Group.t → Group.t) (l : loc) (σ : state) : state :=
  match group_heap σ !! l with
  | Some G =>
      if is_empty_group (upd G)
      then group_remove_state l (upd G) (set_group l (upd G) σ)
      else set_group l (upd G) σ
  | None => σ
  end.

(** The state after the rounds on [ls], first to last. *)
Definition visit_all (upd : Group.t → Group.t) (ls : list loc) (σ : state)
    : state :=
  foldl (λ σ l, visit upd l σ) σ ls.

(** What a remove loop that visited the groups [visited] leaves in the
    heap: each visited group is [upd] of what it was, or gone from the heap
    and the registry if that is empty; every other group is as it was.
    What it leaves in the registry is [registry_restricted], below. *)
Definition visited_outcome (upd : Group.t → Group.t) (visited : list loc)
    (σ σ' : state) : Prop :=
  registry_wf σ' ∧
  ctx_heap σ' = ctx_heap σ ∧
  (∀ l G, l ∈ visited → group_heap σ !! l = Some G →
     if is_empty_group (upd G)
     then group_heap σ' !! l = None ∧ ∀ n, Groups σ' !! n ≠ Some l
     else group_heap σ' !! l = Some (upd G)) ∧
  (∀ l, l ∉ visited → group_heap σ' !! l = group_heap σ !! l).

(** ** Sample collaborators and states *)

(** An [AddressLib] that strips nothing, and one that strips the incoming
    entries whose mailbox an existing entry already has. *)
Definition keep_all_xrefs : AddressLib :=
  {| mutt_remove_xrefs := λ _ b, b;
     mutt_remove_xrefs_sublist := λ _ b, reflexivity b |}.

Definition by_mailbox_xrefs : AddressLib :=
  {| mutt_remove_xrefs := λ a b,
       filter (λ x, Address.mailbox x ∉ Address.mailbox <$> a) b;
     mutt_remove_xrefs_sublist := λ a b,
       sublist_filter (λ x, Address.mailbox x ∉ Address.mailbox <$> a) b |}.

(** A small engine for examples: every pattern compiles except ["["]; a
    pattern that starts with [^] matches the strings that start with the
    rest of it, any other pattern the strings that contain it. *)
Definition sample_engine : RegexEngine :=
  {| regcomp := λ s _,
       if String.eqb s "[" then Invalid "brackets ([ ]) not balanced"
       else Compiled;
     regexec := λ r s,
       match Regex.pattern r with
       | String "^"%char p => String.prefix p s
       | p => match String.index 0 p s with Some _ => true | None => false end
       end |}.

Definition alice : Address.t := Address.mk (Some "alice@example.com"%string).
Definition bob : Address.t := Address.mk (Some "bob@example.com"%string).

(** Two registered groups, ["team"] with one address and ["vip"] with one
    pattern, and a context list that refers to both. *)
Definition sample_state : state :=
  mkState
    (<["team"%string:=1%positive]> (<["vip"%string:=2%positive]> ∅))
    (<[1%positive:=Group.mk "team" [alice] []]>
       (<[2%positive:=Group.mk "vip" [] [Regex.mk "^boss@" 0]]> ∅))
    (<[1%positive:=GroupContext.mk (Some 1%positive) (Some 2%positive)]>
       (<[2%positive:=GroupContext.mk (Some 2%positive) None]> ∅)).

Definition sample_ctx : list (loc * ptr) :=
  [(1%positive, Some 1%positive); (2%positive, Some 2%positive)].

(** A state whose only context node carries a null group pointer, as
    [mutt_group_context_add] makes it from [mutt_pattern_group(NULL)]. *)
Definition null_group_state : state :=
  mkState ∅ ∅ (<[1%positive:=GroupContext.mk None None]> ∅).

(** A registered group with no addresses and no patterns, and a context
    node that refers to it. *)
Definition temp_state : state :=
  mkState (<["temp"%string:=1%positive]> ∅)
          (<[1%positive:=Group.mk "temp" [] []]> ∅)
          (<[1%positive:=GroupContext.mk (Some 1%positive) None]> ∅).

(** Group ["a"] with one pattern and the empty group ["b"], and a context
    list that refers to ["a"], then ["b"]. *)
Definition two_group_state : state :=
  mkState
    (<["a"%string:=1%positive]> (<["b"%string:=2%positive]> ∅))
    (<[1%positive:=Group.mk "a" [] [Regex.mk "x" 0]]>
       (<[2%positive:=Group.mk "b" [] []]> ∅))
    (<[1%positive:=GroupContext.mk (Some 1%positive) (Some 2%positive)]>
       (<[2%positive:=GroupContext.mk (Some 2%positive) None]> ∅)).

(** One registered group, and a context list whose two nodes both refer
    to it. *)
Definition repeated_group_state : state :=
  mkState
    (<["team"%string:=1%positive]> ∅)
    (<[1%positive:=Group.mk "team" [alice] []]> ∅)
    (<[1%positive:=GroupContext.mk (Some 1%positive) (Some 2%positive)]>
       (<[2%positive:=GroupContext.mk (Some 1%positive) None]> ∅)).

(** ** Relations between the state before and after a call *)

(** [preserves R m]: whenever [m] returns, the states before and after are
    related by [R]. *)
Definition preserves {A} (R : state → state → Prop) (m : M A) : Prop :=
  ∀ σ a σ', m σ = Ok a σ' → R σ σ'.

(** A well-formed registry stays well-formed. *)
Definition keeps_registry_wf (σ σ' : state) : Prop :=
  registry_wf σ → registry_wf σ'.

(** The context nodes are as they were. *)
Definition same_ctx (σ σ' : state) : Prop :=
  ctx_heap σ' = ctx_heap σ.

(** The registry and the groups are as they were. *)
Definition same_groups (σ σ' : state) : Prop :=
  Groups σ' = Groups σ ∧ group_heap σ' = group_heap σ.

(** Every group allocated afterwards was allocated before, at the same
    location, with the same value of [f]; and the registry has no entry
    it did not have. *)
Definition survivors_keep {B} (f : Group.t → B) (σ σ' : state) : Prop :=
  (∀ l G', group_heap σ' !! l = Some G' →
     ∃ G, group_heap σ !! l = Some G ∧ f G = f G') ∧
  Groups σ' ⊆ Groups σ.

(** No group is freed and the registry is as it was. *)
Definition nothing_destroyed (σ σ' : state) : Prop :=
  Groups σ' = Groups σ ∧
  ∀ l, is_Some (group_heap σ !! l) → is_Some (group_heap σ' !! l).

(** No group is made, and a registry entry outlives the call exactly when
    its group does: every entry whose group is still allocated afterwards
    is still there, and there are no others. *)
Definition unregisters_only_freed (σ σ' : state) : Prop :=
  survivors_keep Group.name σ σ' ∧
  ∀ n l, Groups σ !! n = Some l → is_Some (group_heap σ' !! l) →
         Groups σ' !! n = Some l.

(** [G] after [group_add_addrlist] with a non-empty list [a]. *)
Definition add_addresses `{AddressLib} (a : list Address.t) (G : Group.t)
    : Group.t :=
  Group.mk (Group.name G)
           (Group.as_ G ++
              mutt_remove_xrefs (Group.as_ G) (mutt_addr_copy_list a))
           (Group.rs G).

(** [G] after [group_add_regex] with a pattern that compiles. *)
Definition add_pattern (s : string) (flags : Z) (G : Group.t) : Group.t :=
  Group.mk (Group.name G) (Group.as_ G) (Group.rs G ++ [Regex.mk s flags]).

(** The registry afterwards is the registry before, cut down to the
    groups that are still allocated. *)
Definition registry_restricted (σ σ' : state) : Prop :=
  ∀ n l, Groups σ' !! n = Some l ↔
         Groups σ !! n = Some l ∧ is_Some (group_heap σ' !! l).

(** Every allocated group is registered under its own name. *)
Definition registry_complete (σ : state) : Prop :=
  ∀ l G, group_heap σ !! l = Some G → Groups σ !! Group.name G = Some l.

(** The registry and the heap of groups describe each other. *)
Definition registry_consistent (σ : state) : Prop :=
  registry_wf σ ∧ registry_complete σ.

Definition keeps_registry_consistent (σ σ' : state) : Prop :=
  registry_consistent σ → registry_consistent σ'.

(** One call of a public function of [group.c] that returns. *)
Definition public_call `{RegexEngine} `{AddressLib} (σ σ' : state) : Prop :=
  (∃ k p, mutt_pattern_group k σ = Ok p σ') ∨
  (∃ fuel ctx r, mutt_group_context_clear fuel ctx σ = Ok r σ') ∨
  (∃ fuel ctx group r, mutt_group_context_add fuel ctx group σ = Ok r σ') ∨
  (∃ fuel ctx r, mutt_group_context_destroy fuel ctx σ = Ok r σ') ∨
  (∃ fuel ctx a r, mutt_group_context_add_addrlist fuel ctx a σ = Ok r σ') ∨
  (∃ fuel ctx a r, mutt_group_context_remove_addrlist fuel ctx a σ = Ok r σ') ∨
  (∃ fuel ctx s flags err r,
     mutt_group_context_add_regex fuel ctx s flags err σ = Ok r σ') ∨
  (∃ fuel ctx s r, mutt_group_context_remove_regex fuel ctx s σ = Ok r σ') ∨
  (∃ g s r, mutt_group_match g s σ = Ok r σ').

(** The states a program reaches from the empty state by such calls. *)
Inductive reachable `{RegexEngine} `{AddressLib} : state → Prop :=
| reachable_init : reachable (mkState ∅ ∅ ∅)
| reachable_call σ σ' : reachable σ → public_call σ σ' → reachable σ'.

(** ** Proof tools *)

Ltac munfold :=
  unfold mbind, M_bind, bind, mret, M_ret, ret, fault, timeout in *.

Lemma load_group_live σ l G :
  group_heap σ !! l = Some G → load_group (Some l) σ = Ok G σ.
Proof. intros E. unfold load_group. by rewrite E. Qed.

Lemma load_ctx_live σ l n :
  ctx_heap σ !! l = Some n → load_ctx l σ = Ok n σ.
Proof. intros E. unfold load_ctx. by rewrite E. Qed.

Lemma ctx_g_live σ l n :
  ctx_heap σ !! l = Some n → ctx_g l σ = Ok (GroupContext.g n) σ.
Proof. intros E. unfold ctx_g. munfold. by rewrite (load_ctx_live _ _ _ E). Qed.

Lemma ctx_next_live σ l n :
  ctx_heap σ !! l = Some n → ctx_next l σ = Ok (GroupContext.next n) σ.
Proof. intros E. unfold ctx_next. munfold. by rewrite (load_ctx_live _ _ _ E). Qed.

Lemma registry_wf_empty : registry_wf (mkState ∅ ∅ ∅).
Proof. intros n l E. simpl in E. by rewrite lookup_empty in E. Qed.

Lemma group_remove_null σ : group_remove None σ = Ok tt σ.
Proof. reflexivity. Qed.

Lemma group_remove_live σ l G :
  group_heap σ !! l = Some G →
  group_remove (Some l) σ = Ok tt (group_remove_state l G σ).
Proof.
  intros E. unfold group_remove. munfold.
  rewrite (load_group_live _ _ _ E).
  unfold mutt_hash_delete, group_remove_state.
  destruct (decide (Groups σ !! Group.name G = Some l)); unfold free_group; simpl;
    by rewrite E.
Qed.

Lemma group_remove_state_wf σ l G :
  registry_wf σ → group_heap σ !! l = Some G →
  registry_wf (group_remove_state l G σ).
Proof.
  intros W E n l' En. unfold group_remove_state in *. simpl in *.
  assert (Groups σ !! n = Some l' ∧ (l' = l → False)) as [En' Hne].
  { destruct (decide (Groups σ !! Group.name G = Some l)) as [Hd|Hd].
    - apply lookup_delete_Some in En as [Hn En]. split; [done|].
      intros ->. destruct (W _ _ En) as (G' & EG' & HG'). congruence.
    - split; [done|]. intros ->.
      destruct (W _ _ En) as (G' & EG' & HG'). congruence. }
  destruct (W _ _ En') as (G' & EG' & HG').
  exists G'. split; [|done]. rewrite lookup_delete_ne; [done|]. congruence.
Qed.

(** ** The registry: [mutt_pattern_group] *)

Lemma mutt_pattern_group_found σ n l :
  Groups σ !! n = Some l → mutt_pattern_group (Some n) σ = Ok (Some l) σ.
Proof.
  intros E. unfold mutt_pattern_group, mutt_hash_find. munfold. by rewrite E.
Qed.

Lemma fresh_group_unallocated σ :
  group_heap σ !! fresh (dom (group_heap σ)) = None.
Proof. apply not_elem_of_dom, is_fresh. Qed.

Lemma mutt_pattern_group_new σ n :
  Groups σ !! n = None →
  mutt_pattern_group (Some n) σ =
    let l := fresh (dom (group_heap σ)) in
    Ok (Some l) (mkState (<[n:=l]> (Groups σ))
                         (<[l:=Group.mk n [] []]> (group_heap σ)) (ctx_heap σ)).
Proof.
  intros E. unfold mutt_pattern_group, mutt_hash_find. munfold. by rewrite E.
Qed.

Lemma mutt_pattern_group_spec σ n :
  registry_wf σ →
  ∃ l σ', mutt_pattern_group (Some n) σ = Ok (Some l) σ' ∧
          registry_wf σ' ∧
          Groups σ' !! n = Some l ∧
          (∀ n' l', Groups σ !! n' = Some l' → Groups σ' !! n' = Some l').
Proof.
  intros W. destruct (Groups σ !! n) as [l|] eqn:E.
  - exists l, σ. by rewrite (mutt_pattern_group_found _ _ _ E).
  - rewrite (mutt_pattern_group_new _ _ E). cbv zeta.
    set (l := fresh (dom (group_heap σ))).
    assert (Hl : group_heap σ !! l = None) by apply fresh_group_unallocated.
    eexists _, _. split; [reflexivity|]. simpl. split; [|split].
    + intros n' l' E'. simpl in E'.
      destruct (decide (n = n')) as [->|Hn].
      * rewrite lookup_insert_eq in E'. injection E' as <-.
        exists (Group.mk n' [] []). simpl. by rewrite lookup_insert_eq.
      * rewrite lookup_insert_ne in E' by done.
        destruct (W _ _ E') as (G & EG & HG). exists G. split; [|done].
        simpl. rewrite lookup_insert_ne; [done|]. congruence.
    + by rewrite lookup_insert_eq.
    + intros n' l' E'. rewrite lookup_insert_ne; [done|]. congruence.
Qed.

(** C4.  In a well-formed registry, resolving a name [n] yields a group
    [l]; resolving [n] again yields the same [l] and changes nothing.  The
    first call allocates and inserts exactly when [n] was not registered,
    and then at a location that was free.  Resolving a different name
    afterwards yields a different group, and [n] still resolves to [l]. *)
Theorem mutt_pattern_group_idempotent (σ : state) (n : string) :
  registry_wf σ →
  ∃ l σ1,
    mutt_pattern_group (Some n) σ = Ok (Some l) σ1 ∧
    mutt_pattern_group (Some n) σ1 = Ok (Some l) σ1 ∧
    match Groups σ !! n with
    | Some l0 => l = l0 ∧ σ1 = σ
    | None =>
        group_heap σ !! l = None ∧
        σ1 = mkState (<[n:=l]> (Groups σ))
                     (<[l:=Group.mk n [] []]> (group_heap σ)) (ctx_heap σ)
    end ∧
    ∀ n2, n2 ≠ n →
      ∃ l2 σ2, mutt_pattern_group (Some n2) σ1 = Ok (Some l2) σ2 ∧
               l2 ≠ l ∧
               mutt_pattern_group (Some n) σ2 = Ok (Some l) σ2.
Proof.
  intros W.
  destruct (mutt_pattern_group_spec σ n W) as (l & σ1 & E1 & W1 & R1 & K1).
  exists l, σ1. split; [done|]. split; [by apply mutt_pattern_group_found|].
  split.
  - destruct (Groups σ !! n) as [l0|] eqn:E.
    + rewrite (mutt_pattern_group_found _ _ _ E) in E1. by injection E1 as <- <-.
    + rewrite (mutt_pattern_group_new _ _ E) in E1. cbv zeta in E1.
      injection E1 as <- <-. split; [apply fresh_group_unallocated|done].
  - intros n2 Hn.
    destruct (mutt_pattern_group_spec σ1 n2 W1) as (l2 & σ2 & E2 & W2 & R2 & K2).
    exists l2, σ2. split; [done|]. split.
    + intros ->. apply K2 in R1.
      destruct (W2 _ _ R1) as (G & EG & HG).
      destruct (W2 _ _ R2) as (G' & EG' & HG'). congruence.
    + apply mutt_pattern_group_found. by apply K2.
Qed.

Lemma mutt_pattern_group_idempotent_witness :
  registry_wf (mkState ∅ ∅ ∅) ∧
  ∃ l σ1,
    mutt_pattern_group (Some "team"%string) (mkState ∅ ∅ ∅) = Ok (Some l) σ1 ∧
    mutt_pattern_group (Some "team"%string) σ1 = Ok (Some l) σ1.
Proof.
  split; [apply registry_wf_empty|].
  destruct (mutt_pattern_group_idempotent (mkState ∅ ∅ ∅) "team"
              registry_wf_empty) as (l & σ1 & E1 & E2 & _).
  by exists l, σ1.
Defined.

(** ** Context lists in the heap *)

Lemma lookup_delete_all {A} (ls : list loc) (h : gmap loc A) (l : loc) :
  delete_all ls h !! l = if decide (l ∈ ls) then None else h !! l.
Proof.
  unfold delete_all. revert h. induction ls as [|x ls IH]; intros h.
  - case_decide as Hin; [by apply elem_of_nil in Hin|done].
  - cbn [foldl]. rewrite IH.
    destruct (decide (l ∈ ls)) as [Hin|Hin].
    + rewrite decide_True; [done|by right].
    + destruct (decide (l = x)) as [->|Hne].
      * rewrite lookup_delete_eq, decide_True; [done|by left].
      * rewrite lookup_delete_ne by done.
        rewrite decide_False; [done|]. by intros [?|?]%elem_of_cons.
Qed.

Lemma is_ctx_frame h h' p ns :
  (∀ l, l ∈ ns.*1 → h' !! l = h !! l) → is_ctx h p ns → is_ctx h' p ns.
Proof.
  revert h h' p. induction ns as [|[l g] ns IH]; intros h h' p Hf; simpl; [done|].
  intros [-> (nx & El & Hr)]. split; [done|]. exists nx. split.
  - rewrite Hf; [done|]. simpl. by left.
  - apply (IH (delete l h)); [|done]. intros x Hx.
    destruct (decide (x = l)) as [->|Hne].
    + by rewrite !lookup_delete_eq.
    + rewrite !lookup_delete_ne by done. apply Hf. simpl. by right.
Qed.

Lemma is_ctx_mono h h' p ns : h ⊆ h' → is_ctx h p ns → is_ctx h' p ns.
Proof.
  revert h h' p. induction ns as [|[l g] ns IH]; intros h h' p Hs; simpl; [done|].
  intros [-> (nx & El & Hr)]. split; [done|]. exists nx. split.
  - by eapply lookup_weaken.
  - apply (IH (delete l h)); [|done]. by apply delete_mono.
Qed.

Lemma is_ctx_nodes_alloc h p ns l :
  is_ctx h p ns → l ∈ ns.*1 → is_Some (h !! l).
Proof.
  revert h p. induction ns as [|[x g] ns IH]; intros h p; simpl.
  - intros _ Hin. by apply elem_of_nil in Hin.
  - intros [-> (nx & El & Hr)] [->|Hin]%elem_of_cons; [by eexists|].
    destruct (IH _ _ Hr Hin) as [n En].
    apply lookup_delete_Some in En as [_ En]. by eexists.
Qed.

Lemma is_ctx_not_deleted h p ns l : is_ctx (delete l h) p ns → l ∉ ns.*1.
Proof.
  intros Hc Hin. destruct (is_ctx_nodes_alloc _ _ _ _ Hc Hin) as [n En].
  by rewrite lookup_delete_eq in En.
Qed.

Lemma is_ctx_nodes_NoDup h p ns : is_ctx h p ns → NoDup ns.*1.
Proof.
  revert h p. induction ns as [|[x g] ns IH]; intros h p; simpl.
  - intros _. constructor.
  - intros [-> (nx & El & Hr)]. constructor; [|by eapply IH].
    by eapply is_ctx_not_deleted.
Qed.

(** ** [mutt_group_context_destroy] *)

Lemma mutt_group_context_destroy_loop_spec ns :
  ∀ fuel root σ,
    is_ctx (ctx_heap σ) root ns → (length ns ≤ fuel)%nat →
    mutt_group_context_destroy_loop fuel root σ =
      Ok None (mkState (Groups σ) (group_heap σ)
                       (delete_all ns.*1 (ctx_heap σ))).
Proof.
  induction ns as [|[l g] ns IH]; intros fuel root σ Hc Hf; simpl in Hc.
  - subst root. destruct fuel, σ; reflexivity.
  - destruct Hc as [-> (nx & El & Hr)].
    destruct fuel as [|fuel]; [simpl in Hf; lia|].
    simpl. munfold. rewrite (ctx_next_live _ _ _ El). simpl.
    unfold free_ctx at 1. rewrite El.
    rewrite IH; [done|done|simpl in *; lia].
Qed.

(** C9.  [mutt_group_context_destroy] on a context list frees the nodes of
    that list and nothing else: the registry and every group (name,
    addresses, patterns) are as before, other context nodes are untouched,
    and the caller's pointer is left null. *)
Theorem mutt_group_context_destroy_frame
    (fuel : nat) (root : ptr) (ns : list (loc * ptr)) (σ : state) :
  is_ctx (ctx_heap σ) root ns → (length ns ≤ fuel)%nat →
  ∃ σ',
    mutt_group_context_destroy fuel (Some root) σ = Ok None σ' ∧
    Groups σ' = Groups σ ∧
    group_heap σ' = group_heap σ ∧
    (∀ l, l ∈ ns.*1 → ctx_heap σ' !! l = None) ∧
    (∀ l, l ∉ ns.*1 → ctx_heap σ' !! l = ctx_heap σ !! l).
Proof.
  intros Hc Hf. eexists. split.
  - simpl. by apply mutt_group_context_destroy_loop_spec.
  - simpl. repeat split; intros l Hl; rewrite lookup_delete_all.
    + by rewrite decide_True.
    + by rewrite decide_False.
Qed.

Lemma sample_state_wf : registry_wf sample_state.
Proof.
  intros n l E. unfold sample_state in *. simpl in *.
  destruct (decide (n = "team"%string)) as [->|H1].
  { rewrite lookup_insert_eq in E. injection E as <-. by eexists. }
  rewrite lookup_insert_ne in E by done.
  destruct (decide (n = "vip"%string)) as [->|H2].
  { rewrite lookup_insert_eq in E. injection E as <-. by eexists. }
  rewrite lookup_insert_ne in E by done. by rewrite lookup_empty in E.
Qed.

Lemma sample_ctx_is_ctx :
  is_ctx (ctx_heap sample_state) (Some 1%positive) sample_ctx.
Proof.
  simpl. split; [done|]. eexists. split; [reflexivity|].
  split; [done|]. eexists. split; [reflexivity|done].
Qed.

Lemma mutt_group_context_destroy_frame_witness :
  is_ctx (ctx_heap sample_state) (Some 1%positive) sample_ctx ∧
  (length sample_ctx ≤ 2)%nat ∧
  ∃ σ',
    mutt_group_context_destroy 2 (Some (Some 1%positive)) sample_state
      = Ok None σ' ∧
    Groups σ' = Groups sample_state ∧
    group_heap σ' = group_heap sample_state.
Proof.
  split; [apply sample_ctx_is_ctx|]. split; [simpl; lia|].
  destruct (mutt_group_context_destroy_frame 2 (Some 1%positive) sample_ctx
              sample_state sample_ctx_is_ctx)
    as (σ' & E & HG & Hh & _); [simpl; lia|].
  by exists σ'.
Defined.

(** ** [group_remove] and [mutt_group_context_clear] *)

Lemma registry_points_to_live σ n l :
  registry_wf σ → Groups σ !! n = Some l → is_Some (group_heap σ !! l).
Proof. intros W E. destruct (W _ _ E) as (G & EG & _). by eexists. Qed.

Lemma group_remove_state_registry l G σ n l' :
  Groups (group_remove_state l G σ) !! n = Some l' → Groups σ !! n = Some l'.
Proof.
  unfold group_remove_state. simpl. case_decide; [|done].
  by intros [_ ?]%lookup_delete_Some.
Qed.

Lemma group_locs_cons_Some l gl ns :
  group_locs ((l, Some gl) :: ns) = gl :: group_locs ns.
Proof. reflexivity. Qed.

Lemma mutt_group_context_clear_loop_spec ns :
  ∀ fuel p σ,
    is_ctx (ctx_heap σ) p ns →
    NoDup (group_locs ns) →
    (∀ l, l ∈ group_locs ns → is_Some (group_heap σ !! l)) →
    (length ns ≤ fuel)%nat →
    ∃ σ',
      mutt_group_context_clear_loop fuel p σ = Ok None σ' ∧
      group_heap σ' = delete_all (group_locs ns) (group_heap σ) ∧
      ctx_heap σ' = delete_all ns.*1 (ctx_heap σ) ∧
      (∀ n l, Groups σ' !! n = Some l → Groups σ !! n = Some l) ∧
      (registry_wf σ → registry_wf σ').
Proof.
  induction ns as [|[l g] ns IH]; intros fuel p σ Hc Hnd Hlive Hf; simpl in Hc.
  - subst p. exists σ. destruct fuel; simpl; done.
  - destruct Hc as [-> (nx & El & Hr)].
    destruct fuel as [|fuel]; [simpl in Hf; lia|].
    assert (Hf' : (length ns ≤ fuel)%nat) by (simpl in Hf; lia).
    simpl. munfold. rewrite (ctx_g_live _ _ _ El). simpl.
    destruct g as [gl|].
    + rewrite group_locs_cons_Some in Hnd, Hlive.
      apply NoDup_cons in Hnd as [Hgl Hnd].
      destruct (Hlive gl) as [G EG]; [by left|].
      rewrite (group_remove_live _ _ _ EG).
      set (σ1 := group_remove_state gl G σ).
      assert (El1 : ctx_heap σ1 !! l = Some (GroupContext.mk (Some gl) nx)) by done.
      rewrite (ctx_next_live _ _ _ El1). simpl.
      unfold free_ctx at 1. rewrite El1.
      destruct (IH fuel nx
                  (mkState (Groups σ1) (group_heap σ1) (delete l (ctx_heap σ1))))
        as (σ' & E & Hg & Hcx & Hreg & Hwf); [done|done| |done|].
      { intros x Hx. unfold σ1. simpl. rewrite lookup_delete_ne; [|by intros ->].
        apply Hlive. by right. }
      exists σ'. split; [done|]. split; [done|]. split; [done|]. split.
      * intros n x Hn. apply Hreg in Hn.
        apply (group_remove_state_registry gl G σ). exact Hn.
      * intros W. apply Hwf.
        pose proof (group_remove_state_wf _ _ _ W EG) as W1.
        intros n x Hn. by apply W1.
    + rewrite group_remove_null, (ctx_next_live _ _ _ El). simpl.
      unfold free_ctx at 1. rewrite El.
      destruct (IH fuel nx
                  (mkState (Groups σ) (group_heap σ) (delete l (ctx_heap σ))))
        as (σ' & E & Hg & Hcx & Hreg & Hwf); [done|done|done|done|].
      exists σ'. split; [done|]. split; [done|]. split; [done|]. split; [done|].
      intros W. apply Hwf. intros n x Hn. by apply W.
Qed.

Lemma mutt_group_context_clear_status fuel ctx σ rc p σ' :
  mutt_group_context_clear fuel ctx σ = Ok (rc, p) σ' → rc = 0.
Proof.
  unfold mutt_group_context_clear. destruct ctx as [r|]; munfold.
  - destruct (mutt_group_context_clear_loop fuel r σ); [|done|done].
    by intros [= <- _ _].
  - by intros [= <- _ _].
Qed.

(** C7, as the code has it.  [mutt_group_context_clear] returns 0
    whenever it returns, also for a null argument, which it leaves alone.
    On a context list whose group pointers are null or distinct allocated
    groups it does return: every group of the list is freed and no
    registry entry points to it any more, every node of the list is freed,
    and the caller's pointer is left null.  [group_remove] of a null
    pointer does nothing, and of an allocated group it always succeeds and
    frees the group.  It is not idempotent on a pointer that is not null:
    after [group_remove] of a group, a second [group_remove] of the same
    pointer reads freed memory, and so does [mutt_group_context_clear] on
    a list whose first node refers to a group that is no longer
    allocated. *)
Theorem mutt_group_context_clear_total
    (fuel : nat) (root : ptr) (ns : list (loc * ptr)) (σ : state) :
  registry_wf σ →
  is_ctx (ctx_heap σ) root ns →
  NoDup (group_locs ns) →
  (∀ l, l ∈ group_locs ns → is_Some (group_heap σ !! l)) →
  (length ns ≤ fuel)%nat →
  (∀ f c τ rc p τ', mutt_group_context_clear f c τ = Ok (rc, p) τ' → rc = 0) ∧
  mutt_group_context_clear fuel None σ = Ok (0, None) σ ∧
  (∃ σ',
     mutt_group_context_clear fuel (Some root) σ = Ok (0, Some None) σ' ∧
     (∀ l, l ∈ group_locs ns →
        group_heap σ' !! l = None ∧ ∀ n, Groups σ' !! n ≠ Some l) ∧
     (∀ l, l ∈ ns.*1 → ctx_heap σ' !! l = None)) ∧
  (∀ τ, group_remove None τ = Ok tt τ) ∧
  (∀ τ l, is_Some (group_heap τ !! l) →
     ∃ τ', group_remove (Some l) τ = Ok tt τ' ∧ group_heap τ' !! l = None) ∧
  (∀ τ l τ', group_remove (Some l) τ = Ok tt τ' →
     group_remove (Some l) τ' = Fault) ∧
  (∀ f τ n0 l nx,
     ctx_heap τ !! n0 = Some (GroupContext.mk (Some l) nx) →
     group_heap τ !! l = None →
     mutt_group_context_clear (S f) (Some (Some n0)) τ = Fault).
Proof.
  intros W Hc Hnd Hlive Hf.
  assert (Hfreed : ∀ τ l, group_heap τ !! l = None →
            group_remove (Some l) τ = Fault).
  { intros τ l E. unfold group_remove, load_group. munfold. by rewrite E. }
  split; [intros *; apply mutt_group_context_clear_status|].
  split; [done|]. split; [|split; [|split; [|split]]].
  - destruct (mutt_group_context_clear_loop_spec ns fuel root σ)
      as (σ' & E & Hg & Hcx & Hreg & Hwf); try done.
    exists σ'. split; [|split].
    + unfold mutt_group_context_clear. munfold. by rewrite E.
    + intros l Hl.
      assert (Hfree : group_heap σ' !! l = None).
      { rewrite Hg, lookup_delete_all. by rewrite decide_True. }
      split; [done|]. intros n Hn.
      destruct (registry_points_to_live _ _ _ (Hwf W) Hn) as [G EG]. congruence.
    + intros l Hl. rewrite Hcx, lookup_delete_all. by rewrite decide_True.
  - done.
  - intros τ l [G EG]. eexists. split; [by apply group_remove_live|].
    simpl. apply lookup_delete_eq.
  - intros τ l τ' E. apply Hfreed.
    destruct (group_heap τ !! l) as [G|] eqn:EG.
    + rewrite (group_remove_live _ _ _ EG) in E. injection E as <-.
      simpl. apply lookup_delete_eq.
    + by rewrite (Hfreed _ _ EG) in E.
  - intros f τ n0 l nx En0 El. unfold mutt_group_context_clear.
    cbn [mutt_group_context_clear_loop]. munfold.
    rewrite (ctx_g_live _ _ _ En0). cbn [GroupContext.g].
    by rewrite (Hfreed _ _ El).
Qed.

Lemma sample_ctx_groups_NoDup : NoDup (group_locs sample_ctx).
Proof.
  unfold sample_ctx. rewrite !group_locs_cons_Some.
  apply NoDup_cons. split; [|apply NoDup_singleton].
  intros [=]%list_elem_of_singleton.
Qed.

Lemma sample_ctx_groups_live l :
  l ∈ group_locs sample_ctx → is_Some (group_heap sample_state !! l).
Proof.
  unfold sample_ctx. rewrite !group_locs_cons_Some.
  intros [->|[->|Hl]%elem_of_cons]%elem_of_cons; [by eexists|by eexists|].
  by apply elem_of_nil in Hl.
Qed.

Lemma mutt_group_context_clear_total_witness :
  registry_wf sample_state ∧
  is_ctx (ctx_heap sample_state) (Some 1%positive) sample_ctx ∧
  NoDup (group_locs sample_ctx) ∧
  (length sample_ctx ≤ 2)%nat ∧
  ∃ σ', mutt_group_context_clear 2 (Some (Some 1%positive)) sample_state
          = Ok (0, Some None) σ' ∧
        group_heap σ' !! 1%positive = None ∧
        group_heap σ' !! 2%positive = None.
Proof.
  split; [apply sample_state_wf|]. split; [apply sample_ctx_is_ctx|].
  split; [apply sample_ctx_groups_NoDup|]. split; [simpl; lia|].
  destruct (mutt_group_context_clear_total 2 (Some 1%positive) sample_ctx
              sample_state sample_state_wf sample_ctx_is_ctx
              sample_ctx_groups_NoDup sample_ctx_groups_live)
    as (_ & _ & (σ' & E & Hg & _) & _); [simpl; lia|].
  exists σ'. split; [done|]. split.
  - apply (Hg 1%positive). unfold sample_ctx. rewrite group_locs_cons_Some. by left.
  - apply (Hg 2%positive). unfold sample_ctx. rewrite !group_locs_cons_Some.
    right. by left.
Defined.

(** C7 as stated fails.  On [sample_state],
    [mutt_group_context_remove_addrlist] with [[alice]] returns 0 and
    destroys ["team"]; [mutt_group_context_clear] on the same context then
    follows the pointer to the freed group and does not return 0.  It
    does not return either on the list of [repeated_group_state], whose
    two nodes refer to one group: the second round finds the group freed
    by the first.  And [group_remove] is not idempotent: called twice on
    the pointer to ["team"], the second call reads the freed group. *)
Lemma mutt_group_context_clear_use_after_free :
  (∃ σ1,
     mutt_group_context_remove_addrlist 2 (Some 1%positive) [alice] sample_state
       = Ok 0 σ1 ∧
     is_ctx (ctx_heap σ1) (Some 1%positive) sample_ctx ∧
     mutt_group_context_clear 2 (Some (Some 1%positive)) σ1 = Fault) ∧
  registry_wf repeated_group_state ∧
  is_ctx (ctx_heap repeated_group_state) (Some 1%positive)
         [(1%positive, Some 1%positive); (2%positive, Some 1%positive)] ∧
  mutt_group_context_clear 2 (Some (Some 1%positive)) repeated_group_state
    = Fault ∧
  (∃ σ1,
     group_remove (Some 1%positive) sample_state = Ok tt σ1 ∧
     group_remove (Some 1%positive) σ1 = Fault).
Proof.
  split.
  { eexists. split; [by vm_compute|]. split; [|by vm_compute].
    simpl. split; [done|]. eexists. split; [reflexivity|].
    split; [done|]. eexists. split; [reflexivity|done]. }
  split.
  { intros n l E. unfold repeated_group_state in E. simpl in E.
    apply lookup_insert_Some in E as [[<- <-]|[_ E]]; [|done].
    by eexists. }
  split.
  { simpl. split; [done|]. eexists. split; [reflexivity|].
    split; [done|]. eexists. split; [reflexivity|done]. }
  split; [by vm_compute|].
  eexists. split; by vm_compute.
Qed.

(** ** [mutt_group_context_add] *)

Lemma store_ctx_live σ l n0 n :
  ctx_heap σ !! l = Some n0 →
  store_ctx l n σ =
    Ok tt (mkState (Groups σ) (group_heap σ) (<[l:=n]> (ctx_heap σ))).
Proof. intros E. unfold store_ctx. by rewrite E. Qed.

Lemma fresh_ctx_unallocated (h : gmap loc GroupContext.t) :
  h !! fresh (dom h) = None.
Proof. apply not_elem_of_dom, is_fresh. Qed.

Lemma cell_holds_read σ root c g0 p :
  cell_holds (ctx_heap σ) root c g0 p → read_cell root c σ = Ok p σ.
Proof.
  destruct c as [|l0]; simpl.
  - by intros ->.
  - intros E. by rewrite (ctx_next_live _ _ _ E).
Qed.

Lemma mutt_group_context_add_loop_found group ns :
  ∀ fuel root c g0 p σ,
    cell_holds (ctx_heap σ) root c g0 p →
    is_ctx (cell_rest (ctx_heap σ) c) p ns →
    (length ns ≤ fuel)%nat →
    group ∈ ns.*2 →
    mutt_group_context_add_loop fuel root c group σ = Ok root σ.
Proof.
  induction ns as [|[l g] ns IH]; intros fuel root c g0 p σ Hcell Hc Hf Hin.
  - by apply elem_of_nil in Hin.
  - simpl in Hc. destruct Hc as [-> (nx & El & Hr)].
    assert (El' : ctx_heap σ !! l = Some (GroupContext.mk g nx)).
    { destruct c; simpl in El; [done|].
      by apply lookup_delete_Some in El as [_ ?]. }
    destruct fuel as [|fuel]; [simpl in Hf; lia|].
    simpl. munfold. rewrite (cell_holds_read _ _ _ _ _ Hcell).
    rewrite (ctx_g_live _ _ _ El'). simpl.
    destruct (decide (g = group)) as [Hg|Hg]; [done|].
    apply (IH fuel root (NextOf l) g nx σ); [done| |simpl in Hf; lia|].
    + simpl. eapply is_ctx_mono; [|exact Hr]. apply delete_mono.
      destruct c; simpl; [done|apply delete_subseteq].
    + simpl in Hin. by apply elem_of_cons in Hin as [?|?].
Qed.
Lemma mutt_group_context_add_loop_append group ns :
  ∀ fuel root c g0 p σ,
    cell_holds (ctx_heap σ) root c g0 p →
    is_ctx (cell_rest (ctx_heap σ) c) p ns →
    (length ns ≤ fuel)%nat →
    group ∉ ns.*2 →
    ∃ root' p' σ',
      mutt_group_context_add_loop fuel root c group σ = Ok root' σ' ∧
      Groups σ' = Groups σ ∧
      group_heap σ' = group_heap σ ∧
      cell_holds (ctx_heap σ') root' c g0 p' ∧
      (c ≠ Var → root' = root) ∧
      is_ctx (cell_rest (ctx_heap σ') c) p'
             (ns ++ [(fresh (dom (ctx_heap σ)), group)]) ∧
      (∀ x, x ∉ ns.*1 → x ≠ fresh (dom (ctx_heap σ)) → c ≠ NextOf x →
            ctx_heap σ' !! x = ctx_heap σ !! x).
Proof.
  induction ns as [|[l g] ns IH]; intros fuel root c g0 p σ Hcell Hc Hf Hin.
  - simpl in Hc. subst p.
    pose proof (fresh_ctx_unallocated (ctx_heap σ)) as Hnew.
    set (lnew := fresh (dom (ctx_heap σ))) in *.
    assert (Hstep : mutt_group_context_add_loop fuel root c group σ =
      (l ← calloc_ctx;
       root ← write_cell root c (Some l);
       p ← read_cell root c;
       match p with
       | None => fault
       | Some l' =>
           n ← load_ctx l';
           store_ctx l' (GroupContext.mk group (GroupContext.next n));;
           mret root
       end) σ).
    { destruct fuel; simpl; munfold; by rewrite (cell_holds_read _ _ _ _ _ Hcell). }
    rewrite Hstep. clear Hstep. munfold. unfold calloc_ctx. fold lnew.
    destruct c as [|l0]; simpl in *.
    + subst root. eexists _, (Some lnew), _. split.
      { unfold load_ctx. simpl. rewrite lookup_insert_eq.
        unfold store_ctx. simpl. rewrite lookup_insert_eq. reflexivity. }
      simpl. repeat split; try done.
      * eexists. split; [by rewrite lookup_insert_eq|done].
      * intros x _ Hx _. by rewrite !lookup_insert_ne.
    + assert (Hne : lnew ≠ l0) by (intros E; rewrite E in Hnew; congruence).
      eexists _, (Some lnew), _. split.
      { munfold. unfold load_ctx at 1. simpl.
        rewrite lookup_insert_ne, Hcell by done.
        unfold store_ctx at 1. simpl. rewrite lookup_insert_ne, Hcell by done.
        unfold ctx_next, load_ctx at 1. munfold. simpl.
        rewrite lookup_insert_eq. simpl.
        unfold load_ctx. simpl.
        rewrite lookup_insert_ne, lookup_insert_eq by done.
        unfold store_ctx. simpl.
        rewrite lookup_insert_ne, lookup_insert_eq by done. reflexivity. }
      simpl. repeat split; try done.
      * by rewrite lookup_insert_ne, lookup_insert_eq.
      * eexists. split; [|done].
        rewrite lookup_delete_ne by done. by rewrite lookup_insert_eq.
      * intros x _ Hx Hx0.
        rewrite lookup_insert_ne by done.
        rewrite lookup_insert_ne by congruence.
        by rewrite lookup_insert_ne.
  - simpl in Hc. destruct Hc as [-> (nx & El & Hr)].
    assert (El' : ctx_heap σ !! l = Some (GroupContext.mk g nx)).
    { destruct c; simpl in El; [done|].
      by apply lookup_delete_Some in El as [_ ?]. }
    destruct fuel as [|fuel]; [simpl in Hf; lia|].
    simpl. munfold. rewrite (cell_holds_read _ _ _ _ _ Hcell).
    rewrite (ctx_g_live _ _ _ El'). simpl.
    assert (Hg : g ≠ group).
    { intros ->. apply Hin. simpl. by left. }
    rewrite decide_False by done.
    destruct (IH fuel root (NextOf l) g nx σ)
      as (root' & p' & σ' & E & HG & Hh & Hcell' & Hroot & Hc' & Hfr);
      [done| |simpl in Hf; lia| |].
    { simpl. eapply is_ctx_mono; [|exact Hr]. apply delete_mono.
      destruct c; simpl; [done|apply delete_subseteq]. }
    { intros Hin'. apply Hin. simpl. by right. }
    simpl in Hcell', Hc'. specialize (Hroot ltac:(done)). subst root'.
    set (lnew := fresh (dom (ctx_heap σ))) in *.
    assert (Hnew : ctx_heap σ !! lnew = None) by apply fresh_ctx_unallocated.
    exists root, (Some l), σ'. split; [done|]. split; [done|]. split; [done|].
    destruct c as [|l0]; simpl in *.
    + split; [done|]. split; [done|]. split.
      * split; [done|]. by exists p'.
      * intros x Hx Hxn _. apply Hfr; [|done|].
        -- intros Hx'. apply Hx. by right.
        -- intros [= ->]. apply Hx. by left.
    + assert (Hl0 : l0 ≠ l) by (intros ->; by rewrite lookup_delete_eq in El).
      assert (Hl0n : l0 ∉ ns.*1).
      { intros Hx. destruct (is_ctx_nodes_alloc _ _ _ _ Hr Hx) as [n En].
        apply lookup_delete_Some in En as [_ En].
        by rewrite lookup_delete_eq in En. }
      assert (Hl0new : l0 ≠ lnew) by (intros E0; rewrite E0 in Hcell; congruence).
      split; [|split; [done|split]].
      * rewrite Hfr; [done|done|done|congruence].
      * split; [done|]. exists p'. split.
        -- by rewrite lookup_delete_ne.
        -- eapply is_ctx_frame; [|exact Hc'].
           intros x Hx. rewrite fmap_app in Hx. simpl in Hx.
           assert (x ≠ l0).
           { intros ->. apply elem_of_app in Hx as [Hx|Hx]; [done|].
             by apply list_elem_of_singleton in Hx. }
           destruct (decide (x = l)) as [->|Hxl].
           ++ by rewrite !lookup_delete_eq.
           ++ rewrite !lookup_delete_ne by done. done.
      * intros x Hx Hxn Hx0. apply Hfr; [|done|].
        -- intros Hx'. apply Hx. by right.
        -- intros [= ->]. apply Hx. by left.
Qed.

(** C5.  On a context list [ns], [mutt_group_context_add] of a group
    pointer that some node already carries (compared as a pointer, a null
    pointer included) returns with the state and the caller's pointer
    unchanged.  Otherwise it allocates one node at a free location and
    links it after the last node: the list becomes [ns] followed by the
    new node, nothing else in memory changes, and a list without repeated
    group pointers stays so.  In both cases adding the same group again
    changes nothing. *)
Theorem mutt_group_context_add_idempotent
    (fuel : nat) (root : ptr) (ns : list (loc * ptr)) (group : ptr)
    (σ : state) :
  is_ctx (ctx_heap σ) root ns → (length ns ≤ fuel)%nat →
  let lnew := fresh (dom (ctx_heap σ)) in
  (group ∈ ns.*2 →
     mutt_group_context_add fuel (Some root) group σ = Ok root σ) ∧
  (group ∉ ns.*2 →
     ∃ root' σ',
       mutt_group_context_add fuel (Some root) group σ = Ok root' σ' ∧
       Groups σ' = Groups σ ∧
       group_heap σ' = group_heap σ ∧
       ctx_heap σ !! lnew = None ∧
       is_ctx (ctx_heap σ') root' (ns ++ [(lnew, group)]) ∧
       (∀ x, x ∉ ns.*1 → x ≠ lnew → ctx_heap σ' !! x = ctx_heap σ !! x) ∧
       (NoDup ns.*2 → NoDup (ns ++ [(lnew, group)]).*2)) ∧
  (∃ root' σ',
     mutt_group_context_add fuel (Some root) group σ = Ok root' σ' ∧
     mutt_group_context_add (S fuel) (Some root') group σ' = Ok root' σ').
Proof.
  intros Hc Hf lnew.
  assert (Hfound : group ∈ ns.*2 →
            mutt_group_context_add fuel (Some root) group σ = Ok root σ).
  { intros Hin. simpl.
    by apply (mutt_group_context_add_loop_found group ns fuel root Var None root σ). }
  assert (Happ : group ∉ ns.*2 →
     ∃ root' σ',
       mutt_group_context_add fuel (Some root) group σ = Ok root' σ' ∧
       Groups σ' = Groups σ ∧
       group_heap σ' = group_heap σ ∧
       ctx_heap σ !! lnew = None ∧
       is_ctx (ctx_heap σ') root' (ns ++ [(lnew, group)]) ∧
       (∀ x, x ∉ ns.*1 → x ≠ lnew → ctx_heap σ' !! x = ctx_heap σ !! x) ∧
       (NoDup ns.*2 → NoDup (ns ++ [(lnew, group)]).*2)).
  { intros Hin.
    destruct (mutt_group_context_add_loop_append group ns fuel root Var None
                root σ) as (root' & p' & σ' & E & HG & Hh & Hcell & _ & Hc' & Hfr);
      try done.
    simpl in Hcell, Hc'. subst p'.
    exists root', σ'. split; [done|]. split; [done|]. split; [done|].
    split; [apply fresh_ctx_unallocated|]. split; [done|]. split.
    - intros x Hx Hxn. by apply Hfr.
    - intros Hnd. rewrite fmap_app. simpl. apply NoDup_app.
      split; [done|]. split; [|apply NoDup_singleton].
      intros x Hx ->%list_elem_of_singleton. done. }
  split; [done|]. split; [done|].
  destruct (decide (group ∈ ns.*2)) as [Hin|Hin].
  - exists root, σ. split; [by apply Hfound|].
    simpl.
    apply (mutt_group_context_add_loop_found group ns (S fuel) root Var None
             root σ); [done|done|lia|done].
  - destruct (Happ Hin) as (root' & σ' & E & _ & _ & _ & Hc' & _).
    exists root', σ'. split; [done|]. simpl.
    apply (mutt_group_context_add_loop_found group (ns ++ [(lnew, group)])
             (S fuel) root' Var None root' σ'); [done|done| |].
    + rewrite length_app. simpl. lia.
    + rewrite fmap_app. apply elem_of_app. right. simpl. by left.
Qed.

Lemma mutt_group_context_add_idempotent_witness :
  is_ctx (ctx_heap sample_state) (Some 1%positive) sample_ctx ∧
  (length sample_ctx ≤ 2)%nat ∧
  mutt_group_context_add 2 (Some (Some 1%positive)) (Some 2%positive)
    sample_state = Ok (Some 1%positive) sample_state ∧
  ∃ root' σ',
    mutt_group_context_add 2 (Some (Some 1%positive)) None sample_state
      = Ok root' σ' ∧
    is_ctx (ctx_heap σ') root' (sample_ctx ++ [(3%positive, None)]).
Proof.
  split; [apply sample_ctx_is_ctx|]. split; [simpl; lia|].
  assert (Hf : (length sample_ctx ≤ 2)%nat) by (simpl; lia).
  split.
  - destruct (mutt_group_context_add_idempotent 2 (Some 1%positive) sample_ctx
                (Some 2%positive) sample_state sample_ctx_is_ctx Hf)
      as (Hfound & _).
    apply Hfound. simpl. right. by left.
  - destruct (mutt_group_context_add_idempotent 2 (Some 1%positive) sample_ctx
                None sample_state sample_ctx_is_ctx Hf)
      as (_ & Happ & _).
    destruct Happ as (root' & σ' & E & _ & _ & _ & Hc & _).
    + simpl. intros [[=]|[[=]|Hx%elem_of_nil]%elem_of_cons]%elem_of_cons. done.
    + by exists root', σ'.
Defined.

(** ** Address membership *)

Lemma store_group_live σ l G0 G :
  group_heap σ !! l = Some G0 →
  store_group l G σ =
    Ok tt (mkState (Groups σ) (<[l:=G]> (group_heap σ)) (ctx_heap σ)).
Proof. intros E. unfold store_group. by rewrite E. Qed.

Lemma set_as_live σ l G v :
  group_heap σ !! l = Some G →
  set_as (Some l) v σ =
    Ok tt (mkState (Groups σ)
                   (<[l:=Group.mk (Group.name G) v (Group.rs G)]> (group_heap σ))
                   (ctx_heap σ)).
Proof.
  intros E. unfold set_as. munfold. rewrite (load_group_live _ _ _ E).
  by rewrite (store_group_live _ _ _ _ E).
Qed.

Lemma set_rs_live σ l G v :
  group_heap σ !! l = Some G →
  set_rs (Some l) v σ =
    Ok tt (mkState (Groups σ)
                   (<[l:=Group.mk (Group.name G) (Group.as_ G) v]> (group_heap σ))
                   (ctx_heap σ)).
Proof.
  intros E. unfold set_rs. munfold. rewrite (load_group_live _ _ _ E).
  by rewrite (store_group_live _ _ _ _ E).
Qed.

(** C8.  For an allocated group and a non-empty address list [a],
    [group_add_addrlist] replaces the group's addresses by the old
    addresses, in their order, followed by what [mutt_remove_xrefs] leaves
    of a copy of [a] when it is cross-referenced against the old
    addresses; the copy equals [a], and what is appended is a sublist of
    it.  Name and patterns, the registry, other groups and the context
    nodes are unchanged.  With a null group or an empty (null) list the
    call changes nothing. *)
Theorem group_add_addrlist_appends `{AddressLib}
    (σ : state) (l : loc) (G : Group.t) (a : list Address.t) :
  group_heap σ !! l = Some G → a ≠ [] →
  let q := mutt_remove_xrefs (Group.as_ G) (mutt_addr_copy_list a) in
  group_add_addrlist (Some l) a σ =
    Ok tt (mkState (Groups σ)
             (<[l:=Group.mk (Group.name G) (Group.as_ G ++ q) (Group.rs G)]>
                (group_heap σ))
             (ctx_heap σ)) ∧
  mutt_addr_copy_list a = a ∧
  q `sublist_of` a ∧
  (∀ τ, group_add_addrlist None a τ = Ok tt τ) ∧
  (∀ g τ, group_add_addrlist g [] τ = Ok tt τ).
Proof.
  intros E Ha q. split; [|split; [done|split; [|split]]].
  - unfold group_add_addrlist. destruct a as [|x a]; [done|].
    munfold. rewrite (load_group_live _ _ _ E).
    by rewrite (set_as_live _ _ _ _ E).
  - apply mutt_remove_xrefs_sublist.
  - done.
  - by intros [?|] τ.
Qed.

Lemma group_add_addrlist_appends_witness :
  group_heap sample_state !! 1%positive = Some (Group.mk "team" [alice] []) ∧
  [bob; alice] ≠ [] ∧
  @group_add_addrlist by_mailbox_xrefs (Some 1%positive) [bob; alice]
      sample_state =
    Ok tt (mkState (Groups sample_state)
             (<[1%positive:=Group.mk "team" [alice; bob] []]>
                (group_heap sample_state))
             (ctx_heap sample_state)).
Proof.
  split; [done|]. split; [done|].
  by destruct (@group_add_addrlist_appends by_mailbox_xrefs sample_state
              1%positive (Group.mk "team" [alice] []) [bob; alice]
              eq_refl ltac:(done)) as (E & _).
Defined.

(** ** Regex membership *)

Lemma group_store_same σ l G :
  group_heap σ !! l = Some G →
  mkState (Groups σ)
          (<[l:=Group.mk (Group.name G) (Group.as_ G) (Group.rs G)]> (group_heap σ))
          (ctx_heap σ) = σ.
Proof.
  intros E. destruct σ as [R gh ch], G as [n a r]. simpl in *.
  by rewrite insert_id.
Qed.

Lemma group_add_regex_invalid `{RegexEngine} σ l G s flags d err :
  group_heap σ !! l = Some G →
  regcomp s flags = Invalid d →
  group_add_regex (Some l) (Some s) flags err σ = Ok (-1, d) σ.
Proof.
  intros E Hd. unfold group_add_regex, mutt_regexlist_add. munfold.
  rewrite (load_group_live _ _ _ E), Hd, (set_rs_live _ _ _ _ E).
  by rewrite (group_store_same _ _ _ E).
Qed.

Lemma group_add_regex_compiled `{RegexEngine} σ l G s flags err :
  group_heap σ !! l = Some G →
  regcomp s flags = Compiled →
  group_add_regex (Some l) (Some s) flags err σ =
    Ok (0, err)
       (mkState (Groups σ)
          (<[l:=Group.mk (Group.name G) (Group.as_ G)
                         (Group.rs G ++ [Regex.mk s flags])]> (group_heap σ))
          (ctx_heap σ)).
Proof.
  intros E Hd. unfold group_add_regex, mutt_regexlist_add. munfold.
  by rewrite (load_group_live _ _ _ E), Hd, (set_rs_live _ _ _ _ E).
Qed.

Lemma mutt_group_context_add_regex_loop_failed `{RegexEngine}
    fuel rc ctx s flags err σ :
  rc ≠ 0 →
  mutt_group_context_add_regex_loop fuel rc ctx s flags err σ = Ok (rc, err) σ.
Proof.
  intros Hrc. destruct fuel, ctx; simpl; try done; by rewrite decide_False.
Qed.

(** C6.  When the pattern does not compile, [mutt_group_context_add_regex]
    on a context whose first node refers to an allocated group returns -1
    with the engine's diagnostic in [err], and the state is exactly as it
    was: the fan-out ended at the first group, whatever follows it in the
    list was not looked at, and so for a context [[g1, g2]] the patterns of
    both groups are unchanged.  [group_add_regex] alone behaves the same
    on that group. *)
Theorem mutt_group_context_add_regex_invalid `{RegexEngine}
    (fuel : nat) (σ : state) (l0 g1 : loc) (nx : ptr) (G : Group.t)
    (s : string) (flags : Z) (d : string) (err : Buffer) :
  regcomp s flags = Invalid d →
  ctx_heap σ !! l0 = Some (GroupContext.mk (Some g1) nx) →
  group_heap σ !! g1 = Some G →
  mutt_group_context_add_regex (S fuel) (Some l0) (Some s) flags err σ
    = Ok (-1, d) σ ∧
  group_add_regex (Some g1) (Some s) flags err σ = Ok (-1, d) σ.
Proof.
  intros Hd El EG. split; [|by apply (group_add_regex_invalid _ _ G)].
  unfold mutt_group_context_add_regex. simpl. munfold.
  rewrite (ctx_g_live _ _ _ El). simpl.
  rewrite (group_add_regex_invalid _ _ G _ _ d) by done.
  rewrite (ctx_next_live _ _ _ El). simpl.
  by apply mutt_group_context_add_regex_loop_failed.
Qed.

Lemma mutt_group_context_add_regex_invalid_witness :
  is_ctx (ctx_heap sample_state) (Some 1%positive) sample_ctx ∧
  @regcomp sample_engine "[" 0 = Invalid "brackets ([ ]) not balanced" ∧
  @mutt_group_context_add_regex sample_engine 2 (Some 1%positive) (Some "["%string)
      0 ""%string sample_state
    = Ok (-1, "brackets ([ ]) not balanced"%string) sample_state.
Proof.
  split; [apply sample_ctx_is_ctx|]. split; [done|].
  by destruct (@mutt_group_context_add_regex_invalid sample_engine 1 sample_state
                 1%positive 1%positive (Some 2%positive)
                 (Group.mk "team" [alice] []) "[" 0
                 "brackets ([ ]) not balanced" "" eq_refl eq_refl eq_refl)
    as [E _].
Defined.

Lemma group_add_regex_null `{RegexEngine} s flags err σ :
  group_add_regex None s flags err σ = Fault.
Proof. reflexivity. Qed.

Lemma mutt_group_context_add_regex_loop_null `{RegexEngine} s flags l0 ns2 :
  ∀ ns1 fuel root σ err,
    regcomp s flags = Compiled →
    is_ctx (ctx_heap σ) root (ns1 ++ (l0, None) :: ns2) →
    Forall (λ n, ∃ gl, n.2 = Some gl ∧ is_Some (group_heap σ !! gl)) ns1 →
    (length ns1 < fuel)%nat →
    mutt_group_context_add_regex_loop fuel 0 root (Some s) flags err σ = Fault.
Proof.
  induction ns1 as [|[l g] ns1 IH]; intros fuel root σ err Hd Hc Hlive Hf;
    (destruct fuel as [|fuel]; [simpl in Hf; lia|]);
    simpl in Hc; destruct Hc as [-> (nx & El & Hr)].
  - simpl. munfold. by rewrite (ctx_g_live _ _ _ El).
  - apply Forall_cons in Hlive as [(gl & Hg & [G EG]) Hlive]. simpl in Hg. subst g.
    simpl. munfold. rewrite (ctx_g_live _ _ _ El). simpl.
    rewrite (group_add_regex_compiled _ _ G) by done.
    set (σ1 := mkState _ _ _).
    assert (El1 : ctx_heap σ1 !! l = Some (GroupContext.mk (Some gl) nx)) by done.
    rewrite (ctx_next_live _ _ _ El1). simpl.
    apply IH; [done| | |simpl in Hf; lia].
    + eapply is_ctx_mono; [|exact Hr]. apply delete_subseteq.
    + eapply Forall_impl; [exact Hlive|]. intros [x gx] (gl' & Hgx & Hl').
      exists gl'. split; [done|]. unfold σ1. simpl.
      destruct (decide (gl = gl')) as [->|Hne].
      * rewrite lookup_insert_eq. by eexists.
      * by rewrite lookup_insert_ne.
Qed.

(** C10.  [group_add_regex] names [g->rs] with no test of [g]: on a null
    group pointer it faults, whatever the other arguments.  So
    [mutt_group_context_add_regex] faults on a context whose first node
    carries a null group, and on any context that carries one after
    allocated groups when the pattern compiles (the fan-out then reaches
    it).  The address-list operations test [g]: on a null group
    [group_add_addrlist] and [group_remove_addrlist] change nothing (the
    latter reports -1), and so do the context-level address operations on
    a node that carries a null group. *)
Theorem group_add_regex_requires_group `{RegexEngine} `{AddressLib} :
  (∀ s flags err σ, group_add_regex None s flags err σ = Fault) ∧
  (∀ fuel l0 nx s flags err σ,
     ctx_heap σ !! l0 = Some (GroupContext.mk None nx) →
     mutt_group_context_add_regex (S fuel) (Some l0) s flags err σ = Fault) ∧
  (∀ fuel root ns1 l0 ns2 s flags err σ,
     regcomp s flags = Compiled →
     is_ctx (ctx_heap σ) root (ns1 ++ (l0, None) :: ns2) →
     Forall (λ n, ∃ gl, n.2 = Some gl ∧ is_Some (group_heap σ !! gl)) ns1 →
     (length ns1 < fuel)%nat →
     mutt_group_context_add_regex fuel root (Some s) flags err σ = Fault) ∧
  (∀ a σ, group_add_addrlist None a σ = Ok tt σ) ∧
  (∀ a σ, group_remove_addrlist None a σ = Ok (-1) σ) ∧
  (∀ fuel l0 a σ,
     ctx_heap σ !! l0 = Some (GroupContext.mk None None) →
     mutt_group_context_add_addrlist (S fuel) (Some l0) a σ = Ok tt σ ∧
     mutt_group_context_remove_addrlist (S fuel) (Some l0) a σ = Ok (-1) σ).
Proof.
  split; [done|]. split; [|split; [|split; [done|split; [done|]]]].
  - intros fuel l0 nx s flags err σ El.
    unfold mutt_group_context_add_regex. simpl. munfold.
    by rewrite (ctx_g_live _ _ _ El).
  - intros fuel root ns1 l0 ns2 s flags err σ Hd Hc Hlive Hf.
    by eapply mutt_group_context_add_regex_loop_null.
  - intros fuel l0 a σ El. split.
    + simpl. munfold. rewrite (ctx_g_live _ _ _ El). simpl.
      rewrite (ctx_next_live _ _ _ El). simpl. by destruct fuel.
    + unfold mutt_group_context_remove_addrlist. simpl. munfold.
      rewrite (ctx_g_live _ _ _ El). simpl.
      rewrite (ctx_g_live _ _ _ El). simpl.
      rewrite (ctx_g_live _ _ _ El). simpl.
      rewrite (ctx_next_live _ _ _ El). simpl. by destruct fuel.
Qed.

Lemma group_add_regex_requires_group_witness :
  ctx_heap null_group_state !! 1%positive = Some (GroupContext.mk None None) ∧
  @mutt_group_context_add_regex sample_engine 1 (Some 1%positive)
      (Some "^boss@"%string) 0 ""%string null_group_state = Fault ∧
  @mutt_group_context_add_addrlist keep_all_xrefs 1 (Some 1%positive) [alice]
      null_group_state = Ok tt null_group_state.
Proof.
  split; [done|].
  destruct (@group_add_regex_requires_group sample_engine keep_all_xrefs)
    as (_ & Hrx & _ & _ & _ & Haddr).
  split.
  - by apply (Hrx 0%nat 1%positive None).
  - by apply (Haddr 0%nat 1%positive [alice] null_group_state).
Defined.

(** ** Matching *)

Lemma mutt_str_strcasecmp_zero a b :
  mutt_str_strcasecmp a b = 0 ↔ ci_equal a b.
Proof.
  unfold ci_equal, fold_case. revert b.
  induction a as [|c a IH]; intros [|d b]; simpl; try done.
  destruct (tolower c ?= tolower d)%N eqn:E.
  - apply N.compare_eq in E. rewrite IH, E. split; [by intros ->|].
    by intros [= ?].
  - split; [done|]. intros [= E' _]. rewrite E' in E.
    by rewrite N.compare_refl in E.
  - split; [done|]. intros [= E' _]. rewrite E' in E.
    by rewrite N.compare_refl in E.
Qed.

Lemma upto_first_app_miss {A} (f : A → bool) l1 l2 :
  existsb f l1 = false → upto_first f (l1 ++ l2) = l1 ++ upto_first f l2.
Proof.
  induction l1 as [|x l1 IH]; simpl; [done|].
  destruct (f x); simpl; [done|]. intros E. by rewrite IH.
Qed.

Lemma upto_first_app_hit {A} (f : A → bool) l1 l2 :
  existsb f l1 = true → upto_first f (l1 ++ l2) = upto_first f l1.
Proof.
  induction l1 as [|x l1 IH]; simpl; [done|].
  destruct (f x); simpl; [done|]. intros E. by rewrite IH.
Qed.

Lemma upto_first_miss {A} (f : A → bool) l :
  existsb f l = false → upto_first f l = l.
Proof.
  induction l as [|x l IH]; simpl; [done|].
  destruct (f x); simpl; [done|]. intros E. by rewrite IH.
Qed.

Lemma mutt_regexlist_match_spec `{RegexEngine} rl s :
  mutt_regexlist_match rl s =
    (existsb (probe_hits s) (ProbeRegex <$> rl),
     upto_first (probe_hits s) (ProbeRegex <$> rl)).
Proof.
  induction rl as [|r rl IH]; simpl; [done|].
  destruct (regexec r s); [done|]. by rewrite IH.
Qed.

Lemma match_addresses_spec `{RegexEngine} ap s :
  match_addresses ap s =
    (existsb (probe_hits s) (ProbeAddress <$> omap Address.mailbox ap),
     upto_first (probe_hits s) (ProbeAddress <$> omap Address.mailbox ap)).
Proof.
  induction ap as [|a ap IH]; simpl; [done|].
  destruct (Address.mailbox a) as [m|]; simpl; [|done].
  destruct (decide (mutt_str_strcasecmp s m = 0)) as [E|E].
  - apply mutt_str_strcasecmp_zero in E. by rewrite bool_decide_eq_true_2.
  - rewrite bool_decide_eq_false_2; [by rewrite IH|].
    by rewrite <- mutt_str_strcasecmp_zero.
Qed.

Lemma existsb_regex_probes `{RegexEngine} rl s :
  existsb (probe_hits s) (ProbeRegex <$> rl) = true ↔
  ∃ r, r ∈ rl ∧ regexec r s = true.
Proof.
  rewrite existsb_exists. split.
  - intros (x & Hx & Hh). apply list_elem_of_In, list_elem_of_fmap in Hx
      as (r & -> & Hr). by exists r.
  - intros (r & Hr & Hh). exists (ProbeRegex r). split; [|done].
    apply list_elem_of_In, list_elem_of_fmap. by exists r.
Qed.

Lemma existsb_address_probes `{RegexEngine} ap s :
  existsb (probe_hits s) (ProbeAddress <$> omap Address.mailbox ap) = true ↔
  ∃ a m, a ∈ ap ∧ Address.mailbox a = Some m ∧ ci_equal s m.
Proof.
  rewrite existsb_exists. split.
  - intros (x & Hx & Hh). apply list_elem_of_In, list_elem_of_fmap in Hx
      as (m & -> & Hm). apply list_elem_of_omap in Hm as (a & Ha & Hm).
    exists a, m. simpl in Hh. by apply bool_decide_eq_true in Hh.
  - intros (a & m & Ha & Hm & Hh). exists (ProbeAddress m). split.
    + apply list_elem_of_In, list_elem_of_fmap. exists m. split; [done|].
      apply list_elem_of_omap. by exists a.
    + simpl. by apply bool_decide_eq_true.
Qed.

(** C1.  For an allocated group and a candidate [s], [mutt_group_match]
    returns without changing the state, and its result is true exactly
    when some address of the group has a mailbox that equals [s] after
    case folding, or some pattern of the group matches [s]; for a group
    with no addresses and no patterns it is false.  What it evaluates is
    the sequence of the group's patterns, in list order, followed by the
    non-null mailboxes, in list order, cut after the first one that
    succeeds.  With a null group or a null candidate the result is false
    and nothing is evaluated. *)
Theorem mutt_group_match_spec `{RegexEngine}
    (σ : state) (l : loc) (G : Group.t) (s : string) :
  group_heap σ !! l = Some G →
  (∃ b,
     mutt_group_match (Some l) (Some s) σ =
       Ok (b, upto_first (probe_hits s) (all_probes G)) σ ∧
     (b = true ↔
        (∃ a m, a ∈ Group.as_ G ∧ Address.mailbox a = Some m ∧ ci_equal s m) ∨
        (∃ r, r ∈ Group.rs G ∧ regexec r s = true)) ∧
     (Group.as_ G = [] → Group.rs G = [] → b = false)) ∧
  (∀ s' τ, mutt_group_match None s' τ = Ok (false, []) τ) ∧
  (∀ g τ, mutt_group_match g None τ = Ok (false, []) τ).
Proof.
  intros E. split; [|split; [done|by intros [?|] τ]].
  exists (existsb (probe_hits s) (all_probes G)). split; [|split].
  - unfold mutt_group_match, all_probes. munfold.
    rewrite (load_group_live _ _ _ E), mutt_regexlist_match_spec.
    destruct (existsb (probe_hits s) (ProbeRegex <$> Group.rs G)) eqn:Er.
    + rewrite existsb_app, Er. simpl. by rewrite upto_first_app_hit.
    + rewrite match_addresses_spec, existsb_app, Er. simpl.
      by rewrite upto_first_app_miss, (upto_first_miss _ _ Er).
  - unfold all_probes. rewrite existsb_app, orb_true_iff.
    rewrite existsb_regex_probes, existsb_address_probes. tauto.
  - intros Ha Hr. unfold all_probes. by rewrite Ha, Hr.
Qed.

Lemma mutt_group_match_spec_witness :
  group_heap sample_state !! 1%positive = Some (Group.mk "team" [alice] []) ∧
  @mutt_group_match sample_engine (Some 1%positive)
      (Some "ALICE@example.com"%string) sample_state =
    Ok (true, [ProbeAddress "alice@example.com"]) sample_state.
Proof.
  split; [done|].
  destruct (@mutt_group_match_spec sample_engine sample_state 1%positive
              (Group.mk "team" [alice] []) "ALICE@example.com" eq_refl)
    as [(b & E & Hb & _) _].
  assert (b = true) as ->.
  { apply Hb. left. exists alice, "alice@example.com"%string.
    split; [by left|]. split; [done|]. by vm_compute. }
  etrans; [exact E|]. by vm_compute.
Defined.

(** The scenarios of the spec, section 8, on the sample state. *)
Example team_rejects_bob :
  @mutt_group_match sample_engine (Some 1%positive)
      (Some "bob@example.com"%string) sample_state =
    Ok (false, [ProbeAddress "alice@example.com"]) sample_state.
Proof. by vm_compute. Qed.

Example vip_matches_boss :
  @mutt_group_match sample_engine (Some 2%positive)
      (Some "boss@example.com"%string) sample_state =
    Ok (true, [ProbeRegex (Regex.mk "^boss@" 0)]) sample_state.
Proof. by vm_compute. Qed.

Example vip_rejects_notboss :
  @mutt_group_match sample_engine (Some 2%positive)
      (Some "notboss@example.com"%string) sample_state =
    Ok (false, [ProbeRegex (Regex.mk "^boss@" 0)]) sample_state.
Proof. by vm_compute. Qed.

(** ** The remove loops *)

Lemma visit_ctx_heap upd l σ : ctx_heap (visit upd l σ) = ctx_heap σ.
Proof.
  unfold visit. destruct (group_heap σ !! l); [|done].
  by destruct (is_empty_group _).
Qed.

Lemma visit_lookup_other upd l σ l' :
  l' ≠ l → group_heap (visit upd l σ) !! l' = group_heap σ !! l'.
Proof.
  intros Hne. unfold visit. destruct (group_heap σ !! l); [|done].
  destruct (is_empty_group _); simpl.
  - rewrite lookup_delete_ne by done. by rewrite lookup_insert_ne.
  - by rewrite lookup_insert_ne.
Qed.

Lemma visit_lookup_same upd l σ G :
  group_heap σ !! l = Some G →
  group_heap (visit upd l σ) !! l =
    if is_empty_group (upd G) then None else Some (upd G).
Proof.
  intros E. unfold visit. rewrite E.
  destruct (is_empty_group _); simpl.
  - by rewrite lookup_delete_eq.
  - by rewrite lookup_insert_eq.
Qed.

Lemma set_group_wf l G0 G σ :
  registry_wf σ → group_heap σ !! l = Some G0 →
  Group.name G = Group.name G0 →
  registry_wf (set_group l G σ).
Proof.
  intros W E Hn n x En. simpl in *.
  destruct (W _ _ En) as (G' & EG' & HG').
  destruct (decide (x = l)) as [->|Hne].
  - exists G. rewrite lookup_insert_eq. split; [done|]. congruence.
  - exists G'. by rewrite lookup_insert_ne.
Qed.

Lemma visit_wf upd l σ :
  (∀ G, Group.name (upd G) = Group.name G) →
  registry_wf σ → registry_wf (visit upd l σ).
Proof.
  intros Hn W. unfold visit. destruct (group_heap σ !! l) as [G|] eqn:E; [|done].
  pose proof (set_group_wf l G (upd G) σ W E (Hn G)) as W1.
  destruct (is_empty_group _); [|done].
  apply group_remove_state_wf; [done|]. simpl. by rewrite lookup_insert_eq.
Qed.

#[local] Arguments group_remove : simpl never.
#[local] Arguments set_as : simpl never.
#[local] Arguments set_rs : simpl never.

Section RemoveFanout.
Variable loop : nat → Z → ptr → M Z.
Variable rm : ptr → M Z.
Variable upd : Group.t → Group.t.
Variable status : Group.t → Z.

Hypothesis loop_eq : ∀ fuel rc ctx,
  loop fuel rc ctx =
    if decide (rc = 0) then
      match ctx with
      | Some l =>
          match fuel with
          | O => timeout
          | S fuel =>
              g ← ctx_g l;
              rc ← rm g;
              g ← ctx_g l;
              e ← empty_group g;
              (if decide (e ≠ 0) then g ← ctx_g l; group_remove g else mret tt);;
              nx ← ctx_next l;
              loop fuel rc nx
          end
      | None => mret rc
      end
    else mret rc.

Hypothesis rm_live : ∀ σ l G,
  group_heap σ !! l = Some G →
  rm (Some l) σ = Ok (status G) (set_group l (upd G) σ).

Hypothesis upd_name : ∀ G, Group.name (upd G) = Group.name G.

Lemma fanout_round fuel σ l0 l nx G :
  ctx_heap σ !! l0 = Some (GroupContext.mk (Some l) nx) →
  group_heap σ !! l = Some G →
  loop (S fuel) 0 (Some l0) σ = loop fuel (status G) nx (visit upd l σ).
Proof.
  intros El EG. rewrite loop_eq. rewrite decide_True by done. munfold.
  rewrite (ctx_g_live _ _ _ El). simpl. rewrite (rm_live _ _ _ EG).
  set (σ1 := set_group l (upd G) σ).
  assert (El1 : ctx_heap σ1 !! l0 = Some (GroupContext.mk (Some l) nx)) by done.
  assert (EG1 : group_heap σ1 !! l = Some (upd G)).
  { unfold σ1. simpl. by rewrite lookup_insert_eq. }
  rewrite (ctx_g_live _ _ _ El1). simpl.
  unfold visit. rewrite EG. fold σ1.
  unfold empty_group. munfold. rewrite (load_group_live _ _ _ EG1).
  unfold is_empty_group.
  destruct (is_null (Group.as_ (upd G)) && is_null (Group.rs (upd G))); simpl.
  - rewrite (ctx_g_live _ _ _ El1). simpl.
    rewrite (group_remove_live _ _ _ EG1).
    set (σ2 := group_remove_state l (upd G) σ1).
    assert (El2 : ctx_heap σ2 !! l0 = Some (GroupContext.mk (Some l) nx)) by done.
    by rewrite (ctx_next_live _ _ _ El2).
  - by rewrite (ctx_next_live _ _ _ El1).
Qed.

Lemma fanout_stopped fuel rc ctx σ :
  rc ≠ 0 → loop fuel rc ctx σ = Ok rc σ.
Proof.
  intros Hrc. rewrite loop_eq. by rewrite decide_False.
Qed.

Lemma visit_all_lookup_other ls : ∀ σ l,
  l ∉ ls → group_heap (visit_all upd ls σ) !! l = group_heap σ !! l.
Proof.
  induction ls as [|x ls IH]; intros σ l Hl; [done|].
  unfold visit_all in *. simpl. rewrite IH.
  - apply visit_lookup_other. intros ->. apply Hl. by left.
  - intros Hin. apply Hl. by right.
Qed.

Lemma visit_all_lookup_visited ls : ∀ σ l G,
  NoDup ls → l ∈ ls → group_heap σ !! l = Some G →
  group_heap (visit_all upd ls σ) !! l =
    if is_empty_group (upd G) then None else Some (upd G).
Proof.
  induction ls as [|x ls IH]; intros σ l G Hnd Hl E.
  - by apply elem_of_nil in Hl.
  - apply NoDup_cons in Hnd as [Hx Hnd]. unfold visit_all in *. simpl.
    apply elem_of_cons in Hl as [->|Hl].
    + fold (visit_all upd ls (visit upd x σ)).
      rewrite visit_all_lookup_other by done. by apply visit_lookup_same.
    + apply IH; [done|done|].
      rewrite visit_lookup_other; [done|]. by intros ->.
Qed.

Lemma visit_all_wf ls : ∀ σ, registry_wf σ → registry_wf (visit_all upd ls σ).
Proof.
  induction ls as [|x ls IH]; intros σ W; [done|].
  unfold visit_all in *. simpl. apply IH. by apply visit_wf.
Qed.

Lemma visit_all_ctx_heap ls : ∀ σ, ctx_heap (visit_all upd ls σ) = ctx_heap σ.
Proof.
  induction ls as [|x ls IH]; intros σ; [done|].
  unfold visit_all in *. simpl. by rewrite IH, visit_ctx_heap.
Qed.

Lemma visit_all_outcome ls σ :
  registry_wf σ → NoDup ls →
  visited_outcome upd ls σ (visit_all upd ls σ).
Proof.
  intros W Hnd. split; [by apply visit_all_wf|].
  split; [apply visit_all_ctx_heap|]. split.
  - intros l G Hl E.
    pose proof (visit_all_lookup_visited ls σ l G Hnd Hl E) as Hv.
    destruct (is_empty_group (upd G)); [|done]. split; [done|].
    intros n Hn.
    destruct (registry_points_to_live _ _ _ (visit_all_wf ls σ W) Hn) as [G' EG'].
    congruence.
  - intros l Hl. by apply visit_all_lookup_other.
Qed.

(** Every removal succeeds: all groups are visited and the status is 0. *)
Lemma fanout_all ls : ∀ ns fuel root σ,
  is_ctx (ctx_heap σ) root ns →
  ns.*2 = Some <$> ls →
  NoDup ls →
  (∀ l, l ∈ ls → ∃ G, group_heap σ !! l = Some G ∧ status G = 0) →
  (length ns ≤ fuel)%nat →
  loop fuel 0 root σ = Ok 0 (visit_all upd ls σ).
Proof.
  induction ls as [|l ls IH]; intros ns fuel root σ Hc Hns Hnd Hlive Hf.
  - destruct ns; [|done]. simpl in Hc. subst root. by rewrite loop_eq.
  - destruct ns as [|[l0 g] ns]; [done|]. simpl in Hns.
    injection Hns as -> Hns. simpl in Hc. destruct Hc as [-> (nx & El & Hr)].
    destruct fuel as [|fuel]; [simpl in Hf; lia|].
    apply NoDup_cons in Hnd as [Hl Hnd].
    destruct (Hlive l) as (G & EG & HG); [by left|].
    rewrite (fanout_round _ _ _ _ _ _ El EG), HG.
    apply (IH ns); [|done|done| |simpl in Hf; lia].
    + rewrite visit_ctx_heap. eapply is_ctx_mono; [|exact Hr].
      apply delete_subseteq.
    + intros x Hx. destruct (Hlive x) as (Gx & EGx & HGx); [by right|].
      exists Gx. split; [|done].
      rewrite visit_lookup_other; [done|]. by intros ->.
Qed.

(** The removal first fails on [l], after the groups [ls1]: these and [l]
    are visited, and the status is that of [l]. *)
Lemma fanout_fail ls1 l ls2 : ∀ ns fuel root σ G,
  is_ctx (ctx_heap σ) root ns →
  ns.*2 = Some <$> (ls1 ++ l :: ls2) →
  NoDup (ls1 ++ [l]) →
  (∀ x, x ∈ ls1 → ∃ Gx, group_heap σ !! x = Some Gx ∧ status Gx = 0) →
  group_heap σ !! l = Some G → status G ≠ 0 →
  (length ls1 < fuel)%nat →
  loop fuel 0 root σ = Ok (status G) (visit_all upd (ls1 ++ [l]) σ).
Proof.
  induction ls1 as [|x ls1 IH]; intros ns fuel root σ G Hc Hns Hnd Hlive EG HG Hf;
    (destruct ns as [|[l0 g] ns]; [done|]); simpl in Hns;
    injection Hns as -> Hns; simpl in Hc; destruct Hc as [-> (nx & El & Hr)];
    (destruct fuel as [|fuel]; [simpl in Hf; lia|]).
  - rewrite (fanout_round _ _ _ _ _ _ El EG). by apply fanout_stopped.
  - simpl in Hnd. apply NoDup_cons in Hnd as [Hx Hnd].
    destruct (Hlive x) as (Gx & EGx & HGx); [by left|].
    rewrite (fanout_round _ _ _ _ _ _ El EGx), HGx.
    apply (IH ns); [|done|done| | |done|simpl in Hf; lia].
    + rewrite visit_ctx_heap. eapply is_ctx_mono; [|exact Hr].
      apply delete_subseteq.
    + intros y Hy. destruct (Hlive y) as (Gy & EGy & HGy); [by right|].
      exists Gy. split; [|done].
      rewrite visit_lookup_other; [done|]. intros ->. apply Hx.
      apply elem_of_app. by left.
    + rewrite visit_lookup_other; [done|]. intros ->. apply Hx.
      apply elem_of_app. right. by left.
Qed.
End RemoveFanout.

Lemma set_group_same σ l G : group_heap σ !! l = Some G → set_group l G σ = σ.
Proof.
  intros E. destruct σ as [R gh ch]. unfold set_group. simpl in *.
  by rewrite insert_id.
Qed.

Lemma set_group_twice σ l G G' :
  set_group l G (set_group l G' σ) = set_group l G σ.
Proof. unfold set_group. simpl. by rewrite insert_insert_eq. Qed.

Lemma group_remove_addrlist_loop_live a : ∀ σ l G,
  group_heap σ !! l = Some G →
  group_remove_addrlist_loop (Some l) a σ =
    Ok tt (set_group l (remove_addresses a G) σ).
Proof.
  induction a as [|x a IH]; intros σ l G E.
  - simpl. munfold. destruct G as [n ad r]. unfold remove_addresses. simpl.
    by rewrite (set_group_same _ _ _ E).
  - simpl. munfold. rewrite (load_group_live _ _ _ E), (set_as_live _ _ _ _ E).
    erewrite IH; [|simpl; by rewrite lookup_insert_eq].
    fold (set_group l
            (Group.mk (Group.name G)
               (mutt_addr_remove_from_list (Group.as_ G) (Address.mailbox x))
               (Group.rs G)) σ).
    by rewrite set_group_twice.
Qed.

Lemma group_remove_addrlist_live a σ l G :
  a ≠ [] → group_heap σ !! l = Some G →
  group_remove_addrlist (Some l) a σ =
    Ok 0 (set_group l (remove_addresses a G) σ).
Proof.
  intros Ha E. unfold group_remove_addrlist. destruct a as [|x a]; [done|].
  munfold. by rewrite (group_remove_addrlist_loop_live _ _ _ _ E).
Qed.

Lemma group_remove_addrlist_null_list σ l G :
  group_heap σ !! l = Some G →
  group_remove_addrlist (Some l) [] σ = Ok (-1) (set_group l G σ).
Proof. intros E. by rewrite (set_group_same _ _ _ E). Qed.

Lemma group_remove_regex_live s σ l G :
  group_heap σ !! l = Some G →
  group_remove_regex (Some l) s σ =
    Ok (mutt_regexlist_remove (Group.rs G) s).1
       (set_group l (remove_regex s G) σ).
Proof.
  intros E. unfold group_remove_regex. munfold.
  rewrite (load_group_live _ _ _ E).
  destruct (mutt_regexlist_remove (Group.rs G) s) as [rc rl] eqn:Er.
  rewrite (set_rs_live _ _ _ _ E). unfold remove_regex. by rewrite Er.
Qed.

Lemma mutt_regexlist_remove_status rl s :
  (mutt_regexlist_remove rl (Some s)).1 =
    if bool_decide (Exists (λ r, Regex.pattern r = s) rl) then 0 else -1.
Proof. unfold mutt_regexlist_remove. by case_bool_decide. Qed.

Lemma mutt_regexlist_remove_null rl : mutt_regexlist_remove rl None = (-1, rl).
Proof. reflexivity. Qed.

Lemma mutt_group_context_remove_addrlist_loop_eq a fuel rc ctx :
  mutt_group_context_remove_addrlist_loop fuel rc ctx a =
    if decide (rc = 0) then
      match ctx with
      | Some l =>
          match fuel with
          | O => timeout
          | S fuel =>
              g ← ctx_g l;
              rc ← group_remove_addrlist g a;
              g ← ctx_g l;
              e ← empty_group g;
              (if decide (e ≠ 0) then g ← ctx_g l; group_remove g else mret tt);;
              nx ← ctx_next l;
              mutt_group_context_remove_addrlist_loop fuel rc nx a
          end
      | None => mret rc
      end
    else mret rc.
Proof. by destruct fuel. Qed.

Lemma mutt_group_context_remove_regex_loop_eq s fuel rc ctx :
  mutt_group_context_remove_regex_loop fuel rc ctx s =
    if decide (rc = 0) then
      match ctx with
      | Some l =>
          match fuel with
          | O => timeout
          | S fuel =>
              g ← ctx_g l;
              rc ← group_remove_regex g s;
              g ← ctx_g l;
              e ← empty_group g;
              (if decide (e ≠ 0) then g ← ctx_g l; group_remove g else mret tt);;
              nx ← ctx_next l;
              mutt_group_context_remove_regex_loop fuel rc nx s
          end
      | None => mret rc
      end
    else mret rc.
Proof. by destruct fuel. Qed.

Lemma visit_unchanged σ l G :
  group_heap σ !! l = Some G →
  visit (λ G, G) l σ =
    if is_empty_group G then group_remove_state l G σ else σ.
Proof.
  intros E. unfold visit. rewrite E. by rewrite (set_group_same _ _ _ E).
Qed.

Lemma remove_regex_null G : remove_regex None G = G.
Proof. by destruct G. Qed.

#[local] Arguments group_add_addrlist : simpl never.

Lemma remove_addrlist_all a ls ns fuel root σ :
  a ≠ [] →
  registry_wf σ →
  is_ctx (ctx_heap σ) root ns →
  ns.*2 = Some <$> ls →
  NoDup ls →
  (∀ l, l ∈ ls → is_Some (group_heap σ !! l)) →
  (length ns ≤ fuel)%nat →
  ∃ σ', mutt_group_context_remove_addrlist fuel root a σ = Ok 0 σ' ∧
        visited_outcome (remove_addresses a) ls σ σ'.
Proof.
  intros Ha W Hc Hns Hnd Hlive Hf.
  exists (visit_all (remove_addresses a) ls σ). split.
  - unfold mutt_group_context_remove_addrlist.
    apply (fanout_all
             (λ fuel rc ctx, mutt_group_context_remove_addrlist_loop fuel rc ctx a)
             (λ g, group_remove_addrlist g a) (remove_addresses a) (λ _, 0)
             (mutt_group_context_remove_addrlist_loop_eq a)
             (λ σ l G, group_remove_addrlist_live a σ l G Ha) ls ns);
      try done.
    intros l Hl. destruct (Hlive l Hl) as [G EG]. by exists G.
  - by apply visit_all_outcome.
Qed.

Lemma remove_regex_all s ls ns fuel root σ :
  registry_wf σ →
  is_ctx (ctx_heap σ) root ns →
  ns.*2 = Some <$> ls →
  NoDup ls →
  (∀ l, l ∈ ls →
     ∃ G, group_heap σ !! l = Some G ∧
          Exists (λ r, Regex.pattern r = s) (Group.rs G)) →
  (length ns ≤ fuel)%nat →
  ∃ σ', mutt_group_context_remove_regex fuel root (Some s) σ = Ok 0 σ' ∧
        visited_outcome (remove_regex (Some s)) ls σ σ'.
Proof.
  intros W Hc Hns Hnd Hlive Hf.
  exists (visit_all (remove_regex (Some s)) ls σ). split.
  - unfold mutt_group_context_remove_regex.
    apply (fanout_all
             (λ fuel rc ctx, mutt_group_context_remove_regex_loop fuel rc ctx (Some s))
             (λ g, group_remove_regex g (Some s)) (remove_regex (Some s))
             (λ G, (mutt_regexlist_remove (Group.rs G) (Some s)).1)
             (mutt_group_context_remove_regex_loop_eq (Some s))
             (group_remove_regex_live (Some s)) ls ns);
      try done.
    intros l Hl. destruct (Hlive l Hl) as (G & EG & HG). exists G.
    split; [done|]. rewrite mutt_regexlist_remove_status.
    by rewrite bool_decide_eq_true_2.
  - by apply visit_all_outcome.
Qed.

Lemma remove_regex_first_failure s ls1 l ls2 G ns fuel root σ :
  registry_wf σ →
  is_ctx (ctx_heap σ) root ns →
  ns.*2 = Some <$> (ls1 ++ l :: ls2) →
  NoDup (ls1 ++ l :: ls2) →
  (∀ x, x ∈ ls1 →
     ∃ Gx, group_heap σ !! x = Some Gx ∧
           Exists (λ r, Regex.pattern r = s) (Group.rs Gx)) →
  group_heap σ !! l = Some G →
  ¬ Exists (λ r, Regex.pattern r = s) (Group.rs G) →
  (length ns ≤ fuel)%nat →
  ∃ σ', mutt_group_context_remove_regex fuel root (Some s) σ = Ok (-1) σ' ∧
        visited_outcome (remove_regex (Some s)) (ls1 ++ [l]) σ σ'.
Proof.
  intros W Hc Hns Hnd Hlive EG HG Hf.
  assert (Hnd' : NoDup (ls1 ++ [l])).
  { apply NoDup_app in Hnd as (H1 & H2 & H3). apply NoDup_app.
    split; [done|]. split; [|apply NoDup_singleton].
    intros x Hx ->%list_elem_of_singleton. apply (H2 l Hx). by left. }
  assert (Hst : (mutt_regexlist_remove (Group.rs G) (Some s)).1 = -1).
  { rewrite mutt_regexlist_remove_status. by rewrite bool_decide_eq_false_2. }
  exists (visit_all (remove_regex (Some s)) (ls1 ++ [l]) σ). split.
  - unfold mutt_group_context_remove_regex. rewrite <- Hst.
    apply (fanout_fail
             (λ fuel rc ctx, mutt_group_context_remove_regex_loop fuel rc ctx (Some s))
             (λ g, group_remove_regex g (Some s)) (remove_regex (Some s))
             (λ G, (mutt_regexlist_remove (Group.rs G) (Some s)).1)
             (mutt_group_context_remove_regex_loop_eq (Some s))
             (group_remove_regex_live (Some s)) ls1 l ls2 ns);
      try done.
    + intros x Hx. destruct (Hlive x Hx) as (Gx & EGx & HGx). exists Gx.
      split; [done|]. rewrite mutt_regexlist_remove_status.
      by rewrite bool_decide_eq_true_2.
    + by rewrite Hst.
    + assert (length ns = length (ls1 ++ l :: ls2)) as Hlen.
      { rewrite <- (length_fmap snd ns), Hns. by rewrite length_fmap. }
      rewrite length_app in Hlen. simpl in Hlen. lia.
  - by apply visit_all_outcome.
Qed.

Lemma group_add_addrlist_live `{AddressLib} σ l G a :
  group_heap σ !! l = Some G → a ≠ [] →
  group_add_addrlist (Some l) a σ =
    Ok tt (set_group l
             (Group.mk (Group.name G)
                (Group.as_ G ++
                   mutt_remove_xrefs (Group.as_ G) (mutt_addr_copy_list a))
                (Group.rs G)) σ).
Proof.
  intros E Ha. unfold group_add_addrlist. destruct a as [|x a]; [done|].
  munfold. rewrite (load_group_live _ _ _ E).
  by rewrite (set_as_live _ _ _ _ E).
Qed.

Lemma filter_mailbox_nil (m : option string) (l : list Address.t) :
  (∀ x, x ∈ l → Address.mailbox x = m) →
  mutt_addr_remove_from_list l m = [].
Proof.
  unfold mutt_addr_remove_from_list.
  induction l as [|x l IH]; intros Hl; [done|].
  rewrite filter_cons_False.
  - apply IH. intros y Hy. apply Hl. by right.
  - intros Hx. apply Hx, Hl. by left.
Qed.

(** ** Remove operations with a null argument *)

(** C3, as the code has it.  With a null address list or a null pattern, a
    context-level remove on an empty context returns 0 and changes
    nothing.  On a context whose first node refers to an allocated group
    it returns -1 after one round: no group's name, addresses or patterns
    change and nothing beyond the first node is looked at, but the first
    group is destroyed if it has no addresses and no patterns. *)
Theorem remove_null_argument (fuel : nat) (σ : state) :
  mutt_group_context_remove_addrlist fuel None [] σ = Ok 0 σ ∧
  mutt_group_context_remove_regex fuel None None σ = Ok 0 σ ∧
  (∀ l0 l nx G,
     ctx_heap σ !! l0 = Some (GroupContext.mk (Some l) nx) →
     group_heap σ !! l = Some G →
     let σ' := if is_empty_group G then group_remove_state l G σ else σ in
     mutt_group_context_remove_addrlist (S fuel) (Some l0) [] σ = Ok (-1) σ' ∧
     mutt_group_context_remove_regex (S fuel) (Some l0) None σ = Ok (-1) σ').
Proof.
  split; [by destruct fuel|]. split; [by destruct fuel|].
  intros l0 l nx G El EG σ'. split.
  - unfold mutt_group_context_remove_addrlist.
    rewrite (fanout_round
               (λ fuel rc ctx, mutt_group_context_remove_addrlist_loop fuel rc ctx [])
               (λ g, group_remove_addrlist g []) (λ G, G) (λ _, -1)
               (mutt_group_context_remove_addrlist_loop_eq [])
               group_remove_addrlist_null_list fuel σ l0 l nx G El EG).
    rewrite (visit_unchanged _ _ _ EG). fold σ'.
    by destruct fuel, nx.
  - unfold mutt_group_context_remove_regex.
    rewrite (fanout_round
               (λ fuel rc ctx, mutt_group_context_remove_regex_loop fuel rc ctx None)
               (λ g, group_remove_regex g None) (remove_regex None)
               (λ _, -1)
               (mutt_group_context_remove_regex_loop_eq None)
               (group_remove_regex_live None) fuel σ l0 l nx G El EG).
    assert (Hv : visit (remove_regex None) l σ = σ').
    { unfold visit. rewrite EG, remove_regex_null.
      by rewrite (set_group_same _ _ _ EG). }
    rewrite Hv. by destruct fuel, nx.
Qed.

Lemma remove_null_argument_witness :
  ctx_heap sample_state !! 1%positive =
    Some (GroupContext.mk (Some 1%positive) (Some 2%positive)) ∧
  group_heap sample_state !! 1%positive = Some (Group.mk "team" [alice] []) ∧
  mutt_group_context_remove_addrlist 1 (Some 1%positive) [] sample_state
    = Ok (-1) sample_state ∧
  mutt_group_context_remove_regex 1 (Some 1%positive) None sample_state
    = Ok (-1) sample_state.
Proof.
  split; [done|]. split; [done|].
  destruct (remove_null_argument 0 sample_state) as (_ & _ & H).
  exact (H 1%positive 1%positive (Some 2%positive)
           (Group.mk "team" [alice] []) eq_refl eq_refl).
Defined.

(** C3 as stated fails: ["temp"] is registered and has no addresses and no
    patterns; a remove with a null address list, or with a null pattern,
    through a context that refers to it returns -1 and leaves the group
    freed and out of the registry. *)
Lemma remove_null_argument_destroys_empty_group :
  Groups temp_state !! "temp"%string = Some 1%positive ∧
  group_heap temp_state !! 1%positive = Some (Group.mk "temp" [] []) ∧
  mutt_group_context_remove_addrlist 1 (Some 1%positive) [] temp_state
    = Ok (-1) (mkState ∅ ∅ (ctx_heap temp_state)) ∧
  mutt_group_context_remove_regex 1 (Some 1%positive) None temp_state
    = Ok (-1) (mkState ∅ ∅ (ctx_heap temp_state)).
Proof.
  split; [by vm_compute|]. split; [by vm_compute|]. split; by vm_compute.
Qed.

(** ** What every call keeps *)

Section Preserves.
Context {R : state → state → Prop} `{!Reflexive R} `{!Transitive R}.

Lemma preserves_ret {A} (a : A) : preserves R (mret a).
Proof. intros σ b σ' [= _ <-]. reflexivity. Qed.

Lemma preserves_fault {A} : preserves R (@fault A).
Proof. by intros σ b σ' E. Qed.

Lemma preserves_timeout {A} : preserves R (@timeout A).
Proof. by intros σ b σ' E. Qed.

Lemma preserves_bind {A B} (m : M A) (k : A → M B) :
  preserves R m → (∀ a, preserves R (k a)) → preserves R (m ≫= k).
Proof.
  intros Hm Hk σ b σ' E. unfold mbind, M_bind, bind in E.
  destruct (m σ) as [a σ1| |] eqn:Em; [|done|done].
  etrans; [by eapply Hm|by eapply Hk].
Qed.

Lemma preserves_readonly {A} (m : M A) :
  (∀ σ a σ', m σ = Ok a σ' → σ' = σ) → preserves R m.
Proof. intros Hm σ a σ' E. rewrite (Hm _ _ _ E). reflexivity. Qed.
End Preserves.

Lemma load_group_readonly p σ G σ' : load_group p σ = Ok G σ' → σ' = σ.
Proof. unfold load_group. repeat case_match; congruence. Qed.

Lemma load_ctx_readonly l σ n σ' : load_ctx l σ = Ok n σ' → σ' = σ.
Proof. unfold load_ctx. repeat case_match; congruence. Qed.

Lemma ctx_g_readonly l σ g σ' : ctx_g l σ = Ok g σ' → σ' = σ.
Proof.
  unfold ctx_g. munfold. destruct (load_ctx l σ) eqn:E; [|done|done].
  apply load_ctx_readonly in E. congruence.
Qed.

Lemma ctx_next_readonly l σ g σ' : ctx_next l σ = Ok g σ' → σ' = σ.
Proof.
  unfold ctx_next. munfold. destruct (load_ctx l σ) eqn:E; [|done|done].
  apply load_ctx_readonly in E. congruence.
Qed.

Lemma mutt_hash_find_readonly k σ p σ' : mutt_hash_find k σ = Ok p σ' → σ' = σ.
Proof. unfold mutt_hash_find. congruence. Qed.

Lemma empty_group_readonly g σ e σ' : empty_group g σ = Ok e σ' → σ' = σ.
Proof.
  unfold empty_group. destruct g; munfold; [|congruence].
  destruct (load_group _ σ) eqn:E; [|done|done].
  apply load_group_readonly in E. congruence.
Qed.

(** Taking a computation apart along its binds and case distinctions. *)
Ltac preserves_step :=
  match goal with
  | |- preserves _ (mret _) => apply preserves_ret
  | |- preserves _ fault => apply preserves_fault
  | |- preserves _ timeout => apply preserves_timeout
  | |- preserves _ (load_group _) => apply preserves_readonly, load_group_readonly
  | |- preserves _ (load_ctx _) => apply preserves_readonly, load_ctx_readonly
  | |- preserves _ (ctx_g _) => apply preserves_readonly, ctx_g_readonly
  | |- preserves _ (ctx_next _) => apply preserves_readonly, ctx_next_readonly
  | |- preserves _ (mutt_hash_find _) =>
      apply preserves_readonly, mutt_hash_find_readonly
  | |- preserves _ (empty_group _) =>
      apply preserves_readonly, empty_group_readonly
  | |- preserves _ (_ ≫= _) => apply preserves_bind; [|intros ?]
  | |- preserves _ (match ?x with _ => _ end) => destruct x
  end.

Ltac preserves_auto := repeat (preserves_step; try done).

Lemma same_ctx_refl : Reflexive same_ctx.
Proof. intros σ. by unfold same_ctx. Qed.
Lemma same_ctx_trans : Transitive same_ctx.
Proof. unfold same_ctx. intros σ1 σ2 σ3 H1 H2. congruence. Qed.
Lemma same_groups_refl : Reflexive same_groups.
Proof. intros σ. by unfold same_groups. Qed.
Lemma same_groups_trans : Transitive same_groups.
Proof. unfold same_groups. intros σ1 σ2 σ3 [? ?] [? ?]. split; congruence. Qed.
Lemma keeps_registry_wf_refl : Reflexive keeps_registry_wf.
Proof. intros σ. by unfold keeps_registry_wf. Qed.
Lemma keeps_registry_wf_trans : Transitive keeps_registry_wf.
Proof. unfold keeps_registry_wf. intros σ1 σ2 σ3 H1 H2 W. auto. Qed.
Lemma survivors_keep_refl {B} (f : Group.t → B) : Reflexive (survivors_keep f).
Proof. intros σ. split; [|done]. intros l G E. by exists G. Qed.
Lemma survivors_keep_trans {B} (f : Group.t → B) :
  Transitive (survivors_keep f).
Proof.
  intros σ1 σ2 σ3 [H1 S1] [H2 S2]. split; [|by etrans].
  intros l G3 E3. destruct (H2 _ _ E3) as (G2 & E2 & F2).
  destruct (H1 _ _ E2) as (G1 & E1 & F1). exists G1. split; [done|congruence].
Qed.
Lemma nothing_destroyed_refl : Reflexive nothing_destroyed.
Proof. intros σ. by split. Qed.
Lemma nothing_destroyed_trans : Transitive nothing_destroyed.
Proof.
  intros σ1 σ2 σ3 [H1 S1] [H2 S2]. split; [congruence|]. intros l Hl. auto.
Qed.

#[local] Existing Instances same_ctx_refl same_ctx_trans same_groups_refl
  same_groups_trans keeps_registry_wf_refl keeps_registry_wf_trans
  survivors_keep_refl survivors_keep_trans nothing_destroyed_refl
  nothing_destroyed_trans.

Section PreservedByFunctions.
Context {R : state → state → Prop} `{!Reflexive R} `{!Transitive R}.
Context `{RegexEngine} `{AddressLib}.

Hypothesis R_set_as : ∀ g v, preserves R (set_as g v).
Hypothesis R_set_rs : ∀ g v, preserves R (set_rs g v).
Hypothesis R_group_remove : ∀ g, preserves R (group_remove g).
Hypothesis R_store_ctx : ∀ l n, preserves R (store_ctx l n).
Hypothesis R_calloc_ctx : preserves R calloc_ctx.
Hypothesis R_free_ctx : ∀ l, preserves R (free_ctx l).

Lemma preserves_group_add_addrlist g a : preserves R (group_add_addrlist g a).
Proof. unfold group_add_addrlist. preserves_auto. Qed.

Lemma preserves_mutt_group_context_add_addrlist fuel : ∀ ctx a,
  preserves R (mutt_group_context_add_addrlist fuel ctx a).
Proof.
  induction fuel as [|fuel IH]; intros ctx a;
    cbn [mutt_group_context_add_addrlist]; preserves_auto.
  apply preserves_group_add_addrlist.
Qed.

Lemma preserves_group_remove_addrlist_loop g a :
  preserves R (group_remove_addrlist_loop g a).
Proof.
  induction a as [|x a IH]; cbn [group_remove_addrlist_loop]; preserves_auto.
Qed.

Lemma preserves_group_remove_addrlist g a :
  preserves R (group_remove_addrlist g a).
Proof.
  unfold group_remove_addrlist. preserves_auto;
    apply preserves_group_remove_addrlist_loop.
Qed.

Lemma preserves_group_remove_regex g s : preserves R (group_remove_regex g s).
Proof. unfold group_remove_regex. preserves_auto. Qed.

Lemma preserves_group_add_regex g s flags err :
  preserves R (group_add_regex g s flags err).
Proof. unfold group_add_regex. preserves_auto. Qed.

Lemma preserves_mutt_group_context_remove_addrlist_loop fuel : ∀ rc ctx a,
  preserves R (mutt_group_context_remove_addrlist_loop fuel rc ctx a).
Proof.
  induction fuel as [|fuel IH]; intros rc ctx a;
    cbn [mutt_group_context_remove_addrlist_loop]; preserves_auto.
  apply preserves_group_remove_addrlist.
Qed.

Lemma preserves_mutt_group_context_remove_regex_loop fuel : ∀ rc ctx s,
  preserves R (mutt_group_context_remove_regex_loop fuel rc ctx s).
Proof.
  induction fuel as [|fuel IH]; intros rc ctx s;
    cbn [mutt_group_context_remove_regex_loop]; preserves_auto.
  apply preserves_group_remove_regex.
Qed.

Lemma preserves_mutt_group_context_add_regex_loop fuel : ∀ rc ctx s flags err,
  preserves R (mutt_group_context_add_regex_loop fuel rc ctx s flags err).
Proof.
  induction fuel as [|fuel IH]; intros rc ctx s flags err;
    cbn [mutt_group_context_add_regex_loop]; preserves_auto.
  apply preserves_group_add_regex.
Qed.

Lemma preserves_mutt_group_context_clear_loop fuel : ∀ p,
  preserves R (mutt_group_context_clear_loop fuel p).
Proof.
  induction fuel as [|fuel IH]; intros p;
    cbn [mutt_group_context_clear_loop]; preserves_auto.
Qed.

Lemma preserves_mutt_group_context_clear fuel ctx :
  preserves R (mutt_group_context_clear fuel ctx).
Proof.
  unfold mutt_group_context_clear. preserves_auto.
  apply preserves_mutt_group_context_clear_loop.
Qed.

Lemma preserves_mutt_group_context_destroy_loop fuel : ∀ p,
  preserves R (mutt_group_context_destroy_loop fuel p).
Proof.
  induction fuel as [|fuel IH]; intros p;
    cbn [mutt_group_context_destroy_loop]; preserves_auto.
Qed.

Lemma preserves_mutt_group_context_destroy fuel ctx :
  preserves R (mutt_group_context_destroy fuel ctx).
Proof.
  unfold mutt_group_context_destroy. preserves_auto.
  apply preserves_mutt_group_context_destroy_loop.
Qed.

Lemma preserves_mutt_group_context_add_loop fuel : ∀ root c group,
  preserves R (mutt_group_context_add_loop fuel root c group).
Proof.
  induction fuel as [|fuel IH]; intros root c group;
    cbn [mutt_group_context_add_loop]; unfold read_cell, write_cell;
    preserves_auto.
Qed.

Lemma preserves_mutt_group_context_add fuel ctx group :
  preserves R (mutt_group_context_add fuel ctx group).
Proof.
  unfold mutt_group_context_add. preserves_auto.
  apply preserves_mutt_group_context_add_loop.
Qed.
End PreservedByFunctions.

Lemma set_as_inv g v σ u σ' :
  set_as g v σ = Ok u σ' →
  ∃ l G, g = Some l ∧ group_heap σ !! l = Some G ∧
         σ' = set_group l (Group.mk (Group.name G) v (Group.rs G)) σ.
Proof.
  unfold set_as. destruct g as [l|]; [|done]. munfold. unfold load_group.
  destruct (group_heap σ !! l) as [G|] eqn:E; [|done].
  unfold store_group. rewrite E. intros [= _ <-]. by exists l, G.
Qed.

Lemma set_rs_inv g v σ u σ' :
  set_rs g v σ = Ok u σ' →
  ∃ l G, g = Some l ∧ group_heap σ !! l = Some G ∧
         σ' = set_group l (Group.mk (Group.name G) (Group.as_ G) v) σ.
Proof.
  unfold set_rs. destruct g as [l|]; [|done]. munfold. unfold load_group.
  destruct (group_heap σ !! l) as [G|] eqn:E; [|done].
  unfold store_group. rewrite E. intros [= _ <-]. by exists l, G.
Qed.

Lemma group_remove_inv g σ u σ' :
  group_remove g σ = Ok u σ' →
  (g = None ∧ σ' = σ) ∨
  ∃ l G, g = Some l ∧ group_heap σ !! l = Some G ∧
         σ' = group_remove_state l G σ.
Proof.
  destruct g as [l|]; [|intros [= _ <-]; by left].
  destruct (group_heap σ !! l) as [G|] eqn:E.
  - rewrite (group_remove_live _ _ _ E). intros [= _ <-]. right. by exists l, G.
  - unfold group_remove. munfold. unfold load_group. by rewrite E.
Qed.

Lemma set_group_survivors {B} (f : Group.t → B) l G0 G σ :
  group_heap σ !! l = Some G0 → f G0 = f G →
  survivors_keep f σ (set_group l G σ).
Proof.
  intros E Hf. split; [|done]. intros x G' Ex. simpl in Ex.
  destruct (decide (l = x)) as [->|Hne].
  - rewrite lookup_insert_eq in Ex. injection Ex as <-. by exists G0.
  - rewrite lookup_insert_ne in Ex by done. by exists G'.
Qed.

Lemma group_remove_state_survivors {B} (f : Group.t → B) l G σ :
  survivors_keep f σ (group_remove_state l G σ).
Proof.
  split.
  - intros x G' Ex. simpl in Ex. apply lookup_delete_Some in Ex as [_ Ex].
    by exists G'.
  - unfold group_remove_state. simpl. case_decide; [|done].
    apply delete_subseteq.
Qed.

Lemma same_groups_survivors {B} (f : Group.t → B) σ σ' :
  same_groups σ σ' → survivors_keep f σ σ'.
Proof.
  intros [HG Hh]. split; [|by rewrite HG]. intros l G' E. rewrite Hh in E.
  by exists G'.
Qed.

Lemma same_groups_wf σ σ' : same_groups σ σ' → keeps_registry_wf σ σ'.
Proof.
  intros [HG Hh] W n l E. rewrite HG in E. rewrite Hh. by apply W.
Qed.

Lemma preserves_weaken {A} (R R' : state → state → Prop) (m : M A) :
  (∀ σ σ', R σ σ' → R' σ σ') → preserves R m → preserves R' m.
Proof. intros HR Hm σ a σ' E. by eapply HR, Hm. Qed.

(** The primitive steps under each relation. *)

Lemma same_groups_store_ctx l n : preserves same_groups (store_ctx l n).
Proof. intros σ u σ'. unfold store_ctx. case_match; [|done]. by intros [= _ <-]. Qed.

Lemma same_groups_calloc_ctx : preserves same_groups calloc_ctx.
Proof. intros σ u σ'. unfold calloc_ctx. by intros [= _ <-]. Qed.

Lemma same_groups_free_ctx l : preserves same_groups (free_ctx l).
Proof. intros σ u σ'. unfold free_ctx. case_match; [|done]. by intros [= _ <-]. Qed.

Lemma same_ctx_set_as g v : preserves same_ctx (set_as g v).
Proof. intros σ u σ' (l & G & _ & _ & ->)%set_as_inv. done. Qed.

Lemma same_ctx_set_rs g v : preserves same_ctx (set_rs g v).
Proof. intros σ u σ' (l & G & _ & _ & ->)%set_rs_inv. done. Qed.

Lemma same_ctx_group_remove g : preserves same_ctx (group_remove g).
Proof.
  intros σ u σ' [[_ ->]|(l & G & _ & _ & ->)]%group_remove_inv; done.
Qed.

Lemma wf_set_as g v : preserves keeps_registry_wf (set_as g v).
Proof.
  intros σ u σ' (l & G & _ & E & ->)%set_as_inv W.
  by apply (set_group_wf l G).
Qed.

Lemma wf_set_rs g v : preserves keeps_registry_wf (set_rs g v).
Proof.
  intros σ u σ' (l & G & _ & E & ->)%set_rs_inv W.
  by apply (set_group_wf l G).
Qed.

Lemma wf_group_remove g : preserves keeps_registry_wf (group_remove g).
Proof.
  intros σ u σ' [[_ ->]|(l & G & _ & E & ->)]%group_remove_inv W; [done|].
  by apply group_remove_state_wf.
Qed.

Lemma survivors_set_as g v :
  preserves (survivors_keep (λ G, (Group.name G, Group.rs G))) (set_as g v).
Proof.
  intros σ u σ' (l & G & _ & E & ->)%set_as_inv.
  by apply (set_group_survivors _ l G).
Qed.

Lemma survivors_set_rs g v :
  preserves (survivors_keep (λ G, (Group.name G, Group.as_ G))) (set_rs g v).
Proof.
  intros σ u σ' (l & G & _ & E & ->)%set_rs_inv.
  by apply (set_group_survivors _ l G).
Qed.

Lemma survivors_group_remove {B} (f : Group.t → B) g :
  preserves (survivors_keep f) (group_remove g).
Proof.
  intros σ u σ' [[_ ->]|(l & G & _ & E & ->)]%group_remove_inv; [reflexivity|].
  apply group_remove_state_survivors.
Qed.

Lemma nothing_destroyed_set_group l G0 G σ :
  group_heap σ !! l = Some G0 → nothing_destroyed σ (set_group l G σ).
Proof.
  intros E. split; [done|]. intros x Hx. simpl.
  destruct (decide (l = x)) as [->|Hne].
  - rewrite lookup_insert_eq. by eexists.
  - by rewrite lookup_insert_ne.
Qed.

Lemma nothing_destroyed_set_as g v : preserves nothing_destroyed (set_as g v).
Proof.
  intros σ u σ' (l & G & _ & E & ->)%set_as_inv.
  by apply (nothing_destroyed_set_group l G).
Qed.

Lemma nothing_destroyed_set_rs g v : preserves nothing_destroyed (set_rs g v).
Proof.
  intros σ u σ' (l & G & _ & E & ->)%set_rs_inv.
  by apply (nothing_destroyed_set_group l G).
Qed.

Lemma mutt_pattern_group_inv k σ p σ' :
  mutt_pattern_group k σ = Ok p σ' →
  (σ' = σ ∧ (k = None ∨ ∃ n l, k = Some n ∧ Groups σ !! n = Some l)) ∨
  ∃ n, k = Some n ∧ Groups σ !! n = None ∧
       σ' = mkState (<[n:=fresh (dom (group_heap σ))]> (Groups σ))
              (<[fresh (dom (group_heap σ)):=Group.mk n [] []]> (group_heap σ))
              (ctx_heap σ).
Proof.
  destruct k as [n|]; [|intros [= _ <-]; left; split; [done|by left]].
  destruct (Groups σ !! n) as [l|] eqn:E.
  - rewrite (mutt_pattern_group_found _ _ _ E). intros [= _ <-]. left.
    split; [done|]. right. by exists n, l.
  - rewrite (mutt_pattern_group_new _ _ E). cbv zeta. intros [= _ <-].
    right. by exists n.
Qed.

Lemma same_ctx_mutt_pattern_group k : preserves same_ctx (mutt_pattern_group k).
Proof.
  intros σ p σ' [[-> _]|(n & _ & _ & ->)]%mutt_pattern_group_inv; done.
Qed.

Lemma wf_mutt_pattern_group k : preserves keeps_registry_wf (mutt_pattern_group k).
Proof.
  intros σ p σ' E W. destruct k as [n|]; [|by injection E as _ <-].
  destruct (mutt_pattern_group_spec σ n W) as (l & σ1 & E1 & W1 & _).
  rewrite E1 in E. by injection E as _ <-.
Qed.

Lemma mutt_group_match_readonly `{RegexEngine} g s σ r σ' :
  mutt_group_match g s σ = Ok r σ' → σ' = σ.
Proof.
  unfold mutt_group_match. destruct g as [l|], s as [s|]; munfold;
    try (by intros [= _ <-]).
  destruct (load_group (Some l) σ) as [G σ1| |] eqn:E; [|done|done].
  apply load_group_readonly in E as ->.
  repeat case_match; by intros [= _ <-].
Qed.

(** X1.  Every public function of [group.c] keeps the registry
    well-formed: if each entry of [Groups] points to an allocated group
    that carries the entry's key as its name before the call, and the
    call returns, the same holds afterwards. *)
Theorem registry_wf_invariant `{RegexEngine} `{AddressLib} (σ σ' : state) :
  registry_wf σ →
  (∀ k p, mutt_pattern_group k σ = Ok p σ' → registry_wf σ') ∧
  (∀ fuel ctx r, mutt_group_context_clear fuel ctx σ = Ok r σ' →
     registry_wf σ') ∧
  (∀ fuel ctx group r, mutt_group_context_add fuel ctx group σ = Ok r σ' →
     registry_wf σ') ∧
  (∀ fuel ctx r, mutt_group_context_destroy fuel ctx σ = Ok r σ' →
     registry_wf σ') ∧
  (∀ fuel ctx a r, mutt_group_context_add_addrlist fuel ctx a σ = Ok r σ' →
     registry_wf σ') ∧
  (∀ fuel ctx a r, mutt_group_context_remove_addrlist fuel ctx a σ = Ok r σ' →
     registry_wf σ') ∧
  (∀ fuel ctx s flags err r,
     mutt_group_context_add_regex fuel ctx s flags err σ = Ok r σ' →
     registry_wf σ') ∧
  (∀ fuel ctx s r, mutt_group_context_remove_regex fuel ctx s σ = Ok r σ' →
     registry_wf σ').
Proof.
  intros W.
  assert (Hs : ∀ l n, preserves keeps_registry_wf (store_ctx l n)).
  { intros l n. eapply preserves_weaken; [apply same_groups_wf|].
    apply same_groups_store_ctx. }
  assert (Hc : preserves keeps_registry_wf calloc_ctx).
  { eapply preserves_weaken; [apply same_groups_wf|].
    apply same_groups_calloc_ctx. }
  assert (Hf : ∀ l, preserves keeps_registry_wf (free_ctx l)).
  { intros l. eapply preserves_weaken; [apply same_groups_wf|].
    apply same_groups_free_ctx. }
  split; [|split; [|split; [|split; [|split; [|split; [|split]]]]]].
  - intros k p E. by apply (wf_mutt_pattern_group k σ p σ').
  - intros fuel ctx r E.
    by apply (preserves_mutt_group_context_clear wf_group_remove Hf
                fuel ctx σ r σ').
  - intros fuel ctx group r E.
    by apply (preserves_mutt_group_context_add Hs Hc fuel ctx group σ r σ').
  - intros fuel ctx r E.
    by apply (preserves_mutt_group_context_destroy Hf fuel ctx σ r σ').
  - intros fuel ctx a r E.
    by apply (preserves_mutt_group_context_add_addrlist wf_set_as
                fuel ctx a σ r σ').
  - intros fuel ctx a r E.
    by apply (preserves_mutt_group_context_remove_addrlist_loop wf_set_as
                wf_group_remove fuel 0 ctx a σ r σ').
  - intros fuel ctx s flags err r E.
    by apply (preserves_mutt_group_context_add_regex_loop wf_set_rs
                fuel 0 ctx s flags err σ r σ').
  - intros fuel ctx s r E.
    by apply (preserves_mutt_group_context_remove_regex_loop wf_set_rs
                wf_group_remove fuel 0 ctx s σ r σ').
Qed.

Lemma registry_wf_invariant_witness :
  registry_wf sample_state ∧
  ∃ σ',
    mutt_group_context_remove_addrlist 2 (Some 1%positive) [alice] sample_state
      = Ok 0 σ' ∧
    registry_wf σ'.
Proof.
  split; [apply sample_state_wf|]. eexists. split; [by vm_compute|].
  destruct (@registry_wf_invariant sample_engine keep_all_xrefs sample_state
              (mkState (<["vip"%string:=2%positive]> ∅)
                 (<[2%positive:=Group.mk "vip" [] [Regex.mk "^boss@" 0]]> ∅)
                 (ctx_heap sample_state)) sample_state_wf)
    as (_ & _ & _ & _ & _ & Hrm & _).
  apply (Hrm 2%nat (Some 1%positive) [alice] 0). by vm_compute.
Defined.

(** X2.  The functions that work on groups never write to a context
    node: after [mutt_pattern_group], the context-level add and remove
    functions for addresses and patterns, and [mutt_group_match], every
    [struct GroupContext] is as it was, also when a group was destroyed
    on the way. *)
Theorem context_nodes_untouched `{RegexEngine} `{AddressLib} (σ σ' : state) :
  (∀ k p, mutt_pattern_group k σ = Ok p σ' → ctx_heap σ' = ctx_heap σ) ∧
  (∀ fuel ctx a r, mutt_group_context_add_addrlist fuel ctx a σ = Ok r σ' →
     ctx_heap σ' = ctx_heap σ) ∧
  (∀ fuel ctx a r, mutt_group_context_remove_addrlist fuel ctx a σ = Ok r σ' →
     ctx_heap σ' = ctx_heap σ) ∧
  (∀ fuel ctx s flags err r,
     mutt_group_context_add_regex fuel ctx s flags err σ = Ok r σ' →
     ctx_heap σ' = ctx_heap σ) ∧
  (∀ fuel ctx s r, mutt_group_context_remove_regex fuel ctx s σ = Ok r σ' →
     ctx_heap σ' = ctx_heap σ) ∧
  (∀ g s r, mutt_group_match g s σ = Ok r σ' → ctx_heap σ' = ctx_heap σ).
Proof.
  split; [|split; [|split; [|split; [|split]]]].
  - intros k p E. by apply (same_ctx_mutt_pattern_group k σ p σ').
  - intros fuel ctx a r E.
    by apply (preserves_mutt_group_context_add_addrlist same_ctx_set_as
                fuel ctx a σ r σ').
  - intros fuel ctx a r E.
    by apply (preserves_mutt_group_context_remove_addrlist_loop same_ctx_set_as
                same_ctx_group_remove fuel 0 ctx a σ r σ').
  - intros fuel ctx s flags err r E.
    by apply (preserves_mutt_group_context_add_regex_loop same_ctx_set_rs
                fuel 0 ctx s flags err σ r σ').
  - intros fuel ctx s r E.
    by apply (preserves_mutt_group_context_remove_regex_loop same_ctx_set_rs
                same_ctx_group_remove fuel 0 ctx s σ r σ').
  - intros g s r E. by rewrite (mutt_group_match_readonly _ _ _ _ _ E).
Qed.

Lemma context_nodes_untouched_witness :
  ∃ σ',
    mutt_group_context_remove_regex 2 (Some 1%positive) (Some "x"%string)
      two_group_state = Ok (-1) σ' ∧
    group_heap σ' = ∅ ∧
    ctx_heap σ' = ctx_heap two_group_state.
Proof.
  eexists. split; [by vm_compute|]. split; [done|].
  destruct (@context_nodes_untouched sample_engine keep_all_xrefs
              two_group_state (mkState ∅ ∅ (ctx_heap two_group_state)))
    as (_ & _ & _ & _ & Hrm & _).
  apply (Hrm 2%nat (Some 1%positive) (Some "x"%string) (-1)). by vm_compute.
Defined.

(** X3.  The functions that work on a context list only never touch the
    registry or a group: after [mutt_group_context_add] and
    [mutt_group_context_destroy] the table [Groups] and every group are as
    they were, whatever the list looks like.  [mutt_group_match] changes
    nothing at all. *)
Theorem groups_untouched `{RegexEngine} (σ σ' : state) :
  (∀ fuel ctx group r, mutt_group_context_add fuel ctx group σ = Ok r σ' →
     Groups σ' = Groups σ ∧ group_heap σ' = group_heap σ) ∧
  (∀ fuel ctx r, mutt_group_context_destroy fuel ctx σ = Ok r σ' →
     Groups σ' = Groups σ ∧ group_heap σ' = group_heap σ) ∧
  (∀ g s r, mutt_group_match g s σ = Ok r σ' → σ' = σ).
Proof.
  split; [|split].
  - intros fuel ctx group r E.
    by apply (preserves_mutt_group_context_add same_groups_store_ctx
                same_groups_calloc_ctx fuel ctx group σ r σ').
  - intros fuel ctx r E.
    by apply (preserves_mutt_group_context_destroy same_groups_free_ctx
                fuel ctx σ r σ').
  - intros g s r E. by apply (mutt_group_match_readonly g s σ r σ').
Qed.

Lemma groups_untouched_witness :
  ∃ r σ',
    mutt_group_context_add 2 (Some (Some 1%positive)) None sample_state
      = Ok r σ' ∧
    Groups σ' = Groups sample_state ∧ group_heap σ' = group_heap sample_state.
Proof.
  destruct (mutt_group_context_add 2 (Some (Some 1%positive)) None sample_state)
    as [r σ'| |] eqn:E; [|by vm_compute in E|by vm_compute in E].
  exists r, σ'. split; [done|].
  destruct (@groups_untouched sample_engine sample_state σ') as (Hadd & _).
  by apply (Hadd 2%nat (Some (Some 1%positive)) None r).
Defined.

(** X4.  Apart from [mutt_pattern_group] no function makes a group or a
    registry entry, and each function changes only its own kind of
    member.  After the context-level address functions every group that
    is allocated was allocated before, at the same location, with the
    same name and the same patterns; after the context-level pattern
    functions, with the same name and the same addresses; after
    [mutt_group_context_clear], with the same name.  In each case the
    registry afterwards is contained in the registry before. *)
Theorem survivors_keep_other_members `{RegexEngine} `{AddressLib}
    (σ σ' : state) :
  (∀ fuel ctx a r, mutt_group_context_add_addrlist fuel ctx a σ = Ok r σ' →
     survivors_keep (λ G, (Group.name G, Group.rs G)) σ σ') ∧
  (∀ fuel ctx a r, mutt_group_context_remove_addrlist fuel ctx a σ = Ok r σ' →
     survivors_keep (λ G, (Group.name G, Group.rs G)) σ σ') ∧
  (∀ fuel ctx s flags err r,
     mutt_group_context_add_regex fuel ctx s flags err σ = Ok r σ' →
     survivors_keep (λ G, (Group.name G, Group.as_ G)) σ σ') ∧
  (∀ fuel ctx s r, mutt_group_context_remove_regex fuel ctx s σ = Ok r σ' →
     survivors_keep (λ G, (Group.name G, Group.as_ G)) σ σ') ∧
  (∀ fuel ctx r, mutt_group_context_clear fuel ctx σ = Ok r σ' →
     survivors_keep Group.name σ σ').
Proof.
  split; [|split; [|split; [|split]]].
  - intros fuel ctx a r E.
    by apply (preserves_mutt_group_context_add_addrlist survivors_set_as
                fuel ctx a σ r σ').
  - intros fuel ctx a r E.
    by apply (preserves_mutt_group_context_remove_addrlist_loop
                survivors_set_as (survivors_group_remove _) fuel 0 ctx a σ r σ').
  - intros fuel ctx s flags err r E.
    by apply (preserves_mutt_group_context_add_regex_loop survivors_set_rs
                fuel 0 ctx s flags err σ r σ').
  - intros fuel ctx s r E.
    by apply (preserves_mutt_group_context_remove_regex_loop survivors_set_rs
                (survivors_group_remove _) fuel 0 ctx s σ r σ').
  - intros fuel ctx r E.
    by apply (preserves_mutt_group_context_clear (survivors_group_remove _)
                (λ l, preserves_weaken _ _ _ (same_groups_survivors _)
                        (same_groups_free_ctx l)) fuel ctx σ r σ').
Qed.

Lemma survivors_keep_other_members_witness :
  ∃ σ',
    mutt_group_context_remove_addrlist 2 (Some 1%positive) [alice] sample_state
      = Ok 0 σ' ∧
    survivors_keep (λ G, (Group.name G, Group.rs G)) sample_state σ'.
Proof.
  destruct (mutt_group_context_remove_addrlist 2 (Some 1%positive) [alice]
              sample_state) as [r σ'| |] eqn:E;
    [|by vm_compute in E|by vm_compute in E].
  assert (r = 0) as -> by (vm_compute in E; congruence).
  exists σ'. split; [done|].
  destruct (@survivors_keep_other_members sample_engine keep_all_xrefs
              sample_state σ') as (_ & Hrm & _).
  by apply (Hrm 2%nat (Some 1%positive) [alice] 0).
Defined.

(** X5.  Adding never destroys: after [mutt_group_context_add_addrlist] and
    after [mutt_group_context_add_regex], also when the latter fails, the
    table [Groups] is as it was and every group that was allocated still
    is. *)
Theorem add_destroys_nothing `{RegexEngine} `{AddressLib} (σ σ' : state) :
  (∀ fuel ctx a r, mutt_group_context_add_addrlist fuel ctx a σ = Ok r σ' →
     Groups σ' = Groups σ ∧
     ∀ l, is_Some (group_heap σ !! l) → is_Some (group_heap σ' !! l)) ∧
  (∀ fuel ctx s flags err r,
     mutt_group_context_add_regex fuel ctx s flags err σ = Ok r σ' →
     Groups σ' = Groups σ ∧
     ∀ l, is_Some (group_heap σ !! l) → is_Some (group_heap σ' !! l)).
Proof.
  split.
  - intros fuel ctx a r E.
    by apply (preserves_mutt_group_context_add_addrlist
                nothing_destroyed_set_as fuel ctx a σ r σ').
  - intros fuel ctx s flags err r E.
    by apply (preserves_mutt_group_context_add_regex_loop
                nothing_destroyed_set_rs fuel 0 ctx s flags err σ r σ').
Qed.

Lemma add_destroys_nothing_witness :
  ∃ r σ',
    @mutt_group_context_add_regex sample_engine 2 (Some 1%positive)
      (Some "^ceo@"%string) 0 ""%string sample_state = Ok r σ' ∧
    Groups σ' = Groups sample_state.
Proof.
  destruct (@mutt_group_context_add_regex sample_engine 2 (Some 1%positive)
              (Some "^ceo@"%string) 0 ""%string sample_state)
    as [r σ'| |] eqn:E; [|by vm_compute in E|by vm_compute in E].
  exists r, σ'. split; [done|].
  destruct (@add_destroys_nothing sample_engine keep_all_xrefs sample_state σ')
    as (_ & Hrx).
  by destruct (Hrx 2%nat (Some 1%positive) (Some "^ceo@"%string) 0
                 ""%string r E).
Defined.

(** ** Creating and destroying a group *)

(** X6.  Creating a group and destroying it again is a round trip: for a
    name that is not registered, [mutt_pattern_group] followed by
    [group_remove] of the group it returned gives back exactly the state
    before, registry and heap. *)
Theorem create_then_destroy_restores (σ : state) (n : string) :
  Groups σ !! n = None →
  ∃ l σ1,
    mutt_pattern_group (Some n) σ = Ok (Some l) σ1 ∧
    group_heap σ !! l = None ∧
    group_heap σ1 !! l = Some (Group.mk n [] []) ∧
    group_remove (Some l) σ1 = Ok tt σ.
Proof.
  intros E. rewrite (mutt_pattern_group_new _ _ E). cbv zeta.
  pose proof (fresh_group_unallocated σ) as Hl.
  set (l := fresh (dom (group_heap σ))) in *.
  eexists _, _. split; [reflexivity|]. split; [done|].
  assert (El : <[l:=Group.mk n [] []]> (group_heap σ) !! l =
               Some (Group.mk n [] [])) by apply lookup_insert_eq.
  split; [done|].
  rewrite (group_remove_live _ l (Group.mk n [] [])) by done.
  unfold group_remove_state. simpl. rewrite lookup_insert_eq.
  rewrite decide_True by done.
  rewrite delete_insert_id by done. rewrite delete_insert_id by done.
  by destruct σ.
Qed.

Lemma create_then_destroy_restores_witness :
  Groups sample_state !! "temp"%string = None ∧
  (l ← mutt_pattern_group (Some "temp"%string); group_remove l) sample_state =
    Ok tt sample_state.
Proof.
  split; [done|].
  destruct (create_then_destroy_restores sample_state "temp" eq_refl)
    as (l & σ1 & E1 & _ & _ & E2).
  unfold mbind, M_bind, bind. by rewrite E1.
Defined.

(** X7.  A destroyed group does not come back.  In a well-formed registry
    [group_remove] of the group registered as [n] leaves [n] unregistered
    and the group freed, whatever addresses and patterns it had; resolving
    [n] again then allocates and registers a group with no addresses and
    no patterns. *)
Theorem destroy_then_resolve_is_fresh (σ : state) (n : string) (l : loc) :
  registry_wf σ →
  Groups σ !! n = Some l →
  ∃ σ1 l' σ2,
    group_remove (Some l) σ = Ok tt σ1 ∧
    Groups σ1 !! n = None ∧
    group_heap σ1 !! l = None ∧
    mutt_pattern_group (Some n) σ1 = Ok (Some l') σ2 ∧
    Groups σ2 !! n = Some l' ∧
    group_heap σ2 !! l' = Some (Group.mk n [] []).
Proof.
  intros W E. destruct (W _ _ E) as (G & EG & <-).
  rewrite (group_remove_live _ _ _ EG).
  set (σ1 := group_remove_state l G σ).
  assert (E1 : Groups σ1 !! Group.name G = None).
  { unfold σ1, group_remove_state. simpl. rewrite decide_True by done.
    apply lookup_delete_eq. }
  exists σ1. eexists _, _. split; [reflexivity|]. split; [done|].
  split; [apply lookup_delete_eq|].
  rewrite (mutt_pattern_group_new _ _ E1). cbv zeta.
  split; [reflexivity|]. simpl. by rewrite !lookup_insert_eq.
Qed.

Lemma destroy_then_resolve_is_fresh_witness :
  registry_wf sample_state ∧
  Groups sample_state !! "team"%string = Some 1%positive ∧
  ∃ σ2,
    (group_remove (Some 1%positive);; mutt_pattern_group (Some "team"%string))
      sample_state = Ok (Some 3%positive) σ2 ∧
    group_heap σ2 !! 3%positive = Some (Group.mk "team" [] []).
Proof.
  split; [apply sample_state_wf|]. split; [done|].
  destruct (destroy_then_resolve_is_fresh sample_state "team" 1%positive
              sample_state_wf eq_refl)
    as (σ1 & l' & σ2 & E1 & _ & _ & E2 & _ & E3).
  assert (l' = 3%positive) as ->.
  { vm_compute in E1. injection E1 as <-. vm_compute in E2.
    by injection E2 as <- _. }
  exists σ2. split; [|done]. unfold mbind, M_bind, bind.
  replace (group_remove (Some 1%positive) sample_state) with (Ok tt σ1)
    by (symmetry; exact E1).
  exact E2.
Defined.

(** ** The add loops *)

Lemma mutt_group_context_add_addrlist_null_list `{AddressLib} ns :
  ∀ fuel root σ,
    is_ctx (ctx_heap σ) root ns → (length ns ≤ fuel)%nat →
    mutt_group_context_add_addrlist fuel root [] σ = Ok tt σ.
Proof.
  induction ns as [|[l0 g] ns IH]; intros fuel root σ Hc Hf; simpl in Hc.
  - subst root. by destruct fuel.
  - destruct Hc as [-> (nx & El & Hr)].
    destruct fuel as [|fuel]; [simpl in Hf; lia|].
    simpl. munfold. rewrite (ctx_g_live _ _ _ El). simpl.
    assert (Hg : group_add_addrlist g [] σ = Ok tt σ) by (by destruct g).
    rewrite Hg, (ctx_next_live _ _ _ El). simpl.
    apply (IH fuel nx σ); [|simpl in Hf; lia].
    eapply is_ctx_mono; [|exact Hr]. apply delete_subseteq.
Qed.

Lemma mutt_group_context_add_addrlist_all `{AddressLib} a ns :
  a ≠ [] →
  ∀ fuel root σ,
    is_ctx (ctx_heap σ) root ns →
    NoDup (group_locs ns) →
    (∀ l, l ∈ group_locs ns → is_Some (group_heap σ !! l)) →
    (length ns ≤ fuel)%nat →
    ∃ σ',
      mutt_group_context_add_addrlist fuel root a σ = Ok tt σ' ∧
      Groups σ' = Groups σ ∧
      ctx_heap σ' = ctx_heap σ ∧
      (∀ l G, l ∈ group_locs ns → group_heap σ !! l = Some G →
         group_heap σ' !! l = Some (add_addresses a G)) ∧
      (∀ l, l ∉ group_locs ns → group_heap σ' !! l = group_heap σ !! l).
Proof.
  intros Ha.
  induction ns as [|[l0 g] ns IH]; intros fuel root σ Hc Hnd Hlive Hf;
    simpl in Hc.
  - subst root. exists σ. split; [by destruct fuel|]. repeat split; try done.
    intros l G Hl. by apply elem_of_nil in Hl.
  - destruct Hc as [-> (nx & El & Hr)].
    destruct fuel as [|fuel]; [simpl in Hf; lia|].
    assert (Hf' : (length ns ≤ fuel)%nat) by (simpl in Hf; lia).
    assert (Hr' : is_ctx (ctx_heap σ) nx ns).
    { eapply is_ctx_mono; [|exact Hr]. apply delete_subseteq. }
    destruct g as [gl|].
    + rewrite group_locs_cons_Some in Hnd, Hlive.
      apply NoDup_cons in Hnd as [Hgl Hnd].
      destruct (Hlive gl) as [G EG]; [by left|].
      set (σ1 := set_group gl (add_addresses a G) σ).
      destruct (IH fuel nx σ1) as (σ' & E & HG & Hcx & Hin & Hout);
        [done|done| |done|].
      { intros x Hx. unfold σ1. simpl. rewrite lookup_insert_ne; [|by intros ->].
        apply Hlive. by right. }
      exists σ'. split; [|split; [done|split; [done|split]]].
      * simpl. munfold. rewrite (ctx_g_live _ _ _ El). simpl.
        rewrite (group_add_addrlist_live _ _ _ _ EG Ha).
        fold (add_addresses a G). fold σ1.
        assert (El1 : ctx_heap σ1 !! l0 = Some (GroupContext.mk (Some gl) nx))
          by done.
        by rewrite (ctx_next_live _ _ _ El1).
      * intros l Gl Hl EGl. rewrite group_locs_cons_Some in Hl.
        apply elem_of_cons in Hl as [->|Hl].
        -- rewrite Hout by done. unfold σ1. simpl. rewrite lookup_insert_eq.
           congruence.
        -- apply Hin; [done|]. unfold σ1. simpl.
           rewrite lookup_insert_ne; [done|]. by intros ->.
      * intros l Hl. rewrite group_locs_cons_Some in Hl.
        rewrite Hout; [|intros Hx; apply Hl; by right].
        unfold σ1. simpl. rewrite lookup_insert_ne; [done|].
        intros ->. apply Hl. by left.
    + destruct (IH fuel nx σ) as (σ' & E & HG & Hcx & Hin & Hout); try done.
      exists σ'. split; [|done].
      simpl. munfold. rewrite (ctx_g_live _ _ _ El). simpl.
      by rewrite (ctx_next_live _ _ _ El).
Qed.

(** X8.  On a context list whose group pointers are null or distinct
    allocated groups, [mutt_group_context_add_addrlist] with a non-empty
    list returns and has appended to every referenced group what
    [group_add_addrlist] appends to it; null group pointers are skipped,
    and the registry, the context nodes and all other groups are as
    before.  With an empty (null) list it returns on any context list,
    allocated groups or not, and changes nothing. *)
Theorem mutt_group_context_add_addrlist_fanout `{AddressLib}
    (fuel : nat) (root : ptr) (ns : list (loc * ptr)) (σ : state) :
  is_ctx (ctx_heap σ) root ns →
  (length ns ≤ fuel)%nat →
  mutt_group_context_add_addrlist fuel root [] σ = Ok tt σ ∧
  (∀ a, a ≠ [] →
     NoDup (group_locs ns) →
     (∀ l, l ∈ group_locs ns → is_Some (group_heap σ !! l)) →
     ∃ σ',
       mutt_group_context_add_addrlist fuel root a σ = Ok tt σ' ∧
       Groups σ' = Groups σ ∧
       ctx_heap σ' = ctx_heap σ ∧
       (∀ l G, l ∈ group_locs ns → group_heap σ !! l = Some G →
          group_heap σ' !! l = Some (add_addresses a G)) ∧
       (∀ l, l ∉ group_locs ns → group_heap σ' !! l = group_heap σ !! l)).
Proof.
  intros Hc Hf. split.
  - by apply (mutt_group_context_add_addrlist_null_list ns).
  - intros a Ha Hnd Hlive.
    by apply (mutt_group_context_add_addrlist_all a ns).
Qed.

Lemma mutt_group_context_add_addrlist_fanout_witness :
  is_ctx (ctx_heap sample_state) (Some 1%positive) sample_ctx ∧
  (length sample_ctx ≤ 2)%nat ∧
  ∃ σ',
    @mutt_group_context_add_addrlist by_mailbox_xrefs 2 (Some 1%positive)
      [bob; alice] sample_state = Ok tt σ' ∧
    group_heap σ' !! 1%positive = Some (Group.mk "team" [alice; bob] []) ∧
    group_heap σ' !! 2%positive =
      Some (Group.mk "vip" [bob; alice] [Regex.mk "^boss@" 0]).
Proof.
  split; [apply sample_ctx_is_ctx|]. split; [simpl; lia|].
  destruct (@mutt_group_context_add_addrlist_fanout by_mailbox_xrefs 2
              (Some 1%positive) sample_ctx sample_state sample_ctx_is_ctx)
    as (_ & Hadd); [simpl; lia|].
  destruct (Hadd [bob; alice]) as (σ' & E & _ & _ & Hin & _);
    [done|apply sample_ctx_groups_NoDup|apply sample_ctx_groups_live|].
  exists σ'. split; [done|]. split.
  - apply (Hin 1%positive (Group.mk "team" [alice] [])); [|done].
    unfold sample_ctx. rewrite group_locs_cons_Some. by left.
  - apply (Hin 2%positive (Group.mk "vip" [] [Regex.mk "^boss@" 0])); [|done].
    unfold sample_ctx. rewrite !group_locs_cons_Some. right. by left.
Defined.

Lemma mutt_group_context_add_regex_all `{RegexEngine} s flags err ls :
  regcomp s flags = Compiled →
  ∀ ns fuel root σ,
    is_ctx (ctx_heap σ) root ns →
    ns.*2 = Some <$> ls →
    NoDup ls →
    (∀ l, l ∈ ls → is_Some (group_heap σ !! l)) →
    (length ns ≤ fuel)%nat →
    ∃ σ',
      mutt_group_context_add_regex_loop fuel 0 root (Some s) flags err σ
        = Ok (0, err) σ' ∧
      Groups σ' = Groups σ ∧
      ctx_heap σ' = ctx_heap σ ∧
      (∀ l G, l ∈ ls → group_heap σ !! l = Some G →
         group_heap σ' !! l = Some (add_pattern s flags G)) ∧
      (∀ l, l ∉ ls → group_heap σ' !! l = group_heap σ !! l).
Proof.
  intros Hd.
  induction ls as [|gl ls IH]; intros ns fuel root σ Hc Hns Hnd Hlive Hf.
  - destruct ns; [|done]. simpl in Hc. subst root. exists σ.
    split; [by destruct fuel|]. repeat split; try done.
    intros l G Hl. by apply elem_of_nil in Hl.
  - destruct ns as [|[l0 g] ns]; [done|]. simpl in Hns.
    injection Hns as -> Hns. simpl in Hc. destruct Hc as [-> (nx & El & Hr)].
    destruct fuel as [|fuel]; [simpl in Hf; lia|].
    apply NoDup_cons in Hnd as [Hgl Hnd].
    destruct (Hlive gl) as [G EG]; [by left|].
    set (σ1 := set_group gl (add_pattern s flags G) σ).
    destruct (IH ns fuel nx σ1) as (σ' & E & HG & Hcx & Hin & Hout);
      [|done|done| |simpl in Hf; lia|].
    { eapply is_ctx_mono; [|exact Hr]. apply delete_subseteq. }
    { intros x Hx. unfold σ1. simpl. rewrite lookup_insert_ne; [|by intros ->].
      apply Hlive. by right. }
    exists σ'. split; [|split; [done|split; [done|split]]].
    + simpl. munfold. rewrite (ctx_g_live _ _ _ El). simpl.
      rewrite (group_add_regex_compiled _ _ G) by done.
      fold (add_pattern s flags G). fold (set_group gl (add_pattern s flags G) σ).
      fold σ1.
      assert (El1 : ctx_heap σ1 !! l0 = Some (GroupContext.mk (Some gl) nx))
        by done.
      by rewrite (ctx_next_live _ _ _ El1).
    + intros l Gl Hl EGl. apply elem_of_cons in Hl as [->|Hl].
      * rewrite Hout by done. unfold σ1. simpl. rewrite lookup_insert_eq.
        congruence.
      * apply Hin; [done|]. unfold σ1. simpl.
        rewrite lookup_insert_ne; [done|]. by intros ->.
    + intros l Hl. rewrite Hout; [|intros Hx; apply Hl; by right].
      unfold σ1. simpl. rewrite lookup_insert_ne; [done|].
      intros ->. apply Hl. by left.
Qed.

(** X9.  When the pattern compiles, [mutt_group_context_add_regex] on a
    context list of distinct allocated groups returns 0 and leaves [err]
    alone, and every group of the list has the pattern at the end of its
    pattern list; addresses, names, the registry, the context nodes and
    all other groups are as before. *)
Theorem mutt_group_context_add_regex_fanout `{RegexEngine}
    (fuel : nat) (root : ptr) (ns : list (loc * ptr)) (ls : list loc)
    (s : string) (flags : Z) (err : Buffer) (σ : state) :
  regcomp s flags = Compiled →
  is_ctx (ctx_heap σ) root ns →
  ns.*2 = Some <$> ls →
  NoDup ls →
  (∀ l, l ∈ ls → is_Some (group_heap σ !! l)) →
  (length ns ≤ fuel)%nat →
  ∃ σ',
    mutt_group_context_add_regex fuel root (Some s) flags err σ
      = Ok (0, err) σ' ∧
    Groups σ' = Groups σ ∧
    ctx_heap σ' = ctx_heap σ ∧
    (∀ l G, l ∈ ls → group_heap σ !! l = Some G →
       group_heap σ' !! l =
         Some (Group.mk (Group.name G) (Group.as_ G)
                        (Group.rs G ++ [Regex.mk s flags]))) ∧
    (∀ l, l ∉ ls → group_heap σ' !! l = group_heap σ !! l).
Proof.
  intros Hd Hc Hns Hnd Hlive Hf.
  by apply (mutt_group_context_add_regex_all s flags err ls Hd ns).
Qed.

Lemma mutt_group_context_add_regex_fanout_witness :
  @regcomp sample_engine "^ceo@" 0 = Compiled ∧
  is_ctx (ctx_heap sample_state) (Some 1%positive) sample_ctx ∧
  ∃ σ',
    @mutt_group_context_add_regex sample_engine 2 (Some 1%positive)
      (Some "^ceo@"%string) 0 ""%string sample_state = Ok (0, ""%string) σ' ∧
    group_heap σ' !! 2%positive =
      Some (Group.mk "vip" [] [Regex.mk "^boss@" 0; Regex.mk "^ceo@" 0]).
Proof.
  split; [done|]. split; [apply sample_ctx_is_ctx|].
  destruct (@mutt_group_context_add_regex_fanout sample_engine 2
              (Some 1%positive) sample_ctx [1%positive; 2%positive]
              "^ceo@" 0 "" sample_state eq_refl sample_ctx_is_ctx eq_refl
              sample_ctx_groups_NoDup sample_ctx_groups_live)
    as (σ' & E & _ & _ & Hin & _); [simpl; lia|].
  exists σ'. split; [done|].
  apply (Hin 2%positive (Group.mk "vip" [] [Regex.mk "^boss@" 0])); [|done].
  right. by left.
Defined.

(** ** Matching after an addition *)

Lemma mutt_group_match_live `{RegexEngine} σ l G s :
  group_heap σ !! l = Some G →
  mutt_group_match (Some l) (Some s) σ =
    Ok (existsb (probe_hits s) (all_probes G),
        upto_first (probe_hits s) (all_probes G)) σ.
Proof.
  intros E. unfold mutt_group_match, all_probes. munfold.
  rewrite (load_group_live _ _ _ E), mutt_regexlist_match_spec.
  destruct (existsb (probe_hits s) (ProbeRegex <$> Group.rs G)) eqn:Er.
  - rewrite existsb_app, Er. simpl. by rewrite upto_first_app_hit.
  - rewrite match_addresses_spec, existsb_app, Er. simpl.
    by rewrite upto_first_app_miss, (upto_first_miss _ _ Er).
Qed.

Lemma all_probes_add_addresses `{AddressLib} a G :
  all_probes (add_addresses a G) =
    all_probes G ++
    (ProbeAddress <$> omap Address.mailbox
       (mutt_remove_xrefs (Group.as_ G) (mutt_addr_copy_list a))).
Proof.
  unfold all_probes, add_addresses. simpl.
  by rewrite omap_app, fmap_app, app_assoc.
Qed.

(** X10.  Adding addresses only adds matches.  After [group_add_addrlist]
    on an allocated group with a non-empty list, a candidate that matched
    before still matches, and what [mutt_group_match] evaluates for it is
    the same; a candidate matches afterwards exactly when it matched
    before or equals, after case folding, the mailbox of an address that
    was appended. *)
Theorem group_add_addrlist_extends_matches `{RegexEngine} `{AddressLib}
    (σ : state) (l : loc) (G : Group.t) (a : list Address.t) (s : string) :
  group_heap σ !! l = Some G → a ≠ [] →
  ∃ σ' b t b' t',
    group_add_addrlist (Some l) a σ = Ok tt σ' ∧
    mutt_group_match (Some l) (Some s) σ = Ok (b, t) σ ∧
    mutt_group_match (Some l) (Some s) σ' = Ok (b', t') σ' ∧
    (b = true → b' = true ∧ t' = t) ∧
    (b' = true ↔
       b = true ∨
       ∃ x m, x ∈ mutt_remove_xrefs (Group.as_ G) (mutt_addr_copy_list a) ∧
              Address.mailbox x = Some m ∧ ci_equal s m).
Proof.
  intros E Ha.
  set (σ' := set_group l (add_addresses a G) σ).
  assert (E' : group_heap σ' !! l = Some (add_addresses a G)).
  { unfold σ'. simpl. by rewrite lookup_insert_eq. }
  exists σ'. eexists _, _, _, _.
  split; [by apply group_add_addrlist_live|].
  split; [by apply mutt_group_match_live|].
  split; [by apply mutt_group_match_live|].
  rewrite all_probes_add_addresses, existsb_app. split.
  - intros Hb. rewrite Hb. split; [done|]. by rewrite upto_first_app_hit.
  - rewrite orb_true_iff, existsb_address_probes. tauto.
Qed.

Lemma group_add_addrlist_extends_matches_witness :
  group_heap sample_state !! 1%positive = Some (Group.mk "team" [alice] []) ∧
  [bob] ≠ [] ∧
  ∃ σ' t t',
    @group_add_addrlist by_mailbox_xrefs (Some 1%positive) [bob] sample_state
      = Ok tt σ' ∧
    @mutt_group_match sample_engine (Some 1%positive)
      (Some "BOB@example.com"%string) sample_state = Ok (false, t) sample_state ∧
    @mutt_group_match sample_engine (Some 1%positive)
      (Some "BOB@example.com"%string) σ' = Ok (true, t') σ'.
Proof.
  split; [done|]. split; [done|].
  destruct (@group_add_addrlist_extends_matches sample_engine by_mailbox_xrefs
              sample_state 1%positive (Group.mk "team" [alice] []) [bob]
              "BOB@example.com" eq_refl ltac:(done))
    as (σ' & b & t & b' & t' & E1 & E2 & E3 & _ & Hiff).
  assert (b = false) as ->.
  { vm_compute in E2. by injection E2 as <- _. }
  assert (b' = true) as ->.
  { apply Hiff. right. exists bob, "bob@example.com"%string.
    split; [by vm_compute; left|]. split; [done|]. by vm_compute. }
  by exists σ', t, t'.
Defined.

(** ** A context after one of its groups was destroyed *)






(** ** Building and releasing a context *)

(** X12.  A node that [mutt_group_context_add] links into a list is
    released with the list: adding a group pointer and then destroying the
    context leaves the same state as destroying the context right away,
    whether the pointer was already in the list or not.  From an empty
    context, adding and destroying gives back the state before. *)
Theorem add_then_destroy_is_destroy
    (fuel : nat) (root : ptr) (ns : list (loc * ptr)) (group : ptr)
    (σ : state) :
  is_ctx (ctx_heap σ) root ns → (length ns ≤ fuel)%nat →
  ∃ root' σ1 σ2,
    mutt_group_context_add fuel (Some root) group σ = Ok root' σ1 ∧
    mutt_group_context_destroy (S fuel) (Some root') σ1 = Ok None σ2 ∧
    mutt_group_context_destroy fuel (Some root) σ = Ok None σ2 ∧
    (ns = [] → σ2 = σ).
Proof.
  intros Hc Hf.
  pose proof (mutt_group_context_destroy_loop_spec ns fuel root σ Hc Hf) as Ed.
  destruct (decide (group ∈ ns.*2)) as [Hin|Hin].
  - exists root, σ. eexists. split; [|split; [|split; [exact Ed|]]].
    + by apply (mutt_group_context_add_loop_found group ns fuel root Var None
                  root σ).
    + apply (mutt_group_context_destroy_loop_spec ns); [done|lia].
    + intros ->. destruct σ. done.
  - destruct (mutt_group_context_add_loop_append group ns fuel root Var None
                root σ) as (root' & p' & σ1 & E & HG & Hh & Hcell & _ & Hc' & Hfr);
      try done.
    simpl in Hcell, Hc'. subst p'.
    exists root', σ1. eexists. split; [exact E|]. split; [|split; [exact Ed|]].
    + unfold mutt_group_context_destroy.
      rewrite (mutt_group_context_destroy_loop_spec _ (S fuel) root' σ1 Hc').
      * rewrite HG, Hh. f_equal. f_equal. apply map_eq. intros x.
        rewrite !lookup_delete_all, fmap_app. simpl.
        destruct (decide (x ∈ ns.*1)) as [Hx|Hx].
        { rewrite decide_True; [done|]. apply elem_of_app. by left. }
        destruct (decide (x = fresh (dom (ctx_heap σ)))) as [->|Hxn].
        { rewrite decide_True.
          - symmetry. apply fresh_ctx_unallocated.
          - apply elem_of_app. right. by left. }
        rewrite decide_False.
        { by apply Hfr. }
        intros [?|?%list_elem_of_singleton]%elem_of_app; done.
      * rewrite length_app. simpl. lia.
    + intros ->. destruct σ. done.
Qed.

Lemma add_then_destroy_is_destroy_witness :
  is_ctx (ctx_heap sample_state) (Some 1%positive) sample_ctx ∧
  (length sample_ctx ≤ 2)%nat ∧
  (c ← mutt_group_context_add 2 (Some (Some 1%positive)) None;
   mutt_group_context_destroy 3 (Some c)) sample_state =
  mutt_group_context_destroy 2 (Some (Some 1%positive)) sample_state.
Proof.
  split; [apply sample_ctx_is_ctx|]. split; [simpl; lia|].
  destruct (add_then_destroy_is_destroy 2 (Some 1%positive) sample_ctx None
              sample_state sample_ctx_is_ctx)
    as (root' & σ1 & σ2 & E1 & E2 & E3 & _); [simpl; lia|].
  unfold mbind, M_bind, bind.
  replace (mutt_group_context_add 2 (Some (Some 1%positive)) None sample_state)
    with (Ok root' σ1) by (symmetry; exact E1).
  etrans; [exact E2|]. symmetry. exact E3.
Defined.

(** ** What the registry loses *)

Lemma unregisters_only_freed_refl : Reflexive unregisters_only_freed.
Proof. intros σ. split; [reflexivity|done]. Qed.

Lemma unregisters_only_freed_trans : Transitive unregisters_only_freed.
Proof.
  intros σ1 σ2 σ3 [S1 K1] [S2 K2]. split; [by etrans|].
  intros n l E [G3 E3]. apply K2; [|by eexists]. apply K1; [done|].
  destruct S2 as [S2 _]. destruct (S2 _ _ E3) as (G2 & E2 & _). by eexists.
Qed.

#[local] Existing Instances unregisters_only_freed_refl
  unregisters_only_freed_trans.

Lemma same_groups_unregisters σ σ' :
  same_groups σ σ' → unregisters_only_freed σ σ'.
Proof.
  intros Hs. split; [by apply same_groups_survivors|].
  destruct Hs as [HG _]. intros n l E _. by rewrite HG.
Qed.

Lemma unregisters_set_group l G0 G σ :
  group_heap σ !! l = Some G0 → Group.name G0 = Group.name G →
  unregisters_only_freed σ (set_group l G σ).
Proof. intros E Hn. split; [by apply (set_group_survivors _ l G0)|done]. Qed.

Lemma unregisters_set_as g v : preserves unregisters_only_freed (set_as g v).
Proof.
  intros σ u σ' (l & G & _ & E & ->)%set_as_inv.
  by apply (unregisters_set_group l G).
Qed.

Lemma unregisters_set_rs g v : preserves unregisters_only_freed (set_rs g v).
Proof.
  intros σ u σ' (l & G & _ & E & ->)%set_rs_inv.
  by apply (unregisters_set_group l G).
Qed.

Lemma unregisters_group_remove g :
  preserves unregisters_only_freed (group_remove g).
Proof.
  intros σ u σ' [[_ ->]|(l & G & _ & E & ->)]%group_remove_inv; [reflexivity|].
  split; [apply group_remove_state_survivors|].
  intros n x En [Gx Ex]. simpl in Ex.
  apply lookup_delete_Some in Ex as [Hne _].
  unfold group_remove_state. simpl. case_decide as Hd; [|done].
  rewrite lookup_delete_ne; [done|]. intros <-. congruence.
Qed.

Lemma unregisters_registry_restricted σ σ' :
  registry_wf σ' → unregisters_only_freed σ σ' → registry_restricted σ σ'.
Proof.
  intros W' [[_ Hsub] Hk] n l. split.
  - intros E. split; [by eapply lookup_weaken|].
    by apply (registry_points_to_live σ' n l).
  - intros [E Hl]. by apply Hk.
Qed.

(** X13.  The functions that destroy groups take out of the registry
    exactly the entries of the groups they free.  In a well-formed
    registry, after [mutt_group_context_clear] and after the
    context-level remove functions, [Groups] has an entry exactly where it
    had one before and the group is still allocated.
    [mutt_group_context_clear] moreover changes no group that it leaves
    allocated. *)
Theorem registry_loses_only_freed_groups (σ σ' : state) :
  registry_wf σ →
  (∀ fuel ctx r, mutt_group_context_clear fuel ctx σ = Ok r σ' →
     registry_restricted σ σ' ∧
     ∀ l G, group_heap σ' !! l = Some G → group_heap σ !! l = Some G) ∧
  (∀ fuel ctx a r, mutt_group_context_remove_addrlist fuel ctx a σ = Ok r σ' →
     registry_restricted σ σ') ∧
  (∀ fuel ctx s r, mutt_group_context_remove_regex fuel ctx s σ = Ok r σ' →
     registry_restricted σ σ').
Proof.
  intros W.
  assert (Hf : ∀ l, preserves unregisters_only_freed (free_ctx l)).
  { intros l. eapply preserves_weaken; [apply same_groups_unregisters|].
    apply same_groups_free_ctx. }
  assert (Hfw : ∀ l, preserves keeps_registry_wf (free_ctx l)).
  { intros l. eapply preserves_weaken; [apply same_groups_wf|].
    apply same_groups_free_ctx. }
  split; [|split].
  - intros fuel ctx r E. split.
    + apply unregisters_registry_restricted.
      * by apply (preserves_mutt_group_context_clear wf_group_remove Hfw
                    fuel ctx σ r σ').
      * by apply (preserves_mutt_group_context_clear unregisters_group_remove
                    Hf fuel ctx σ r σ').
    + intros l G EG.
      destruct (preserves_mutt_group_context_clear
                  (survivors_group_remove (λ G, G))
                  (λ l, preserves_weaken _ _ _ (same_groups_survivors _)
                          (same_groups_free_ctx l)) fuel ctx σ r σ' E)
        as [Hs _].
      destruct (Hs _ _ EG) as (G0 & E0 & <-). done.
  - intros fuel ctx a r E. apply unregisters_registry_restricted.
    + by apply (preserves_mutt_group_context_remove_addrlist_loop wf_set_as
                  wf_group_remove fuel 0 ctx a σ r σ').
    + by apply (preserves_mutt_group_context_remove_addrlist_loop
                  unregisters_set_as unregisters_group_remove
                  fuel 0 ctx a σ r σ').
  - intros fuel ctx s r E. apply unregisters_registry_restricted.
    + by apply (preserves_mutt_group_context_remove_regex_loop wf_set_rs
                  wf_group_remove fuel 0 ctx s σ r σ').
    + by apply (preserves_mutt_group_context_remove_regex_loop
                  unregisters_set_rs unregisters_group_remove
                  fuel 0 ctx s σ r σ').
Qed.

Lemma registry_loses_only_freed_groups_witness :
  registry_wf sample_state ∧
  ∃ σ',
    mutt_group_context_remove_addrlist 2 (Some 1%positive) [alice] sample_state
      = Ok 0 σ' ∧
    Groups σ' !! "team"%string = None ∧
    Groups σ' !! "vip"%string = Some 2%positive.
Proof.
  split; [apply sample_state_wf|].
  destruct (mutt_group_context_remove_addrlist 2 (Some 1%positive) [alice]
              sample_state) as [r σ'| |] eqn:E;
    [|by vm_compute in E|by vm_compute in E].
  destruct (registry_loses_only_freed_groups sample_state σ' sample_state_wf)
    as (_ & Hrm & _).
  pose proof (Hrm 2%nat (Some 1%positive) [alice] r E) as Hreg.
  vm_compute in E. injection E as <- <-.
  exists (mkState (<["vip"%string:=2%positive]> ∅)
            (<[2%positive:=Group.mk "vip" [] [Regex.mk "^boss@" 0]]> ∅)
            (ctx_heap sample_state)).
  split; [by vm_compute|]. split; [done|].
  apply Hreg. split; [done|]. by eexists.
Defined.

(** ** The status of [mutt_group_context_remove_addrlist] *)

Lemma bind_Ok_inv {A B} (m : M A) (k : A → M B) σ b σ' :
  (m ≫= k) σ = Ok b σ' → ∃ a σ1, m σ = Ok a σ1 ∧ k a σ1 = Ok b σ'.
Proof.
  unfold mbind, M_bind, bind. destruct (m σ) as [a σ1| |]; [|done|done].
  intros E. by exists a, σ1.
Qed.

Lemma group_remove_addrlist_status g a σ rc σ1 :
  group_remove_addrlist g a σ = Ok rc σ1 →
  ctx_heap σ1 = ctx_heap σ ∧
  (rc = 0 ∨ rc = -1) ∧
  (a = [] → rc = -1) ∧
  (a ≠ [] → g ≠ None → rc = 0).
Proof.
  intros E. split.
  { by apply (preserves_group_remove_addrlist same_ctx_set_as g a σ rc σ1). }
  unfold group_remove_addrlist in E. destruct g as [l|].
  - destruct a as [|x a].
    + injection E as <- _. split; [by right|]. split; [done|]. by intros [].
    + apply bind_Ok_inv in E as (u & σ2 & _ & E). injection E as <- _.
      split; [by left|]. split; [done|]. done.
  - injection E as <- _. split; [by right|]. split; [done|]. by intros _ [].
Qed.

Lemma remove_addrlist_round a fuel l σ r σ' :
  mutt_group_context_remove_addrlist_loop (S fuel) 0 (Some l) a σ = Ok r σ' →
  ∃ n rc nx σ1,
    ctx_heap σ !! l = Some n ∧
    (rc = 0 ∨ rc = -1) ∧
    (a = [] → rc = -1) ∧
    (a ≠ [] → GroupContext.g n ≠ None → rc = 0) ∧
    ctx_heap σ1 = ctx_heap σ ∧
    mutt_group_context_remove_addrlist_loop fuel rc nx a σ1 = Ok r σ'.
Proof.
  rewrite mutt_group_context_remove_addrlist_loop_eq.
  rewrite decide_True by done. intros E.
  apply bind_Ok_inv in E as (g & σ0 & Eg & E).
  assert (∃ n, ctx_heap σ !! l = Some n ∧ g = GroupContext.g n ∧ σ0 = σ)
    as (n & En & -> & ->).
  { unfold ctx_g, load_ctx in Eg. munfold.
    destruct (ctx_heap σ !! l) as [n|]; [|done]. injection Eg as <- <-.
    by exists n. }
  apply bind_Ok_inv in E as (rc & σ1 & Erm & E).
  apply group_remove_addrlist_status in Erm as (Hc1 & Hrc & Hnil & Hcons).
  apply bind_Ok_inv in E as (g' & σ1' & Eg' & E).
  apply ctx_g_readonly in Eg' as ->.
  apply bind_Ok_inv in E as (e & σ2 & Ee & E).
  apply empty_group_readonly in Ee as ->.
  apply bind_Ok_inv in E as (u & σ3 & Eif & E).
  assert (Hc3 : ctx_heap σ3 = ctx_heap σ1).
  { destruct (decide (e ≠ 0)).
    - apply bind_Ok_inv in Eif as (g'' & σ1' & Eg'' & Eif).
      apply ctx_g_readonly in Eg'' as ->.
      by apply (same_ctx_group_remove g'' σ1 u σ3).
    - by injection Eif as _ <-. }
  apply bind_Ok_inv in E as (nx & σ3' & Enx & E).
  apply ctx_next_readonly in Enx as ->.
  exists n, rc, nx, σ3. repeat (split; [done|]). split; [congruence|done].
Qed.

Lemma remove_addrlist_loop_stopped a fuel rc ctx σ r σ' :
  rc ≠ 0 →
  mutt_group_context_remove_addrlist_loop fuel rc ctx a σ = Ok r σ' → r = rc.
Proof.
  intros Hrc. rewrite mutt_group_context_remove_addrlist_loop_eq.
  rewrite decide_False by done. by intros [= <- _].
Qed.

Lemma remove_addrlist_loop_status a fuel : ∀ rc ctx σ r σ',
  rc = 0 ∨ rc = -1 →
  mutt_group_context_remove_addrlist_loop fuel rc ctx a σ = Ok r σ' →
  r = 0 ∨ r = -1.
Proof.
  induction fuel as [|fuel IH]; intros rc ctx σ r σ' Hrc E.
  - rewrite mutt_group_context_remove_addrlist_loop_eq in E.
    destruct (decide (rc = 0)); [|by injection E as <- _].
    destruct ctx; [done|by injection E as <- _].
  - destruct (decide (rc = 0)) as [->|Hne];
      [|by apply remove_addrlist_loop_stopped in E as ->].
    destruct ctx as [l|].
    + apply remove_addrlist_round in E
        as (n & rc & nx & σ1 & _ & Hrc' & _ & _ & _ & E).
      by apply (IH rc nx σ1 r σ').
    + rewrite mutt_group_context_remove_addrlist_loop_eq in E.
      injection E as <- _. by left.
Qed.

Lemma remove_addrlist_loop_succeeds a fuel : ∀ ctx σ r σ',
  a ≠ [] →
  (∀ l n, ctx_heap σ !! l = Some n → GroupContext.g n ≠ None) →
  mutt_group_context_remove_addrlist_loop fuel 0 ctx a σ = Ok r σ' →
  r = 0.
Proof.
  induction fuel as [|fuel IH]; intros ctx σ r σ' Ha Hg E.
  - rewrite mutt_group_context_remove_addrlist_loop_eq in E.
    destruct ctx; [done|by injection E as <- _].
  - destruct ctx as [l|].
    + apply remove_addrlist_round in E
        as (n & rc & nx & σ1 & En & _ & _ & Hrc & Hc & E).
      rewrite (Hrc Ha (Hg _ _ En)) in E.
      apply (IH nx σ1 r σ'); [done| |done]. by rewrite Hc.
    + rewrite mutt_group_context_remove_addrlist_loop_eq in E.
      by injection E as <- _.
Qed.

(** X14.  The status of [mutt_group_context_remove_addrlist], whenever it
    returns, is 0 or -1.  On a null context it is 0 and nothing changes.
    With a null address list on a non-null context it is -1.  With a
    non-null address list it is 0 unless a context node carries a null
    group pointer: an address that is not in a group is no failure. *)
Theorem mutt_group_context_remove_addrlist_status
    (fuel : nat) (ctx : ptr) (a : list Address.t) (σ : state)
    (r : Z) (σ' : state) :
  mutt_group_context_remove_addrlist fuel ctx a σ = Ok r σ' →
  (r = 0 ∨ r = -1) ∧
  (ctx = None → r = 0 ∧ σ' = σ) ∧
  (a = [] → ctx ≠ None → r = -1) ∧
  (a ≠ [] →
   (∀ l n, ctx_heap σ !! l = Some n → GroupContext.g n ≠ None) →
   r = 0).
Proof.
  unfold mutt_group_context_remove_addrlist. intros E.
  split; [|split; [|split]].
  - apply (remove_addrlist_loop_status a fuel 0 ctx σ r σ'); [by left|done].
  - intros ->. rewrite mutt_group_context_remove_addrlist_loop_eq in E.
    by injection E as <- <-.
  - intros -> Hctx. destruct ctx as [l|]; [|done].
    destruct fuel as [|fuel].
    { by rewrite mutt_group_context_remove_addrlist_loop_eq in E. }
    apply remove_addrlist_round in E
      as (n & rc & nx & σ1 & _ & _ & Hrc & _ & _ & E).
    rewrite (Hrc eq_refl) in E.
    by apply (remove_addrlist_loop_stopped [] fuel (-1) nx σ1 r σ').
  - intros Ha Hg. by apply (remove_addrlist_loop_succeeds a fuel ctx σ r σ').
Qed.

Lemma mutt_group_context_remove_addrlist_status_witness :
  mutt_group_context_remove_addrlist 2 (Some 1%positive) [bob] sample_state
    = Ok 0 sample_state ∧
  [bob] ≠ [] ∧
  (∀ l n, ctx_heap sample_state !! l = Some n → GroupContext.g n ≠ None).
Proof.
  assert (Hg : ∀ l n, ctx_heap sample_state !! l = Some n →
                      GroupContext.g n ≠ None).
  { intros l n. unfold sample_state. simpl.
    destruct (decide (l = 1%positive)) as [->|H1].
    { rewrite lookup_insert_eq. by intros [= <-]. }
    rewrite lookup_insert_ne by done.
    destruct (decide (l = 2%positive)) as [->|H2].
    { rewrite lookup_insert_eq. by intros [= <-]. }
    rewrite lookup_insert_ne by done. by rewrite lookup_empty. }
  split; [|by split].
  destruct (mutt_group_context_remove_addrlist 2 (Some 1%positive) [bob]
              sample_state) as [r σ'| |] eqn:E;
    [|by vm_compute in E|by vm_compute in E].
  destruct (mutt_group_context_remove_addrlist_status 2 (Some 1%positive) [bob]
              sample_state r σ' E) as (_ & _ & _ & Hr).
  rewrite (Hr ltac:(done) Hg). f_equal.
  vm_compute in E. by injection E as _ <-.
Defined.

(** ** The registry in every reachable state *)

Lemma keeps_registry_consistent_refl : Reflexive keeps_registry_consistent.
Proof. intros σ. by unfold keeps_registry_consistent. Qed.

Lemma keeps_registry_consistent_trans : Transitive keeps_registry_consistent.
Proof. unfold keeps_registry_consistent. intros σ1 σ2 σ3 H1 H2 W. auto. Qed.

#[local] Existing Instances keeps_registry_consistent_refl
  keeps_registry_consistent_trans.

Lemma same_groups_consistent σ σ' :
  same_groups σ σ' → keeps_registry_consistent σ σ'.
Proof.
  intros [HG Hh] [W C]. split.
  - by apply (same_groups_wf σ σ').
  - intros l G E. rewrite HG. apply C. by rewrite <- Hh.
Qed.

Lemma set_group_consistent l G0 G σ :
  group_heap σ !! l = Some G0 → Group.name G = Group.name G0 →
  keeps_registry_consistent σ (set_group l G σ).
Proof.
  intros E Hn [W C]. split; [by apply (set_group_wf l G0)|].
  intros x Gx Ex. simpl in *.
  destruct (decide (l = x)) as [->|Hne].
  - rewrite lookup_insert_eq in Ex. injection Ex as <-. rewrite Hn. by apply C.
  - rewrite lookup_insert_ne in Ex by done. by apply C.
Qed.

Lemma consistent_set_as g v : preserves keeps_registry_consistent (set_as g v).
Proof.
  intros σ u σ' (l & G & _ & E & ->)%set_as_inv.
  by apply (set_group_consistent l G).
Qed.

Lemma consistent_set_rs g v : preserves keeps_registry_consistent (set_rs g v).
Proof.
  intros σ u σ' (l & G & _ & E & ->)%set_rs_inv.
  by apply (set_group_consistent l G).
Qed.

Lemma consistent_group_remove g :
  preserves keeps_registry_consistent (group_remove g).
Proof.
  intros σ u σ' [[_ ->]|(l & G & _ & E & ->)]%group_remove_inv; [done|].
  intros [W C]. split; [by apply group_remove_state_wf|].
  intros x Gx Ex. simpl in Ex. apply lookup_delete_Some in Ex as [Hne Ex].
  unfold group_remove_state. simpl.
  rewrite decide_True by (by apply C).
  rewrite lookup_delete_ne; [by apply C|].
  intros Hn. apply Hne. apply C in E, Ex. congruence.
Qed.

Lemma consistent_mutt_pattern_group k :
  preserves keeps_registry_consistent (mutt_pattern_group k).
Proof.
  intros σ p σ' E [W C]. split; [by apply (wf_mutt_pattern_group k σ p σ')|].
  apply mutt_pattern_group_inv in E as [[-> _]|(n & _ & En & ->)]; [done|].
  intros x Gx Ex. simpl in *.
  destruct (decide (fresh (dom (group_heap σ)) = x)) as [<-|Hne].
  - rewrite lookup_insert_eq in Ex. injection Ex as <-. simpl.
    by rewrite lookup_insert_eq.
  - rewrite lookup_insert_ne in Ex by done.
    rewrite lookup_insert_ne; [by apply C|].
    intros ->. apply C in Ex. congruence.
Qed.

Lemma public_call_consistent `{RegexEngine} `{AddressLib} σ σ' :
  public_call σ σ' → registry_consistent σ → registry_consistent σ'.
Proof.
  assert (Hs : ∀ l n, preserves keeps_registry_consistent (store_ctx l n)).
  { intros l n. eapply preserves_weaken; [apply same_groups_consistent|].
    apply same_groups_store_ctx. }
  assert (Hc : preserves keeps_registry_consistent calloc_ctx).
  { eapply preserves_weaken; [apply same_groups_consistent|].
    apply same_groups_calloc_ctx. }
  assert (Hf : ∀ l, preserves keeps_registry_consistent (free_ctx l)).
  { intros l. eapply preserves_weaken; [apply same_groups_consistent|].
    apply same_groups_free_ctx. }
  intros [(k & p & E)|[(fuel & ctx & r & E)|[(fuel & ctx & group & r & E)|
          [(fuel & ctx & r & E)|[(fuel & ctx & a & r & E)|
          [(fuel & ctx & a & r & E)|[(fuel & ctx & s & flags & err & r & E)|
          [(fuel & ctx & s & r & E)|(g & s & r & E)]]]]]]]].
  - by apply (consistent_mutt_pattern_group k σ p σ').
  - by apply (preserves_mutt_group_context_clear consistent_group_remove Hf
                fuel ctx σ r σ').
  - by apply (preserves_mutt_group_context_add Hs Hc fuel ctx group σ r σ').
  - by apply (preserves_mutt_group_context_destroy Hf fuel ctx σ r σ').
  - by apply (preserves_mutt_group_context_add_addrlist consistent_set_as
                fuel ctx a σ r σ').
  - by apply (preserves_mutt_group_context_remove_addrlist_loop
                consistent_set_as consistent_group_remove fuel 0 ctx a σ r σ').
  - by apply (preserves_mutt_group_context_add_regex_loop consistent_set_rs
                fuel 0 ctx s flags err σ r σ').
  - by apply (preserves_mutt_group_context_remove_regex_loop
                consistent_set_rs consistent_group_remove fuel 0 ctx s σ r σ').
  - by rewrite (mutt_group_match_readonly _ _ _ _ _ E).
Qed.

(** X15.  In every state that a program reaches from the empty state by
    calls of the public functions of [group.c], the registry and the
    groups describe each other: each entry of [Groups] points to an
    allocated group that carries the key as its name, each allocated group
    is registered under its name, and so two names never share a group.
    No group leaks and no entry dangles, whatever the calls were. *)
Theorem reachable_registry_consistent `{RegexEngine} `{AddressLib}
    (σ : state) :
  reachable σ →
  registry_wf σ ∧
  registry_complete σ ∧
  (∀ n1 n2 l, Groups σ !! n1 = Some l → Groups σ !! n2 = Some l → n1 = n2).
Proof.
  intros Hr.
  assert (Hc : registry_consistent σ).
  { induction Hr as [|σ σ' _ IH Hcall].
    - split; [apply registry_wf_empty|]. intros l G E. simpl in E.
      by rewrite lookup_empty in E.
    - by apply (public_call_consistent σ σ'). }
  destruct Hc as [W C]. split; [done|]. split; [done|].
  intros n1 n2 l E1 E2.
  destruct (W _ _ E1) as (G1 & EG1 & <-).
  destruct (W _ _ E2) as (G2 & EG2 & <-). congruence.
Qed.

Lemma reachable_registry_consistent_witness :
  ∃ σ,
    mutt_pattern_group (Some "team"%string) (mkState ∅ ∅ ∅)
      = Ok (Some 1%positive) σ ∧
    @reachable sample_engine keep_all_xrefs σ ∧
    registry_wf σ ∧ registry_complete σ.
Proof.
  destruct (mutt_pattern_group (Some "team"%string) (mkState ∅ ∅ ∅))
    as [p σ| |] eqn:E; [|by vm_compute in E|by vm_compute in E].
  assert (Hr : @reachable sample_engine keep_all_xrefs σ).
  { apply (reachable_call (mkState ∅ ∅ ∅)); [apply reachable_init|].
    left. by exists (Some "team"%string), p. }
  destruct (@reachable_registry_consistent sample_engine keep_all_xrefs σ Hr)
    as (W & C & _).
  exists σ. split; [|done].
  assert (p = Some 1%positive) as ->; [|done].
  vm_compute in E. by injection E as <- _.
Defined.

(** ** Full reset *)

(** X16.  [mutt_group_context_clear] on the list that refers to every
    group is a full reset.  If the registry is well-formed, the list's
    group pointers are distinct allocated groups (or null), every
    allocated group is referred to by the list and every allocated
    context node belongs to it, then the call returns 0 and leaves the
    empty state: no group, no registry entry, no context node. *)
Theorem mutt_group_context_clear_resets
    (fuel : nat) (root : ptr) (ns : list (loc * ptr)) (σ : state) :
  registry_wf σ →
  is_ctx (ctx_heap σ) root ns →
  NoDup (group_locs ns) →
  (∀ l, is_Some (group_heap σ !! l) ↔ l ∈ group_locs ns) →
  (∀ l, is_Some (ctx_heap σ !! l) → l ∈ ns.*1) →
  (length ns ≤ fuel)%nat →
  mutt_group_context_clear fuel (Some root) σ
    = Ok (0, Some None) (mkState ∅ ∅ ∅).
Proof.
  intros W Hc Hnd Hall Hnodes Hf.
  destruct (mutt_group_context_clear_loop_spec ns fuel root σ)
    as (σ' & E & Hg & Hcx & Hreg & Hwf); try done.
  { intros l Hl. by apply Hall. }
  unfold mutt_group_context_clear. munfold. rewrite E. f_equal.
  assert (Hg' : group_heap σ' = ∅).
  { rewrite Hg. apply map_eq. intros l. rewrite lookup_delete_all, lookup_empty.
    case_decide as Hl; [done|].
    destruct (group_heap σ !! l) eqn:El; [|done].
    exfalso. apply Hl, Hall. by eexists. }
  assert (Hcx' : ctx_heap σ' = ∅).
  { rewrite Hcx. apply map_eq. intros l. rewrite lookup_delete_all, lookup_empty.
    case_decide as Hl; [done|].
    destruct (ctx_heap σ !! l) eqn:El; [|done].
    exfalso. apply Hl, Hnodes. by eexists. }
  assert (HG' : Groups σ' = ∅).
  { apply map_eq. intros n. rewrite lookup_empty.
    destruct (Groups σ' !! n) as [l|] eqn:En; [|done].
    destruct (registry_points_to_live _ _ _ (Hwf W) En) as [G EG].
    rewrite Hg', lookup_empty in EG. done. }
  destruct σ' as [R gh ch]. simpl in *. by rewrite Hg', Hcx', HG'.
Qed.

Lemma mutt_group_context_clear_resets_witness :
  registry_wf sample_state ∧
  is_ctx (ctx_heap sample_state) (Some 1%positive) sample_ctx ∧
  mutt_group_context_clear 2 (Some (Some 1%positive)) sample_state
    = Ok (0, Some None) (mkState ∅ ∅ ∅).
Proof.
  split; [apply sample_state_wf|]. split; [apply sample_ctx_is_ctx|].
  apply (mutt_group_context_clear_resets 2 (Some 1%positive) sample_ctx
           sample_state sample_state_wf sample_ctx_is_ctx
           sample_ctx_groups_NoDup).
  - intros l. split; [|apply sample_ctx_groups_live].
    intros [G E]. unfold sample_ctx. rewrite !group_locs_cons_Some.
    unfold sample_state in E. simpl in E.
    destruct (decide (l = 1%positive)) as [->|H1]; [by left|].
    rewrite lookup_insert_ne in E by done.
    destruct (decide (l = 2%positive)) as [->|H2]; [right; by left|].
    rewrite lookup_insert_ne in E by done. by rewrite lookup_empty in E.
  - intros l [n E]. unfold sample_state in E. simpl in E.
    destruct (decide (l = 1%positive)) as [->|H1]; [by left|].
    rewrite lookup_insert_ne in E by done.
    destruct (decide (l = 2%positive)) as [->|H2]; [right; by left|].
    rewrite lookup_insert_ne in E by done. by rewrite lookup_empty in E.
  - simpl. lia.
Defined.

(** ** Naming a group twice in one statement *)

(** X17.  Naming a group twice puts it into the context once.  Starting
    from any context list, resolving a name with [mutt_pattern_group] and
    adding the result leaves a list that refers to the group; resolving
    the same name again returns the same pointer and adding it again
    changes neither the list nor anything else. *)
Theorem resolve_and_add_twice
    (fuel : nat) (root : ptr) (ns : list (loc * ptr)) (n : string)
    (σ : state) :
  is_ctx (ctx_heap σ) root ns → (length ns ≤ fuel)%nat →
  ∃ l σ1 c σ2 ns',
    mutt_pattern_group (Some n) σ = Ok (Some l) σ1 ∧
    mutt_group_context_add fuel (Some root) (Some l) σ1 = Ok c σ2 ∧
    is_ctx (ctx_heap σ2) c ns' ∧
    (ns' = ns ∨ ∃ l0, ns' = ns ++ [(l0, Some l)]) ∧
    Some l ∈ ns'.*2 ∧
    mutt_pattern_group (Some n) σ2 = Ok (Some l) σ2 ∧
    mutt_group_context_add (S fuel) (Some c) (Some l) σ2 = Ok c σ2.
Proof.
  intros Hc Hf.
  assert (∃ l σ1, mutt_pattern_group (Some n) σ = Ok (Some l) σ1 ∧
                  Groups σ1 !! n = Some l ∧ ctx_heap σ1 = ctx_heap σ)
    as (l & σ1 & E1 & Hreg & Hcx).
  { destruct (Groups σ !! n) as [l|] eqn:E.
    - exists l, σ. by rewrite (mutt_pattern_group_found _ _ _ E).
    - rewrite (mutt_pattern_group_new _ _ E). cbv zeta.
      eexists _, _. split; [reflexivity|]. simpl.
      by rewrite lookup_insert_eq. }
  assert (Hc1 : is_ctx (ctx_heap σ1) root ns) by (by rewrite Hcx).
  exists l, σ1.
  destruct (decide (Some l ∈ ns.*2)) as [Hin|Hin].
  - exists root, σ1, ns.
    assert (Hadd : ∀ f, (length ns ≤ f)%nat →
              mutt_group_context_add f (Some root) (Some l) σ1 = Ok root σ1).
    { intros f Hlen.
      by apply (mutt_group_context_add_loop_found (Some l) ns f root Var None
                  root σ1). }
    split; [done|]. split; [by apply Hadd|]. split; [done|].
    split; [by left|]. split; [done|].
    split; [by apply mutt_pattern_group_found|]. apply Hadd. lia.
  - destruct (mutt_group_context_add_loop_append (Some l) ns fuel root Var None
                root σ1) as (c & p' & σ2 & E & HG & Hh & Hcell & _ & Hc' & _);
      try done.
    simpl in Hcell, Hc'. subst p'.
    exists c, σ2, (ns ++ [(fresh (dom (ctx_heap σ1)), Some l)]).
    assert (Hin' : Some l ∈ (ns ++ [(fresh (dom (ctx_heap σ1)), Some l)]).*2).
    { rewrite fmap_app. apply elem_of_app. right. by left. }
    split; [done|]. split; [exact E|]. split; [done|].
    split; [right; by eexists|]. split; [done|].
    split; [apply mutt_pattern_group_found; by rewrite HG|].
    apply (mutt_group_context_add_loop_found (Some l)
             (ns ++ [(fresh (dom (ctx_heap σ1)), Some l)]) (S fuel) c Var None
             c σ2); [done|done| |done].
    rewrite length_app. simpl. lia.
Qed.

Lemma resolve_and_add_twice_witness :
  is_ctx (ctx_heap sample_state) (Some 1%positive) sample_ctx ∧
  (length sample_ctx ≤ 2)%nat ∧
  ∃ l σ1 c σ2,
    mutt_pattern_group (Some "temp"%string) sample_state = Ok (Some l) σ1 ∧
    mutt_group_context_add 2 (Some (Some 1%positive)) (Some l) σ1 = Ok c σ2 ∧
    mutt_pattern_group (Some "temp"%string) σ2 = Ok (Some l) σ2 ∧
    mutt_group_context_add 3 (Some c) (Some l) σ2 = Ok c σ2.
Proof.
  split; [apply sample_ctx_is_ctx|]. split; [simpl; lia|].
  destruct (resolve_and_add_twice 2 (Some 1%positive) sample_ctx "temp"
              sample_state sample_ctx_is_ctx)
    as (l & σ1 & c & σ2 & ns' & E1 & E2 & _ & _ & _ & E3 & E4); [simpl; lia|].
  by exists l, σ1, c, σ2.
Defined.

(** ** The remove loops: what is destroyed and what stays *)

Lemma group_locs_all_Some (ns : list (loc * ptr)) (ls : list loc) :
  ns.*2 = Some <$> ls → group_locs ns = ls.
Proof.
  revert ls. induction ns as [|[n g] ns IH]; intros [|l ls] Hns; try done.
  simpl in Hns. injection Hns as -> Hns.
  rewrite group_locs_cons_Some. f_equal. by apply IH.
Qed.

Lemma remove_addrlist_registry fuel ctx a r σ σ' :
  registry_wf σ →
  mutt_group_context_remove_addrlist fuel ctx a σ = Ok r σ' →
  registry_restricted σ σ'.
Proof.
  intros W E. apply unregisters_registry_restricted.
  - by apply (preserves_mutt_group_context_remove_addrlist_loop wf_set_as
                wf_group_remove fuel 0 ctx a σ r σ').
  - by apply (preserves_mutt_group_context_remove_addrlist_loop
                unregisters_set_as unregisters_group_remove
                fuel 0 ctx a σ r σ').
Qed.

Lemma remove_regex_registry fuel ctx s r σ σ' :
  registry_wf σ →
  mutt_group_context_remove_regex fuel ctx s σ = Ok r σ' →
  registry_restricted σ σ'.
Proof.
  intros W E. apply unregisters_registry_restricted.
  - by apply (preserves_mutt_group_context_remove_regex_loop wf_set_rs
                wf_group_remove fuel 0 ctx s σ r σ').
  - by apply (preserves_mutt_group_context_remove_regex_loop
                unregisters_set_rs unregisters_group_remove
                fuel 0 ctx s σ r σ').
Qed.

Lemma remove_added_is_empty `{AddressLib} (a : Address.t) (G : Group.t) :
  Group.rs G = [] →
  (∀ x, x ∈ Group.as_ G → Address.mailbox x = Address.mailbox a) →
  is_empty_group (remove_addresses [a] (add_addresses [a] G)) = true.
Proof.
  intros Hrs Has. unfold is_empty_group, remove_addresses, add_addresses.
  simpl. rewrite Hrs. simpl.
  rewrite filter_mailbox_nil; [done|].
  intros x [Hx|Hx]%elem_of_app; [by apply Has|].
  assert (x ∈ [a]) as ->%list_elem_of_singleton; [|done].
  eapply elem_of_sublist; [exact Hx|]. apply mutt_remove_xrefs_sublist.
Qed.

(** C2, as the code has it.  Take a well-formed registry and a context
    list whose group pointers are distinct allocated groups.  A remove
    loop visits the groups in order and stops after the first failure.
    Each visited group is updated, and destroyed (freed, and no registry
    entry points to it) exactly when it is then left with no addresses and
    no patterns.  Every group that is not visited stays as it was, whether
    or not it is empty, and the registry afterwards is the registry before
    without the entries of the destroyed groups: an entry is there exactly
    if it was there before and its group is still allocated.
    [mutt_group_context_remove_addrlist] with a non-empty list visits all
    groups and returns 0.  [mutt_group_context_remove_regex] visits all
    groups and returns 0 when all have the pattern, and otherwise returns
    -1 having visited the groups up to and including the first that does
    not have it.  In particular, for a group of the list without patterns
    whose addresses (if any) all carry the mailbox of [a], adding [[a]]
    and then removing [[a]] through the context destroys it. *)
Theorem remove_destroys_visited_groups `{AddressLib}
    (fuel : nat) (root : ptr) (ns : list (loc * ptr)) (ls : list loc)
    (σ : state) :
  registry_wf σ →
  is_ctx (ctx_heap σ) root ns →
  ns.*2 = Some <$> ls →
  NoDup ls →
  (∀ l, l ∈ ls → is_Some (group_heap σ !! l)) →
  (length ns ≤ fuel)%nat →
  (∀ a, a ≠ [] →
     ∃ σ', mutt_group_context_remove_addrlist fuel root a σ = Ok 0 σ' ∧
           visited_outcome (remove_addresses a) ls σ σ' ∧
           registry_restricted σ σ') ∧
  (∀ s,
     (∀ l G, l ∈ ls → group_heap σ !! l = Some G →
        Exists (λ r, Regex.pattern r = s) (Group.rs G)) →
     ∃ σ', mutt_group_context_remove_regex fuel root (Some s) σ = Ok 0 σ' ∧
           visited_outcome (remove_regex (Some s)) ls σ σ' ∧
           registry_restricted σ σ') ∧
  (∀ s ls1 l ls2 G,
     ls = ls1 ++ l :: ls2 →
     (∀ x Gx, x ∈ ls1 → group_heap σ !! x = Some Gx →
        Exists (λ r, Regex.pattern r = s) (Group.rs Gx)) →
     group_heap σ !! l = Some G →
     ¬ Exists (λ r, Regex.pattern r = s) (Group.rs G) →
     ∃ σ', mutt_group_context_remove_regex fuel root (Some s) σ = Ok (-1) σ' ∧
           visited_outcome (remove_regex (Some s)) (ls1 ++ [l]) σ σ' ∧
           registry_restricted σ σ' ∧
           (∀ x, x ∈ ls2 → group_heap σ' !! x = group_heap σ !! x) ∧
           (∀ n x, x ∈ ls2 → Groups σ' !! n = Some x ↔ Groups σ !! n = Some x)) ∧
  (∀ a l G,
     l ∈ ls →
     group_heap σ !! l = Some G →
     Group.rs G = [] →
     (∀ x, x ∈ Group.as_ G → Address.mailbox x = Address.mailbox a) →
     ∃ σ1 σ2,
       mutt_group_context_add_addrlist fuel root [a] σ = Ok tt σ1 ∧
       mutt_group_context_remove_addrlist fuel root [a] σ1 = Ok 0 σ2 ∧
       group_heap σ2 !! l = None ∧
       ∀ n, Groups σ2 !! n ≠ Some l).
Proof.
  intros W Hc Hns Hnd Hlive Hf. split; [|split; [|split]].
  - intros a Ha.
    destruct (remove_addrlist_all a ls ns fuel root σ) as (σ' & E & Hvis);
      try done.
    exists σ'. split; [done|]. split; [done|].
    by apply (remove_addrlist_registry fuel root a 0).
  - intros s Hall.
    destruct (remove_regex_all s ls ns fuel root σ) as (σ' & E & Hvis);
      try done.
    { intros l Hl. destruct (Hlive l Hl) as [G EG]. exists G. split; [done|].
      by apply (Hall l). }
    exists σ'. split; [done|]. split; [done|].
    by apply (remove_regex_registry fuel root (Some s) 0).
  - intros s ls1 l ls2 G -> Hall EG HG.
    destruct (remove_regex_first_failure s ls1 l ls2 G ns fuel root σ)
      as (σ' & E & Hvis); try done.
    { intros x Hx. destruct (Hlive x) as [Gx EGx].
      { apply elem_of_app. by left. }
      exists Gx. split; [done|]. by apply (Hall x). }
    assert (Hreg : registry_restricted σ σ')
      by (by apply (remove_regex_registry fuel root (Some s) (-1))).
    assert (Hrest : ∀ x, x ∈ ls2 → group_heap σ' !! x = group_heap σ !! x).
    { intros x Hx. destruct Hvis as (_ & _ & _ & Hout). apply Hout.
      apply NoDup_app in Hnd as (_ & Hd & Hnd).
      apply NoDup_cons in Hnd as [Hl _].
      intros [Hx1| ->%list_elem_of_singleton]%elem_of_app; [|done].
      apply (Hd x Hx1). by right. }
    exists σ'. split; [done|]. split; [done|]. split; [done|].
    split; [done|].
    intros n x Hx. rewrite (Hreg n x). split; [by intros [? _]|].
    intros En. split; [done|]. rewrite (Hrest x Hx).
    by apply (registry_points_to_live σ n x).
  - intros a l G Hl EG Hrs Has.
    pose proof (group_locs_all_Some ns ls Hns) as Hgl.
    destruct (mutt_group_context_add_addrlist_all [a] ns ltac:(done)
                fuel root σ) as (σ1 & E1 & HG1 & Hcx1 & Hin1 & Hout1);
      [done|by rewrite Hgl|by rewrite Hgl|done|].
    rewrite Hgl in Hin1.
    assert (W1 : registry_wf σ1).
    { by apply (preserves_mutt_group_context_add_addrlist wf_set_as
                  fuel root [a] σ tt σ1). }
    destruct (remove_addrlist_all [a] ls ns fuel root σ1)
      as (σ2 & E2 & _ & _ & Hvis & _); try done.
    { by rewrite Hcx1. }
    { intros x Hx. destruct (Hlive x Hx) as [Gx EGx].
      rewrite (Hin1 x Gx Hx EGx). by eexists. }
    exists σ1, σ2. split; [done|]. split; [done|].
    specialize (Hvis l (add_addresses [a] G) Hl (Hin1 l G Hl EG)).
    by rewrite (remove_added_is_empty a G Hrs Has) in Hvis.
Qed.

Lemma remove_destroys_visited_groups_witness :
  registry_wf sample_state ∧
  is_ctx (ctx_heap sample_state) (Some 1%positive) sample_ctx ∧
  sample_ctx.*2 = Some <$> [1%positive; 2%positive] ∧
  ∃ σ',
    mutt_group_context_remove_addrlist 2 (Some 1%positive) [alice] sample_state
      = Ok 0 σ' ∧
    group_heap σ' !! 1%positive = None ∧
    Groups σ' !! "team"%string = None ∧
    group_heap σ' !! 2%positive =
      Some (Group.mk "vip" [] [Regex.mk "^boss@" 0]) ∧
    Groups σ' !! "vip"%string = Some 2%positive.
Proof.
  split; [apply sample_state_wf|]. split; [apply sample_ctx_is_ctx|].
  split; [done|].
  destruct (@remove_destroys_visited_groups keep_all_xrefs 2 (Some 1%positive)
              sample_ctx [1%positive; 2%positive] sample_state
              sample_state_wf sample_ctx_is_ctx eq_refl
              sample_ctx_groups_NoDup sample_ctx_groups_live)
    as (Haddr & _); [simpl; lia|].
  destruct (Haddr [alice]) as (σ' & E & (_ & _ & Hvis & _) & Hreg); [done|].
  destruct (Hvis 1%positive (Group.mk "team" [alice] [])
              ltac:(by left) eq_refl) as [E1 Hno].
  assert (E2 : group_heap σ' !! 2%positive =
                 Some (Group.mk "vip" [] [Regex.mk "^boss@" 0])).
  { apply (Hvis 2%positive (Group.mk "vip" [] [Regex.mk "^boss@" 0])); [|done].
    right. by left. }
  exists σ'. split; [done|]. split; [done|]. split; [|split; [done|]].
  - destruct (Groups σ' !! "team"%string) as [x|] eqn:Et; [|done].
    exfalso. pose proof (proj1 (Hreg _ _) Et) as [Et' _].
    assert (x = 1%positive) as -> by (vm_compute in Et'; congruence).
    by apply (Hno "team"%string).
  - apply Hreg. split; [done|]. eexists. exact E2.
Defined.

(** C2 as stated fails.  The context of [two_group_state] refers to the
    groups ["a"] and ["b"], and ["b"] has no addresses and no patterns.
    Removing the pattern ["y"], which ["a"] does not have, fails on ["a"]
    and ends the loop; removing a null address list does the same.  After
    either call ["b"] is still allocated and registered, with no addresses
    and no patterns.  And on [sample_state], adding [[bob]] to ["team"],
    which has no patterns, and removing [[bob]] again leaves ["team"]
    registered with the address it had. *)
Lemma remove_leaves_unvisited_empty_group :
  is_ctx (ctx_heap two_group_state) (Some 1%positive)
         [(1%positive, Some 1%positive); (2%positive, Some 2%positive)] ∧
  mutt_group_context_remove_regex 2 (Some 1%positive) (Some "y"%string)
      two_group_state = Ok (-1) two_group_state ∧
  mutt_group_context_remove_addrlist 2 (Some 1%positive) [] two_group_state
    = Ok (-1) two_group_state ∧
  group_heap two_group_state !! 2%positive = Some (Group.mk "b" [] []) ∧
  Groups two_group_state !! "b"%string = Some 2%positive ∧
  (group_add_addrlist (H:=by_mailbox_xrefs) (Some 1%positive) [bob];;
   mutt_group_context_remove_addrlist 2 (Some 1%positive) [bob]) sample_state
    = Ok 0 sample_state.
Proof.
  split.
  { simpl. split; [done|]. eexists. split; [reflexivity|].
    split; [done|]. eexists. split; [reflexivity|done]. }
  split; [by vm_compute|]. split; [by vm_compute|]. split; [by vm_compute|].
  split; by vm_compute.
Qed.
